(** * RprUsdMaterialRegistry: texture resolution and material graph building

    A shallow embedding of [pxr/imaging/rprUsd/materialRegistry.cpp]:
    - [Textures]: [RprUsdMaterialRegistry::CommitResources], the three-phase
      resolution of the pending texture commits;
    - [Graph]: [RprUsdMaterialRegistry::CreateMaterial], the per-node pass,
      the recursive output resolution [getNodeOutput] and
      [RprUsdGraphBasedMaterial::Finalize];
    - [MaterialX]: [CreateMaterialXFromUsdShade] in full, with the path of
      the standard libraries it keeps between calls;
    - [Dump]: [DumpMaterialNetwork], the debug dump of a network map;
    - [Registry]: [RprUsdMaterialRegistry::GetRegisteredNodes], the loading
      of the MaterialX node definitions.

    Calls into collaborators that live outside this translation unit (the
    image cache, the file system, the node factories, the backend nodes) are
    Section variables; every call that a property talks about is recorded in
    an event trace, in the order the C++ code performs it (for the
    concurrent loop of [CommitResources], in the order of the schedule of
    the run, which is a Section variable too). *)

From stdpp Require Import base gmap sets list strings.
From Stdlib Require Import ZArith DecimalString.

Set Warnings "-clear-no-such-hyp".

(* ===================================================================== *)
(** * Texture resolver: [CommitResources]                                 *)
(* ===================================================================== *)

Module Textures.

Section CommitResources.

(** Opaque collaborator data: [RprUsdCoreImage], [RprUsdTextureData],
    the state of [RprUsdImageCache], [rpr::ImageWrapType] and the
    colour-space string. *)
Context {Image TextureData ImageCache ColorSpace WrapType : Type}.

(** [RprUsdCoreImage::UDIMTile]. *)
Record UDIMTile := mkTile {
  tile_id : nat;
  tile_data : TextureData
}.

(** One entry of [m_textureCommits].  The [setTextureCallback] member is a
    [std::function]; its invocations are recorded as [EvCallback]. *)
Record TextureCommit := mkCommit {
  filepath : string;
  colorspace : ColorSpace;
  wrapType : WrapType;
  numComponentsRequired : nat
}.

(** The local [struct UniqueTextureInfo]. *)
Record UniqueTextureInfo := mkUnique {
  path : string;
  udimTileId : nat;
  data : option TextureData
}.

(** Calls that leave the function, in the order of the run.
    [EvGetImage] lists the arguments of [imageCache->GetImage] and its
    result; it and [EvCallback] carry the loop index [i] of the commit
    they serve. *)
Inductive Event :=
| EvGetImage (i : nat) (p : string) (cs : ColorSpace) (w : WrapType)
             (tiles : list UDIMTile) (ncomp : nat) (res : option Image)
| EvCallback (i : nat) (img : option Image)
| EvFileAccess (p : string) (found : bool)
| EvLoad (p : string)
| EvLoadFailed (p : string).

(** Collaborators. [ArchFileAccess p = true] stands for
    [ArchFileAccess(p, F_OK) == 0]. *)
Variable GetImage :
  ImageCache → string → ColorSpace → WrapType → list UDIMTile → nat →
  option Image * ImageCache.
Variable RprUsdGetUDIMFormatString : string → option string.
Variable TfStringPrintf : string → nat → string.
Variable ArchFileAccess : string → bool.
Variable TextureDataNew : string → option TextureData.

(** [WorkParallelForN(n, fn)] runs its [n] slots concurrently and fixes no
    order between their steps.  [workSchedule n] is the order of one run:
    the slots that take their next step, in turn (see [interleave]). *)
Variable workSchedule : nat → list nat.

Definition kStartTile : nat := 1001.
Definition kEndTile : nat := 1100.

(** The locals of [CommitResources] that the loops mutate, with the image
    cache they call into. *)
Record Locals := mkLocals {
  cache : ImageCache;
  uniqueTextures : list UniqueTextureInfo;
  uniqueTexturesMapping : gmap string nat
}.

(** The lambda [getUniqueTextureIndex]: [emplace] inserts only when the
    key is new, and only then a [UniqueTextureInfo] is appended. *)
Definition getUniqueTextureIndex (p : string) (tileId : nat) (st : Locals)
  : nat * Locals :=
  match uniqueTexturesMapping st !! p with
  | Some k => (k, st)
  | None =>
      let k := size (uniqueTexturesMapping st) in
      (k, mkLocals (cache st)
                   (uniqueTextures st ++ [mkUnique p tileId None])
                   (<[p := k]> (uniqueTexturesMapping st)))
  end.

(** The inner [for (tileId = kStartTile; tileId <= kEndTile; ++tileId)]
    loop, over the tile ids still to be visited.  Every function below
    returns, last, the events it performed. *)
Fixpoint probeTiles (formatString : string) (tileIds : list nat)
         (st : Locals) : list nat * Locals * list Event :=
  match tileIds with
  | [] => ([], st, [])
  | tileId :: rest =>
      let tilePath := TfStringPrintf formatString tileId in
      if ArchFileAccess tilePath then
        let '(k, st1) := getUniqueTextureIndex tilePath tileId st in
        let '(ks, st2, evs) := probeTiles formatString rest st1 in
        (k :: ks, st2, EvFileAccess tilePath true :: evs)
      else
        let '(ks, st2, evs) := probeTiles formatString rest st in
        (ks, st2, EvFileAccess tilePath false :: evs)
  end.

Definition udimTileIds : list nat := seq kStartTile (S kEndTile - kStartTile).

(** Lines 181-195: what a commit that missed the cache adds to
    [uniqueTextureIndicesPerCommit[i]]. *)
Definition collectCommit (commit : TextureCommit) (st : Locals)
  : list nat * Locals * list Event :=
  match RprUsdGetUDIMFormatString (filepath commit) with
  | Some formatString => probeTiles formatString udimTileIds st
  | None =>
      let '(k, st1) := getUniqueTextureIndex (filepath commit) 0 st in
      ([k], st1, [])
  end.

(** First loop (lines 174-196), from index [i] on.  The result lists
    [uniqueTextureIndicesPerCommit[i..]]; a cache hit leaves the commit's
    vector empty. *)
Fixpoint collect (i : nat) (commits : list TextureCommit) (st : Locals)
  : list (list nat) * Locals * list Event :=
  match commits with
  | [] => ([], st, [])
  | commit :: rest =>
      let '(rprImage, cache1) :=
        GetImage (cache st) (filepath commit) (colorspace commit)
                 (wrapType commit) [] 0 in
      let lookup :=
        EvGetImage i (filepath commit) (colorspace commit) (wrapType commit)
                   [] 0 rprImage in
      let st1 :=
        mkLocals cache1 (uniqueTextures st) (uniqueTexturesMapping st) in
      match rprImage with
      | Some _ =>
          let '(per, st2, evs) := collect (S i) rest st1 in
          ([] :: per, st2, lookup :: EvCallback i rprImage :: evs)
      | None =>
          let '(commitTexIndices, st2, probes) := collectCommit commit st1 in
          let '(per, st3, evs) := collect (S i) rest st2 in
          (commitTexIndices :: per, st3, lookup :: probes ++ evs)
      end
  end.

(** The steps of concurrent slots, in the order [schedule] gives: the
    slot named takes its next step; a slot named when it has no step left
    is passed over, and the steps that the schedule does not ask for are
    taken at the end, slot after slot.  So every schedule gives an
    interleaving of the slots, and every interleaving is given by a
    schedule. *)
Fixpoint interleave {A : Type} (schedule : list nat) (slots : list (list A))
  : list A :=
  match schedule with
  | [] => concat slots
  | k :: rest =>
      match slots !! k with
      | Some (step :: later) => step :: interleave rest (<[k := later]> slots)
      | _ => interleave rest slots
      end
  end.

(** Second loop (lines 200-210).  [WorkParallelForN] runs the slots
    concurrently; each task writes its own slot only, so the resulting
    vector is the slot-wise map.  The steps of a slot are the read of its
    file and, when that fails, the report; the steps of the different
    slots are interleaved as the run's schedule says. *)
Definition loadOne (t : UniqueTextureInfo) : UniqueTextureInfo :=
  mkUnique (path t) (udimTileId t)
           (match TextureDataNew (path t) with
            | Some d => Some d
            | None => data t
            end).

Definition loadEvents (t : UniqueTextureInfo) : list Event :=
  EvLoad (path t) ::
  match TextureDataNew (path t) with
  | Some _ => []
  | None => [EvLoadFailed (path t)]
  end.

Definition loadTextures (st : Locals) : Locals * list Event :=
  (mkLocals (cache st) (loadOne <$> uniqueTextures st)
            (uniqueTexturesMapping st),
   interleave (workSchedule (length (uniqueTextures st)))
              (loadEvents <$> uniqueTextures st)).

(** Lines 219-226: the tiles of one commit; textures without data are
    skipped.  (An index outside [uniqueTextures] cannot occur, see
    [collect_indices_bound]; the model skips it.) *)
Definition gatherTiles (uniq : list UniqueTextureInfo)
           (commitTexIndices : list nat) : list UDIMTile :=
  omap (λ uniqueTextureIdx,
          texture ← uniq !! uniqueTextureIdx;
          d ← data texture;
          Some (mkTile (udimTileId texture) d))
       commitTexIndices.

(** Third loop (lines 215-231). *)
Fixpoint materialize (i : nat) (commits : list TextureCommit)
         (per : list (list nat)) (st : Locals) : Locals * list Event :=
  match commits, per with
  | commit :: rest, commitTexIndices :: per' =>
      match commitTexIndices with
      | [] => materialize (S i) rest per' st
      | _ :: _ =>
          let tiles := gatherTiles (uniqueTextures st) commitTexIndices in
          let '(coreImage, cache1) :=
            GetImage (cache st) (filepath commit) (colorspace commit)
                     (wrapType commit) tiles
                     (numComponentsRequired commit) in
          let st1 :=
            mkLocals cache1 (uniqueTextures st) (uniqueTexturesMapping st) in
          let '(st2, evs) := materialize (S i) rest per' st1 in
          (st2,
           EvGetImage i (filepath commit) (colorspace commit)
                      (wrapType commit) tiles (numComponentsRequired commit)
                      coreImage
           :: EvCallback i coreImage :: evs)
      end
  | _, _ => (st, [])
  end.

Definition initLocals (c : ImageCache) : Locals := mkLocals c [] ∅.

(** The three phases; the intermediate results are named for the
    statements below. *)
Definition phase1 (commits : list TextureCommit) (c : ImageCache) :=
  collect 0 commits (initLocals c).
Definition phase2 (commits : list TextureCommit) (c : ImageCache) :=
  loadTextures (phase1 commits c).1.2.
Definition phase3 (commits : list TextureCommit) (c : ImageCache) :=
  materialize 0 commits (phase1 commits c).1.1 (phase2 commits c).1.

(** The events of a whole run, phase by phase. *)
Definition runTrace (commits : list TextureCommit) (c : ImageCache)
  : list Event :=
  (phase1 commits c).2 ++ (phase2 commits c).2 ++ (phase3 commits c).2.

(** [CommitResources]: the new [m_textureCommits], the image cache and
    the events of the run. *)
Definition CommitResources (m_textureCommits : list TextureCommit)
           (c : ImageCache) : list TextureCommit * ImageCache * list Event :=
  match m_textureCommits with
  | [] => ([], c, [])
  | _ :: _ =>
      ([], cache (phase3 m_textureCommits c).1, runTrace m_textureCommits c)
  end.

(** ** Reading the trace *)

(** The images handed to the callback of commit [i], in order. *)
Definition callbacksFor (i : nat) (tr : list Event) : list (option Image) :=
  omap (λ ev, match ev with
              | EvCallback j img => if decide (j = i) then Some img else None
              | _ => None
              end) tr.

(** The arguments of the [GetImage] calls, in order. *)
Definition lookupsOf (tr : list Event)
  : list (nat * string * ColorSpace * WrapType * list UDIMTile * nat) :=
  omap (λ ev, match ev with
              | EvGetImage i p cs w tiles n _ => Some (i, p, cs, w, tiles, n)
              | _ => None
              end) tr.

(** The paths probed with [ArchFileAccess] and those given to
    [RprUsdTextureData::New], in order. *)
Definition probesOf (tr : list Event) : list string :=
  omap (λ ev, match ev with EvFileAccess p _ => Some p | _ => None end) tr.

Definition loadsOf (tr : list Event) : list string :=
  omap (λ ev, match ev with EvLoad p => Some p | _ => None end) tr.

(** The images that the [GetImage] calls for commit [i] returned, and
    whether there is one. *)
Definition hitImages (i : nat) (tr : list Event) : list Image :=
  omap (λ ev, match ev with
              | EvGetImage j _ _ _ _ _ (Some img) =>
                  if decide (j = i) then Some img else None
              | _ => None
              end) tr.

Definition lookupHit (i : nat) (tr : list Event) : bool :=
  match hitImages i tr with [] => false | _ :: _ => true end.

(** What the [GetImage] calls for commit [i] returned, null included. *)
Definition resultsFor (i : nat) (tr : list Event) : list (option Image) :=
  omap (λ ev, match ev with
              | EvGetImage j _ _ _ _ _ res =>
                  if decide (j = i) then Some res else None
              | _ => None
              end) tr.

(** Does classification give the commit at least one unique texture? *)
Definition hasTexture (commit : TextureCommit) : bool :=
  match RprUsdGetUDIMFormatString (filepath commit) with
  | Some formatString =>
      existsb (λ tileId, ArchFileAccess (TfStringPrintf formatString tileId))
              udimTileIds
  | None => true
  end.

(** The paths a commit with a UDIM path probes, in order. *)
Definition expectedProbes (commit : TextureCommit) : list string :=
  match RprUsdGetUDIMFormatString (filepath commit) with
  | Some formatString => TfStringPrintf formatString <$> udimTileIds
  | None => []
  end.

(** The path of the unique texture at index [k]. *)
Definition pathAt (uniq : list UniqueTextureInfo) (k : nat) : option string :=
  path <$> uniq !! k.

(** Two commits that differ at most in [numComponentsRequired]. *)
Definition sameTexture (a b : TextureCommit) : Prop :=
  filepath a = filepath b ∧ colorspace a = colorspace b ∧
  wrapType a = wrapType b.

(** The invariant tying [uniqueTexturesMapping] to [uniqueTextures]. *)
Definition consistent (st : Locals) : Prop :=
  size (uniqueTexturesMapping st) = length (uniqueTextures st) ∧
  ∀ p k, uniqueTexturesMapping st !! p = Some k ↔
         path <$> uniqueTextures st !! k = Some p.

(** What classification gives a commit: for a UDIM path the existing tile
    paths in probing order, otherwise the literal path. *)
Definition classified (cm : TextureCommit) (uniq : list UniqueTextureInfo)
           (idxs : list nat) : Prop :=
  match RprUsdGetUDIMFormatString (filepath cm) with
  | Some formatString =>
      pathAt uniq <$> idxs =
      Some <$> filter (λ p, ArchFileAccess p)
                      (TfStringPrintf formatString <$> udimTileIds)
  | None => ∃ k, idxs = [k] ∧ pathAt uniq k = Some (filepath cm)
  end.

(** ** The claims as the specification words them

    Each is refuted below at a concrete batch; the theorems that follow
    state what holds instead. *)

(** Every queued commit has its callback invoked exactly once. *)
Definition everyCallbackOnce (commits : list TextureCommit)
           (c : ImageCache) : Prop :=
  ∀ j cm, commits !! j = Some cm →
          length (callbacksFor j (CommitResources commits c).2) = 1.

(** Every commit with a UDIM path has the tiles that exist in its
    vector. *)
Definition udimTilesCollected (commits : list TextureCommit)
           (c : ImageCache) : Prop :=
  ∀ i cm formatString,
    commits !! i = Some cm →
    RprUsdGetUDIMFormatString (filepath cm) = Some formatString →
    ∃ idxs, (phase1 commits c).1.1 !! i = Some idxs ∧
            pathAt (uniqueTextures (phase1 commits c).1.2) <$> idxs =
            Some <$> filter (λ p, ArchFileAccess p)
                            (TfStringPrintf formatString <$> udimTileIds).

(** Two commits with the same path make exactly one unique texture, loaded
    exactly once. *)
Definition oneEntryPerSharedPath (commits : list TextureCommit)
           (c : ImageCache) : Prop :=
  ∀ i j ci cj,
    i ≠ j → commits !! i = Some ci → commits !! j = Some cj →
    filepath ci = filepath cj →
    length (filter (λ u, path u = filepath ci)
                   (uniqueTextures (phase1 commits c).1.2)) = 1 ∧
    length (filter (λ p, p = filepath ci) (loadsOf (phase2 commits c).2)) = 1.

(** ** Further readings of the trace *)

(** The commits whose callback was invoked, in the order of the calls. *)
Definition callbackOrder (tr : list Event) : list nat :=
  omap (λ ev, match ev with EvCallback i _ => Some i | _ => None end) tr.

(** The paths reported as failed to load, in order. *)
Definition failuresOf (tr : list Event) : list string :=
  omap (λ ev, match ev with EvLoadFailed p => Some p | _ => None end) tr.

(** What the [GetImage] calls returned, in order. *)
Definition resultsOf (tr : list Event) : list (option Image) :=
  omap (λ ev, match ev with
              | EvGetImage _ _ _ _ _ _ res => Some res
              | _ => None
              end) tr.

(** The tiles given to the [GetImage] calls for commit [i]. *)
Definition tilesFor (i : nat) (tr : list Event) : list (list UDIMTile) :=
  omap (λ ev, match ev with
              | EvGetImage j _ _ _ tiles _ _ =>
                  if decide (j = i) then Some tiles else None
              | _ => None
              end) tr.

(** The calls [calls] made one after the other on the cache [c]: what
    they return and the cache they leave. *)
Fixpoint replay (c : ImageCache)
         (calls : list (nat * string * ColorSpace * WrapType
                        * list UDIMTile * nat))
  : list (option Image) * ImageCache :=
  match calls with
  | [] => ([], c)
  | a :: rest =>
      let '(img, c1) :=
        GetImage c a.1.1.1.1.2 a.1.1.1.2 a.1.1.2 a.1.2 a.2 in
      let '(imgs, c2) := replay c1 rest in
      (img :: imgs, c2)
  end.

(** The paths classification gives a commit: the tile paths that exist,
    in probing order, or the path itself. *)
Definition texturePaths (cm : TextureCommit) : list string :=
  match RprUsdGetUDIMFormatString (filepath cm) with
  | Some formatString =>
      filter (λ p, ArchFileAccess p)
             (TfStringPrintf formatString <$> udimTileIds)
  | None => [filepath cm]
  end.

(** Is commit [j] served in phase 3: its lookup missed (in the phase-1
    trace [tr1]) and classification gave it a texture. *)
Definition loadedLater (commits : list TextureCommit) (tr1 : list Event)
           (j : nat) : bool :=
  negb (lookupHit j tr1) &&
  match commits !! j with Some cm => hasTexture cm | None => false end.

(** A unique texture as commit [cm] registers it: a tile of its UDIM
    path that exists, with the tile's id, or its literal path with the
    default id 0. *)
Definition registeredFor (cm : TextureCommit) (u : UniqueTextureInfo)
  : Prop :=
  match RprUsdGetUDIMFormatString (filepath cm) with
  | Some formatString =>
      (kStartTile ≤ udimTileId u ≤ kEndTile) ∧
      path u = TfStringPrintf formatString (udimTileId u) ∧
      ArchFileAccess (path u) = true
  | None => udimTileId u = 0 ∧ path u = filepath cm
  end.

(** The tile made of a unique texture, if its file can be read. *)
Definition tileOf (u : UniqueTextureInfo) : option UDIMTile :=
  mkTile (udimTileId u) <$> TextureDataNew (path u).

(** The events of phase 1 (lookups, callbacks, probes) and those of
    phase 3 (lookups and callbacks). *)
Definition phase1Event (ev : Event) : Prop :=
  match ev with EvLoad _ | EvLoadFailed _ => False | _ => True end.

Definition cacheEvent (ev : Event) : Prop :=
  match ev with
  | EvGetImage _ _ _ _ _ _ _ | EvCallback _ _ => True
  | _ => False
  end.

(** A [GetImage] call without its tiles, and the call that phase 3
    makes for commit [j], without its tiles. *)
Definition withoutTiles
  (a : nat * string * ColorSpace * WrapType * list UDIMTile * nat)
  : nat * string * ColorSpace * WrapType * nat :=
  (a.1.1.1.1.1, a.1.1.1.1.2, a.1.1.1.2, a.1.1.2, a.2).

Definition ownCall (j : nat) (cm : TextureCommit)
  : nat * string * ColorSpace * WrapType * nat :=
  (j, filepath cm, colorspace cm, wrapType cm, numComponentsRequired cm).

(** ** Lemmas on the trace projections *)

Lemma callbacksFor_app i (a b : list Event) :
  callbacksFor i (a ++ b) = callbacksFor i a ++ callbacksFor i b.
Proof. apply omap_app. Qed.

Lemma lookupsOf_app (a b : list Event) :
  lookupsOf (a ++ b) = lookupsOf a ++ lookupsOf b.
Proof. apply omap_app. Qed.

Lemma probesOf_app (a b : list Event) :
  probesOf (a ++ b) = probesOf a ++ probesOf b.
Proof. apply omap_app. Qed.

Lemma loadsOf_app (a b : list Event) :
  loadsOf (a ++ b) = loadsOf a ++ loadsOf b.
Proof. apply omap_app. Qed.

Lemma hitImages_app i (a b : list Event) :
  hitImages i (a ++ b) = hitImages i a ++ hitImages i b.
Proof. apply omap_app. Qed.

(** Probing performs file accesses only. *)
Lemma probeTiles_only_probes fmt ts st :
  Forall (λ ev, ∃ p b, ev = EvFileAccess p b) (probeTiles fmt ts st).2.
Proof.
  revert st. induction ts as [|t ts IH]; intros st; simpl; [constructor|].
  destruct (ArchFileAccess _).
  - destruct (getUniqueTextureIndex _ _ _) as [k st1].
    specialize (IH st1). destruct (probeTiles _ _ st1) as [[ks st2] evs].
    simpl in *. constructor; eauto.
  - specialize (IH st). destruct (probeTiles _ _ st) as [[ks st2] evs].
    simpl in *. constructor; eauto.
Qed.

Lemma collectCommit_only_probes cm st :
  Forall (λ ev, ∃ p b, ev = EvFileAccess p b) (collectCommit cm st).2.
Proof.
  unfold collectCommit. destruct (RprUsdGetUDIMFormatString _).
  - apply probeTiles_only_probes.
  - destruct (getUniqueTextureIndex _ _ _). constructor.
Qed.

Lemma only_probes_callbacks i (tr : list Event) :
  Forall (λ ev, ∃ p b, ev = EvFileAccess p b) tr → callbacksFor i tr = [].
Proof.
  induction 1 as [|ev tr (p & b & ->) _ IH]; [done|]. exact IH.
Qed.

Lemma only_probes_lookups (tr : list Event) :
  Forall (λ ev, ∃ p b, ev = EvFileAccess p b) tr → lookupsOf tr = [].
Proof.
  induction 1 as [|ev tr (p & b & ->) _ IH]; [done|]. exact IH.
Qed.

Lemma only_probes_hit i (tr : list Event) :
  Forall (λ ev, ∃ p b, ev = EvFileAccess p b) tr → hitImages i tr = [].
Proof.
  induction 1 as [|ev tr (p & b & ->) _ IH]; [done|]. exact IH.
Qed.

(** ** Phase 1 *)

(** Every commit gets exactly one lookup, with no tiles and a component
    count of zero. *)
Lemma collect_lookups commits i st :
  lookupsOf (collect i commits st).2 =
  imap (λ j cm, (i + j, filepath cm, colorspace cm, wrapType cm, [], 0))
       commits.
Proof.
  revert i st. induction commits as [|cm rest IH]; intros i st; [done|].
  simpl. destruct (GetImage _ _ _ _ _ _) as [[img|] cache1].
  - specialize (IH (S i) (mkLocals cache1 (uniqueTextures st)
                                   (uniqueTexturesMapping st))).
    destruct (collect _ _ _) as [[per st2] evs]. simpl in *.
    rewrite IH. f_equal; [by rewrite Nat.add_0_r|].
    apply imap_ext. intros j x _. simpl. do 5 f_equal. lia.
  - pose proof (collectCommit_only_probes cm
        (mkLocals cache1 (uniqueTextures st) (uniqueTexturesMapping st)))
      as Hp.
    destruct (collectCommit _ _) as [[idx st2] probes].
    specialize (IH (S i) st2).
    destruct (collect _ _ _) as [[per st3] evs]. simpl in *.
    rewrite lookupsOf_app, (only_probes_lookups _ Hp), IH. simpl.
    f_equal; [by rewrite Nat.add_0_r|].
    apply imap_ext. intros j x _. simpl. do 5 f_equal. lia.
Qed.

Lemma collectCommit_sameTexture a b st :
  sameTexture a b → collectCommit a st = collectCommit b st.
Proof. intros (Hp & _ & _). unfold collectCommit. by rewrite Hp. Qed.

(** Phase 1 does not read [numComponentsRequired]. *)
Lemma collect_sameTexture commits commits' i st :
  Forall2 sameTexture commits commits' →
  collect i commits st = collect i commits' st.
Proof.
  intros H. revert i st.
  induction H as [|a b l l' Hab _ IH]; intros i st; [done|].
  pose proof (λ s, collectCommit_sameTexture a b s Hab) as Hcc.
  destruct Hab as (Hp & Hc & Hw). cbn [collect]. rewrite Hp, Hc, Hw.
  destruct (GetImage _ _ _ _ _ _) as [[img|] cache1].
  - by rewrite IH.
  - rewrite Hcc. destruct (collectCommit _ _) as [[idx st2] probes].
    by rewrite IH.
Qed.

(** In phase 1 the callback of a commit receives exactly what its lookup
    returned. *)
Lemma collect_callbacks commits i st j :
  callbacksFor j (collect i commits st).2 =
  Some <$> hitImages j (collect i commits st).2.
Proof.
  revert i st. induction commits as [|cm rest IH]; intros i st; [done|].
  simpl. destruct (GetImage _ _ _ _ _ _) as [[img|] cache1].
  - specialize (IH (S i) (mkLocals cache1 (uniqueTextures st)
                                   (uniqueTexturesMapping st))).
    destruct (collect _ _ _) as [[per st2] evs]. simpl in *.
    destruct (decide (i = j)); simpl; by rewrite IH.
  - pose proof (collectCommit_only_probes cm
        (mkLocals cache1 (uniqueTextures st) (uniqueTexturesMapping st)))
      as Hp.
    destruct (collectCommit _ _) as [[idx st2] probes].
    specialize (IH (S i) st2).
    destruct (collect _ _ _) as [[per st3] evs]. simpl in *.
    by rewrite callbacksFor_app, hitImages_app, (only_probes_callbacks _ _ Hp),
      (only_probes_hit _ _ Hp), IH.
Qed.

(** Lookups are made for the indices from [i] on, one each. *)
Lemma collect_hits_below commits i st j :
  j < i → hitImages j (collect i commits st).2 = [].
Proof.
  revert i st. induction commits as [|cm rest IH]; intros i st Hj; [done|].
  simpl. destruct (GetImage _ _ _ _ _ _) as [[img|] cache1].
  - specialize (IH (S i) (mkLocals cache1 (uniqueTextures st)
                                   (uniqueTexturesMapping st))).
    destruct (collect _ _ _) as [[per st2] evs]. simpl in *.
    destruct (decide (i = j)); [lia|]. apply IH. lia.
  - pose proof (collectCommit_only_probes cm
        (mkLocals cache1 (uniqueTextures st) (uniqueTexturesMapping st)))
      as Hp.
    destruct (collectCommit _ _) as [[idx st2] probes].
    specialize (IH (S i) st2).
    destruct (collect _ _ _) as [[per st3] evs]. simpl in *.
    rewrite hitImages_app, (only_probes_hit _ _ Hp). apply IH. lia.
Qed.

Lemma collect_length commits i st :
  length (collect i commits st).1.1 = length commits.
Proof.
  revert i st. induction commits as [|cm rest IH]; intros i st; [done|].
  simpl. destruct (GetImage _ _ _ _ _ _) as [[img|] cache1].
  - specialize (IH (S i) (mkLocals cache1 (uniqueTextures st)
                                   (uniqueTexturesMapping st))).
    destruct (collect _ _ _) as [[per st2] evs]. simpl in *. by rewrite IH.
  - destruct (collectCommit _ _) as [[idx st2] probes].
    specialize (IH (S i) st2).
    destruct (collect _ _ _) as [[per st3] evs]. simpl in *. by rewrite IH.
Qed.

Lemma collect_hits_once commits i st j :
  length (hitImages j (collect i commits st).2) ≤ 1.
Proof.
  revert i st. induction commits as [|cm rest IH]; intros i st; [simpl; lia|].
  pose proof (collect_hits_below rest (S i)) as Hb.
  simpl. destruct (GetImage _ _ _ _ _ _) as [[img|] cache1].
  - specialize (IH (S i) (mkLocals cache1 (uniqueTextures st)
                                   (uniqueTexturesMapping st))).
    specialize (Hb (mkLocals cache1 (uniqueTextures st)
                             (uniqueTexturesMapping st)) j).
    destruct (collect _ _ _) as [[per st2] evs]. simpl in *.
    destruct (decide (i = j)); [|done].
    simpl. rewrite Hb by lia. simpl. lia.
  - pose proof (collectCommit_only_probes cm
        (mkLocals cache1 (uniqueTextures st) (uniqueTexturesMapping st)))
      as Hp.
    destruct (collectCommit _ _) as [[idx st2] probes].
    specialize (IH (S i) st2).
    destruct (collect _ _ _) as [[per st3] evs]. simpl in *.
    by rewrite hitImages_app, (only_probes_hit _ _ Hp).
Qed.

Lemma probeTiles_empty fmt ts st :
  (probeTiles fmt ts st).1.1 = [] ↔
  existsb (λ t, ArchFileAccess (TfStringPrintf fmt t)) ts = false.
Proof.
  revert st. induction ts as [|t ts IH]; intros st; simpl; [done|].
  destruct (ArchFileAccess _); simpl.
  - destruct (getUniqueTextureIndex _ _ _) as [k st1].
    destruct (probeTiles _ _ st1) as [[ks st2] evs]. simpl. split; done.
  - specialize (IH st). by destruct (probeTiles _ _ st) as [[ks st2] evs].
Qed.

Lemma collectCommit_empty cm st :
  (collectCommit cm st).1.1 = [] ↔ hasTexture cm = false.
Proof.
  unfold collectCommit, hasTexture.
  destruct (RprUsdGetUDIMFormatString _) as [fmt|].
  - apply probeTiles_empty.
  - destruct (getUniqueTextureIndex _ _ _). simpl. split; done.
Qed.

(** The vector of a commit is empty exactly when its lookup hit the cache
    or classification found no texture for it. *)
Lemma collect_per commits i st k cm :
  commits !! k = Some cm →
  ∃ idxs, (collect i commits st).1.1 !! k = Some idxs ∧
          (idxs = [] ↔
           lookupHit (i + k) (collect i commits st).2 = true ∨
           hasTexture cm = false).
Proof.
  clear workSchedule.
  revert i st k. induction commits as [|c0 rest IH]; intros i st k Hk; [done|].
  pose proof (collect_hits_below rest (S i)) as Hb.
  unfold lookupHit in *. simpl.
  destruct (GetImage _ _ _ _ _ _) as [[img|] cache1].
  - specialize (IH (S i) (mkLocals cache1 (uniqueTextures st)
                                   (uniqueTexturesMapping st))).
    destruct (collect _ _ _) as [[per st2] evs]. simpl in *.
    destruct k as [|k]; simpl in *.
    + exists []. split; [done|]. rewrite Nat.add_0_r.
      destruct (decide (i = i)); [|done]. simpl. tauto.
    + destruct (IH k Hk) as (idxs & ? & ?). exists idxs. split; [done|].
      destruct (decide (i = i + S k)); [lia|].
      by replace (i + S k) with (S (i + k)) by lia.
  - pose proof (collectCommit_only_probes c0
        (mkLocals cache1 (uniqueTextures st) (uniqueTexturesMapping st)))
      as Hp.
    pose proof (collectCommit_empty c0
        (mkLocals cache1 (uniqueTextures st) (uniqueTexturesMapping st)))
      as He.
    destruct (collectCommit _ _) as [[idx st2] probes].
    specialize (IH (S i) st2). specialize (Hb st2).
    destruct (collect _ _ _) as [[per st3] evs]. simpl in *.
    rewrite hitImages_app, (only_probes_hit _ _ Hp). simpl.
    destruct k as [|k]; simpl in *.
    + exists idx. split; [done|]. simplify_eq. rewrite Nat.add_0_r.
      rewrite Hb by lia. rewrite He. split; [auto|]. by intros [|].
    + destruct (IH k Hk) as (idxs & ? & ?). exists idxs. split; [done|].
      by replace (i + S k) with (S (i + k)) by lia.
Qed.

(** ** Deduplication *)

Lemma consistent_init c : consistent (initLocals c).
Proof.
  split; [done|]. intros p k. simpl. rewrite lookup_empty. split; done.
Qed.

Lemma consistent_inj st k1 k2 p :
  consistent st →
  pathAt (uniqueTextures st) k1 = Some p →
  pathAt (uniqueTextures st) k2 = Some p → k1 = k2.
Proof.
  intros [_ H] H1 H2. apply H in H1, H2. congruence.
Qed.

Lemma consistent_NoDup st :
  consistent st → NoDup (path <$> uniqueTextures st).
Proof.
  intros Hc. apply NoDup_alt. intros i j p Hi Hj.
  rewrite list_lookup_fmap in Hi, Hj. by eapply consistent_inj.
Qed.

(** A second request for the same path returns the same index and
    changes nothing. *)
Lemma getUniqueTextureIndex_idem p t t' st :
  getUniqueTextureIndex p t' (getUniqueTextureIndex p t st).2 =
  getUniqueTextureIndex p t st.
Proof.
  unfold getUniqueTextureIndex.
  destruct (uniqueTexturesMapping st !! p) as [k|] eqn:E; simpl.
  - by rewrite E.
  - by rewrite lookup_insert_eq.
Qed.

(** Entries are only ever appended. *)
Lemma getUniqueTextureIndex_prefix p t st :
  uniqueTextures st `prefix_of`
  uniqueTextures (getUniqueTextureIndex p t st).2.
Proof.
  unfold getUniqueTextureIndex.
  destruct (uniqueTexturesMapping st !! p); simpl; [done|].
  by apply prefix_app_r.
Qed.

Lemma getUniqueTextureIndex_spec p t st :
  consistent st →
  consistent (getUniqueTextureIndex p t st).2 ∧
  pathAt (uniqueTextures (getUniqueTextureIndex p t st).2)
         (getUniqueTextureIndex p t st).1 = Some p.
Proof.
  intros [Hsz Hc]. unfold getUniqueTextureIndex, pathAt.
  destruct (uniqueTexturesMapping st !! p) as [k|] eqn:E; simpl.
  { split; [by split|]. by apply Hc. }
  split; [split|]; simpl.
  - rewrite map_size_insert_None, length_app by done. simpl. lia.
  - intros q k. rewrite lookup_insert. case_decide as Hq.
    + subst q. split.
      * intros [= <-]. rewrite Hsz.
        rewrite lookup_app_r, Nat.sub_diag by lia. done.
      * intros Hk. f_equal. destruct (decide (k < length (uniqueTextures st))).
        -- rewrite lookup_app_l in Hk by done. apply Hc in Hk. congruence.
        -- destruct ((uniqueTextures st ++ _) !! k) as [u|] eqn:Eu; [|done].
           apply lookup_lt_Some in Eu. rewrite length_app in Eu. simpl in Eu.
           lia.
    + rewrite Hc. destruct (decide (k < length (uniqueTextures st))).
      * by rewrite lookup_app_l by done.
      * rewrite lookup_ge_None_2 by lia.
        rewrite lookup_app_r by lia.
        destruct (k - length (uniqueTextures st)) as [|m]; simpl.
        -- split; [done|]. intros [= ?]. congruence.
        -- done.
  - rewrite Hsz, lookup_app_r, Nat.sub_diag by lia. done.
Qed.

Lemma pathAt_prefix (u1 u2 : list UniqueTextureInfo) k p :
  u1 `prefix_of` u2 → pathAt u1 k = Some p → pathAt u2 k = Some p.
Proof.
  unfold pathAt. intros Hpre H.
  destruct (u1 !! k) as [u|] eqn:E; [|done].
  by rewrite (prefix_lookup_Some _ _ _ _ E Hpre).
Qed.

(** Probing: every tile id is probed, in order; the indices collected are
    those of the tile paths that exist, in the same order. *)
Lemma probeTiles_spec fmt ts st :
  consistent st →
  consistent (probeTiles fmt ts st).1.2 ∧
  uniqueTextures st `prefix_of` uniqueTextures (probeTiles fmt ts st).1.2 ∧
  pathAt (uniqueTextures (probeTiles fmt ts st).1.2)
    <$> (probeTiles fmt ts st).1.1 =
  Some <$> filter (λ p, ArchFileAccess p) (TfStringPrintf fmt <$> ts) ∧
  probesOf (probeTiles fmt ts st).2 = TfStringPrintf fmt <$> ts.
Proof.
  revert st. induction ts as [|t ts IH]; intros st Hc; [done|].
  cbn [probeTiles]. rewrite fmap_cons, filter_cons.
  destruct (ArchFileAccess (TfStringPrintf fmt t)) eqn:Ea.
  - destruct (getUniqueTextureIndex_spec (TfStringPrintf fmt t) t st Hc)
      as [Hc1 Hk].
    pose proof (getUniqueTextureIndex_prefix (TfStringPrintf fmt t) t st)
      as Hpre.
    destruct (getUniqueTextureIndex _ _ _) as [k st1]. simpl in Hc1, Hk, Hpre.
    destruct (IH st1 Hc1) as (Hc2 & Hpre2 & Hks & Hev).
    destruct (probeTiles _ _ st1) as [[ks st2] evs]. simpl in *.
    split; [done|]. split; [by etrans|]. split; [|by rewrite Hev].
    f_equal; [by eapply pathAt_prefix|done].
  - destruct (IH st Hc) as (Hc2 & Hpre2 & Hks & Hev).
    destruct (probeTiles _ _ st) as [[ks st2] evs]. simpl in *.
    split; [done|]. split; [done|]. split; [done|by rewrite Hev].
Qed.

Lemma collectCommit_probes cm st :
  probesOf (collectCommit cm st).2 = expectedProbes cm.
Proof.
  unfold collectCommit, expectedProbes.
  destruct (RprUsdGetUDIMFormatString _) as [fmt|].
  - revert st. induction udimTileIds as [|t ts IH]; intros st; [done|].
    cbn [probeTiles]. destruct (ArchFileAccess _).
    + destruct (getUniqueTextureIndex _ _ _) as [k st1].
      specialize (IH st1). destruct (probeTiles _ _ st1) as [[ks st2] evs].
      simpl in *. by rewrite IH.
    + specialize (IH st). destruct (probeTiles _ _ st) as [[ks st2] evs].
      simpl in *. by rewrite IH.
  - by destruct (getUniqueTextureIndex _ _ _).
Qed.

Lemma classified_prefix cm u1 u2 idxs :
  u1 `prefix_of` u2 → classified cm u1 idxs → classified cm u2 idxs.
Proof.
  intros Hpre. unfold classified.
  destruct (RprUsdGetUDIMFormatString _) as [fmt|].
  - generalize (filter (λ p, ArchFileAccess p)
                       (TfStringPrintf fmt <$> udimTileIds)).
    induction idxs as [|k ks IH]; intros [|p ps]; simpl; try done.
    intros [= Hk Hks]. f_equal; [by eapply pathAt_prefix|by apply IH].
  - intros (k & -> & Hk). exists k. split; [done|]. by eapply pathAt_prefix.
Qed.

Lemma collectCommit_spec cm st :
  consistent st →
  consistent (collectCommit cm st).1.2 ∧
  uniqueTextures st `prefix_of` uniqueTextures (collectCommit cm st).1.2 ∧
  classified cm (uniqueTextures (collectCommit cm st).1.2)
             (collectCommit cm st).1.1.
Proof.
  intros Hc. unfold collectCommit, classified.
  destruct (RprUsdGetUDIMFormatString _) as [fmt|].
  - destruct (probeTiles_spec fmt udimTileIds st Hc) as (? & ? & ? & _).
    done.
  - destruct (getUniqueTextureIndex_spec (filepath cm) 0 st Hc) as [Hc1 Hk].
    pose proof (getUniqueTextureIndex_prefix (filepath cm) 0 st) as Hpre.
    destruct (getUniqueTextureIndex _ _ _) as [k st1]. simpl in *.
    split; [done|]. split; [done|]. by exists k.
Qed.

Lemma consistent_cache st c1 :
  consistent st →
  consistent (mkLocals c1 (uniqueTextures st) (uniqueTexturesMapping st)).
Proof. done. Qed.

(** Phase 1 keeps the two containers consistent, only appends, and gives
    every commit that missed the cache its classification. *)
Lemma collect_spec commits i st :
  consistent st →
  consistent (collect i commits st).1.2 ∧
  uniqueTextures st `prefix_of` uniqueTextures (collect i commits st).1.2 ∧
  ∀ k cm, commits !! k = Some cm →
          lookupHit (i + k) (collect i commits st).2 = false →
          ∃ idxs, (collect i commits st).1.1 !! k = Some idxs ∧
                  classified cm (uniqueTextures (collect i commits st).1.2)
                             idxs.
Proof.
  revert i st. induction commits as [|c0 rest IH]; intros i st Hc.
  { done. }
  unfold lookupHit. cbn [collect].
  destruct (GetImage _ _ _ _ _ _) as [[img|] cache1].
  - destruct (IH (S i) _ (consistent_cache st cache1 Hc)) as (Hc2 & Hpre & Hper).
    unfold lookupHit in Hper.
    destruct (collect _ _ _) as [[per st2] evs]. simpl in *.
    split; [done|]. split; [done|]. intros [|k] cm Hk; simpl in *.
    + rewrite Nat.add_0_r. by destruct (decide (i = i)).
    + destruct (decide (i = i + S k)); [lia|].
      replace (i + S k) with (S (i + k)) by lia. by apply Hper.
  - pose proof (collectCommit_only_probes c0
        (mkLocals cache1 (uniqueTextures st) (uniqueTexturesMapping st)))
      as Hp.
    destruct (collectCommit_spec c0 _ (consistent_cache st cache1 Hc))
      as (Hc1 & Hpre1 & Hcl).
    destruct (collectCommit _ _) as [[idx st1] probes]. simpl in *.
    destruct (IH (S i) _ Hc1) as (Hc2 & Hpre & Hper).
    unfold lookupHit in Hper.
    destruct (collect _ _ _) as [[per st2] evs]. simpl in *.
    split; [done|]. split; [by etrans|]. intros [|k] cm Hk; simpl in *.
    + intros _. simplify_eq. exists idx. split; [done|].
      by eapply classified_prefix.
    + rewrite hitImages_app, (only_probes_hit _ _ Hp). simpl.
      replace (i + S k) with (S (i + k)) by lia. by apply Hper.
Qed.

(** The probes of phase 1: for every commit that missed the cache and has
    a UDIM path, its hundred tile paths; nothing else. *)
Lemma collect_probes commits i st :
  probesOf (collect i commits st).2 =
  concat (imap (λ j cm, if lookupHit (i + j) (collect i commits st).2
                        then [] else expectedProbes cm) commits).
Proof.
  revert i st. induction commits as [|c0 rest IH]; intros i st; [done|].
  pose proof (collect_hits_below rest (S i)) as Hb.
  unfold lookupHit in *. cbn [collect].
  destruct (GetImage _ _ _ _ _ _) as [[img|] cache1].
  - specialize (IH (S i) (mkLocals cache1 (uniqueTextures st)
                                   (uniqueTexturesMapping st))).
    destruct (collect _ _ _) as [[per st2] evs]. simpl in *.
    rewrite Nat.add_0_r. destruct (decide (i = i)); [|done]. simpl.
    rewrite IH. f_equal. apply imap_ext. intros j x _. simpl.
    destruct (decide (i = i + S j)); [lia|].
    by replace (i + S j) with (S (i + j)) by lia.
  - pose proof (collectCommit_only_probes c0
        (mkLocals cache1 (uniqueTextures st) (uniqueTexturesMapping st)))
      as Hp.
    pose proof (collectCommit_probes c0
        (mkLocals cache1 (uniqueTextures st) (uniqueTexturesMapping st)))
      as Hpr.
    destruct (collectCommit _ _) as [[idx st1] probes]. simpl in *.
    specialize (IH (S i) st1). specialize (Hb st1).
    destruct (collect _ _ _) as [[per st2] evs]. simpl in *.
    rewrite probesOf_app, Hpr, IH.
    rewrite hitImages_app, (only_probes_hit _ _ Hp). simpl.
    rewrite Nat.add_0_r, Hb by lia. f_equal. f_equal.
    apply imap_ext. intros j x _. simpl.
    rewrite hitImages_app, (only_probes_hit _ _ Hp). simpl.
    by replace (i + S j) with (S (i + j)) by lia.
Qed.

(** ** Phases 2 and 3 *)

(** An interleaving has the steps of the slots, each once, and keeps the
    order of the steps of every slot. *)
Lemma interleave_Permutation {A : Type} (schedule : list nat)
      (slots : list (list A)) :
  interleave schedule slots ≡ₚ concat slots.
Proof.
  revert slots. induction schedule as [|k rest IH]; intros slots; [done|].
  cbn [interleave].
  destruct (slots !! k) as [[|step later]|] eqn:Hk; try apply IH.
  rewrite IH. rewrite <-(take_drop_middle slots k (step :: later) Hk) at 2.
  rewrite insert_take_drop by (by eapply lookup_lt_Some).
  rewrite !concat_app. cbn [concat]. rewrite <-app_comm_cons.
  by rewrite <-Permutation_middle.
Qed.

Lemma interleave_sublist {A : Type} (schedule : list nat)
      (slots : list (list A)) k slot :
  slots !! k = Some slot → slot `sublist_of` interleave schedule slots.
Proof.
  revert slots slot.
  induction schedule as [|j rest IH]; intros slots slot Hk; cbn [interleave].
  - rewrite <-(take_drop_middle slots k slot Hk), concat_app. cbn [concat].
    by apply sublist_inserts_l, sublist_inserts_r.
  - destruct (slots !! j) as [[|step later]|] eqn:Hj; try by apply IH.
    destruct (decide (j = k)) as [->|Hne].
    + rewrite Hk in Hj. injection Hj as ->. apply sublist_skip, IH.
      apply list_lookup_insert_eq. by eapply lookup_lt_Some.
    + apply sublist_cons, IH. by rewrite list_lookup_insert_ne.
Qed.

Lemma loadTextures_only_loads st :
  Forall (λ ev, ∃ p, ev = EvLoad p ∨ ev = EvLoadFailed p) (loadTextures st).2.
Proof.
  unfold loadTextures. simpl. rewrite interleave_Permutation.
  apply Forall_concat, Forall_fmap, Forall_forall.
  intros u _. unfold loadEvents. simpl.
  destruct (TextureDataNew _); repeat constructor; eauto.
Qed.

Lemma only_loads_callbacks i (tr : list Event) :
  Forall (λ ev, ∃ p, ev = EvLoad p ∨ ev = EvLoadFailed p) tr →
  callbacksFor i tr = [].
Proof.
  induction 1 as [|ev tr (p & [-> | ->]) _ IH]; [done|exact IH|exact IH].
Qed.

Lemma only_loads_lookups (tr : list Event) :
  Forall (λ ev, ∃ p, ev = EvLoad p ∨ ev = EvLoadFailed p) tr →
  lookupsOf tr = [].
Proof.
  induction 1 as [|ev tr (p & [-> | ->]) _ IH]; [done|exact IH|exact IH].
Qed.

(** Each load is of one unique texture, each unique texture is loaded
    once. *)
Lemma loadEvents_loads (us : list UniqueTextureInfo) :
  loadsOf (concat (loadEvents <$> us)) = path <$> us.
Proof.
  induction us as [|u us IH]; [done|].
  rewrite !fmap_cons. cbn [concat]. rewrite loadsOf_app, IH.
  unfold loadEvents. by destruct (TextureDataNew _).
Qed.

Lemma loadTextures_loads st :
  loadsOf (loadTextures st).2 ≡ₚ path <$> uniqueTextures st.
Proof.
  unfold loadTextures, loadsOf. cbn [snd].
  rewrite interleave_Permutation. apply reflexive_eq, loadEvents_loads.
Qed.

(** Without unique textures there is nothing to read. *)
Lemma loadTextures_nothing st :
  uniqueTextures st = [] → (loadTextures st).2 = [].
Proof.
  intros Hu. unfold loadTextures. cbn [snd]. rewrite Hu.
  apply Permutation_nil_r. by rewrite interleave_Permutation.
Qed.

(** In phase 3 the callback of a commit receives what its [GetImage] call
    returned. *)
Lemma materialize_callbacks commits per i st j :
  callbacksFor j (materialize i commits per st).2 =
  resultsFor j (materialize i commits per st).2.
Proof.
  revert per i st. induction commits as [|cm rest IH]; intros per i st; [done|].
  destruct per as [|[|k ks] per]; simpl; [done|apply IH|].
  destruct (GetImage _ _ _ _ _ _) as [img cache1].
  specialize (IH per (S i) (mkLocals cache1 (uniqueTextures st)
                                     (uniqueTexturesMapping st))).
  destruct (materialize _ _ _ _) as [st2 evs]. simpl in *.
  destruct (decide (i = j)); simpl; by rewrite IH.
Qed.

(** Phase 3 calls back once for every commit with a non-empty vector. *)
Lemma materialize_count commits per i st j :
  length (callbacksFor j (materialize i commits per st).2) =
  if decide (i ≤ j) then
    match commits !! (j - i), per !! (j - i) with
    | Some _, Some (_ :: _) => 1
    | _, _ => 0
    end
  else 0.
Proof.
  revert per i st. induction commits as [|cm rest IH]; intros per i st.
  { simpl. by destruct (decide _). }
  destruct per as [|[|k ks] per]; cbn [materialize].
  - rewrite lookup_nil. destruct (decide _); [|done]. by destruct (_ !! _).
  - rewrite IH. destruct (decide (S i ≤ j)), (decide (i ≤ j)); try lia.
    + by replace (j - i) with (S (j - S i)) by lia.
    + by replace (j - i) with 0 by lia.
  - destruct (GetImage _ _ _ _ _ _) as [img cache1].
    specialize (IH per (S i) (mkLocals cache1 (uniqueTextures st)
                                       (uniqueTexturesMapping st))).
    destruct (materialize _ _ _ _) as [st2 evs].
    cbn [snd callbacksFor omap list_omap] in *.
    destruct (decide (i = j)) as [->|]; cbn [length].
    + rewrite IH. destruct (decide (S j ≤ j)), (decide (j ≤ j)); try lia.
      by rewrite Nat.sub_diag.
    + rewrite IH. destruct (decide (S i ≤ j)), (decide (i ≤ j)); try lia.
      by replace (j - i) with (S (j - S i)) by lia.
Qed.

(** ** The run as a whole *)

Lemma CommitResources_unfold commits c :
  CommitResources commits c =
  ([], cache (phase3 commits c).1, runTrace commits c).
Proof.
  destruct commits; [|done]. unfold CommitResources, runTrace, phase2.
  by rewrite loadTextures_nothing.
Qed.

Lemma phase1_consistent commits c : consistent (phase1 commits c).1.2.
Proof.
  unfold phase1.
  by destruct (collect_spec commits 0 _ (consistent_init c)) as (? & _).
Qed.

Lemma hits_length commits c j :
  length (hitImages j (phase1 commits c).2) =
  if lookupHit j (phase1 commits c).2 then 1 else 0.
Proof.
  unfold lookupHit, phase1.
  pose proof (collect_hits_once commits 0 (initLocals c) j) as H.
  destruct (hitImages _ _) as [|x [|y l]]; simpl in *; lia.
Qed.

Lemma filter_eq_absent (l : list string) (x : string) :
  x ∉ l → filter (λ y, y = x) l = [].
Proof.
  induction l as [|y l IH]; [done|]. intros Hx.
  rewrite filter_cons, decide_False by set_solver. apply IH. set_solver.
Qed.

Lemma filter_eq_NoDup (l : list string) (x : string) :
  NoDup l → x ∈ l → length (filter (λ y, y = x) l) = 1.
Proof.
  induction 1 as [|y l Hy Hnd IH]; [by intros ?%elem_of_nil|].
  rewrite filter_cons. intros [->|Hx]%elem_of_cons.
  - rewrite decide_True by done. simpl. by rewrite filter_eq_absent.
  - rewrite decide_False; [by apply IH|]. intros ->. done.
Qed.

(** C4, as the code has it: the queue is empty after the run; the
    callback of a commit is invoked in phase 1 with the image its lookup
    found and in phase 3 with whatever [GetImage] returned, null included;
    that is once in all when the lookup hit or classification gave the
    commit a texture, and not at all otherwise (a UDIM path none of whose
    tiles exists, looked up without a hit). *)
Theorem CommitResources_callbacks commits c j cm :
  commits !! j = Some cm →
  (CommitResources commits c).1.1 = [] ∧
  callbacksFor j (CommitResources commits c).2 =
    (Some <$> hitImages j (phase1 commits c).2) ++
    resultsFor j (phase3 commits c).2 ∧
  length (callbacksFor j (CommitResources commits c).2) =
    if lookupHit j (phase1 commits c).2 || hasTexture cm then 1 else 0.
Proof.
  intros Hj. rewrite CommitResources_unfold. cbn [fst snd].
  split; [done|]. unfold runTrace.
  rewrite !callbacksFor_app.
  assert (callbacksFor j (phase2 commits c).2 = []) as ->
    by apply only_loads_callbacks, loadTextures_only_loads.
  assert (callbacksFor j (phase1 commits c).2 =
          Some <$> hitImages j (phase1 commits c).2) as ->
    by apply collect_callbacks.
  assert (callbacksFor j (phase3 commits c).2 =
          resultsFor j (phase3 commits c).2) as Hcb
    by apply materialize_callbacks.
  rewrite Hcb. split; [done|]. rewrite <-Hcb.
  rewrite app_nil_l, length_app, length_fmap, hits_length.
  unfold phase3. rewrite materialize_count.
  rewrite decide_True by lia. rewrite Nat.sub_0_r, Hj.
  destruct (collect_per commits 0 (initLocals c) j cm Hj) as (idxs & Hx & Hi).
  fold (phase1 commits c) in Hi, Hx. rewrite Hx. simpl in Hi.
  destruct (lookupHit j _), (hasTexture cm), idxs; simpl; try done;
    exfalso; intuition congruence.
Qed.

(** ** Further properties of the run *)

Lemma omap_Forall_None {A B : Type} (f : A → option B) (P : A → Prop)
      (l : list A) :
  (∀ x, P x → f x = None) → Forall P l → omap f l = [].
Proof.
  intros Hf. induction 1 as [|x l Hx _ IH]; [done|].
  simpl. rewrite (Hf x Hx). exact IH.
Qed.

Lemma filter_ext_in {A : Type} (P Q : A → Prop) `{∀ x, Decision (P x)}
      `{∀ x, Decision (Q x)} (l : list A) :
  Forall (λ x, P x ↔ Q x) l → filter P l = filter Q l.
Proof.
  induction 1 as [|x l Hx _ IH]; [done|].
  rewrite !filter_cons, IH.
  destruct (decide (P x)), (decide (Q x)); tauto.
Qed.

Lemma callbackOrder_app (a b : list Event) :
  callbackOrder (a ++ b) = callbackOrder a ++ callbackOrder b.
Proof. apply omap_app. Qed.

Lemma failuresOf_app (a b : list Event) :
  failuresOf (a ++ b) = failuresOf a ++ failuresOf b.
Proof. apply omap_app. Qed.

Lemma resultsOf_app (a b : list Event) :
  resultsOf (a ++ b) = resultsOf a ++ resultsOf b.
Proof. apply omap_app. Qed.

Lemma tilesFor_app i (a b : list Event) :
  tilesFor i (a ++ b) = tilesFor i a ++ tilesFor i b.
Proof. apply omap_app. Qed.

Lemma only_probes_phase1 (tr : list Event) :
  Forall (λ ev, ∃ p b, ev = EvFileAccess p b) tr → Forall phase1Event tr.
Proof.
  intros H. eapply Forall_impl; [exact H|]. by intros ev (p & b & ->).
Qed.

Lemma collect_events commits i st : Forall phase1Event (collect i commits st).2.
Proof.
  revert i st. induction commits as [|cm rest IH]; intros i st; [constructor|].
  simpl. destruct (GetImage _ _ _ _ _ _) as [[img|] cache1].
  - specialize (IH (S i) (mkLocals cache1 (uniqueTextures st)
                                   (uniqueTexturesMapping st))).
    destruct (collect _ _ _) as [[per st2] evs]. simpl in *.
    by repeat constructor.
  - pose proof (collectCommit_only_probes cm
        (mkLocals cache1 (uniqueTextures st) (uniqueTexturesMapping st)))
      as Hp.
    destruct (collectCommit _ _) as [[idx st2] probes].
    specialize (IH (S i) st2).
    destruct (collect _ _ _) as [[per st3] evs]. simpl in *.
    constructor; [done|]. apply Forall_app. split; [|done].
    by apply only_probes_phase1.
Qed.

Lemma materialize_events commits per i st :
  Forall cacheEvent (materialize i commits per st).2.
Proof.
  revert per i st. induction commits as [|cm rest IH]; intros per i st.
  { constructor. }
  destruct per as [|[|k ks] per]; cbn [materialize].
  - constructor.
  - apply IH.
  - destruct (GetImage _ _ _ _ _ _) as [img cache1].
    specialize (IH per (S i) (mkLocals cache1 (uniqueTextures st)
                                       (uniqueTexturesMapping st))).
    destruct (materialize _ _ _ _) as [st2 evs]. simpl in *.
    by repeat constructor.
Qed.

(** What each phase leaves out of the trace. *)
Lemma phase1_no_loads (tr : list Event) :
  Forall phase1Event tr → loadsOf tr = [] ∧ failuresOf tr = [].
Proof.
  intros H. split; (eapply omap_Forall_None; [|exact H]); by intros [].
Qed.

Lemma cache_events_only (tr : list Event) :
  Forall cacheEvent tr →
  loadsOf tr = [] ∧ failuresOf tr = [] ∧ probesOf tr = [].
Proof.
  intros H. repeat split; (eapply omap_Forall_None; [|exact H]); by intros [].
Qed.

Lemma only_loads_silent (tr : list Event) :
  Forall (λ ev, ∃ p, ev = EvLoad p ∨ ev = EvLoadFailed p) tr →
  probesOf tr = [] ∧ callbackOrder tr = [] ∧ resultsOf tr = [] ∧
  ∀ i, tilesFor i tr = [].
Proof.
  intros H. repeat split; try intros i;
    (eapply omap_Forall_None; [|exact H]); by intros ev (p & [-> | ->]).
Qed.

Lemma only_probes_silent (tr : list Event) :
  Forall (λ ev, ∃ p b, ev = EvFileAccess p b) tr →
  callbackOrder tr = [] ∧ resultsOf tr = [].
Proof.
  intros H. repeat split;
    (eapply omap_Forall_None; [|exact H]); by intros ev (p & b & ->).
Qed.

(** *** The image cache *)

Lemma probeTiles_cache fmt ts st :
  cache (probeTiles fmt ts st).1.2 = cache st.
Proof.
  revert st. induction ts as [|t ts IH]; intros st; simpl; [done|].
  destruct (ArchFileAccess _).
  - pose proof (IH (getUniqueTextureIndex (TfStringPrintf fmt t) t st).2) as H.
    unfold getUniqueTextureIndex in *.
    destruct (uniqueTexturesMapping st !! _); simpl in *;
      destruct (probeTiles _ _ _) as [[ks st2] evs]; by simpl in *.
  - specialize (IH st). by destruct (probeTiles _ _ st) as [[ks st2] evs].
Qed.

Lemma collectCommit_cache cm st : cache (collectCommit cm st).1.2 = cache st.
Proof.
  unfold collectCommit. destruct (RprUsdGetUDIMFormatString _) as [fmt|].
  - apply probeTiles_cache.
  - unfold getUniqueTextureIndex. by destruct (_ !! _).
Qed.

Lemma replay_app c a b :
  replay c (a ++ b) =
  ((replay c a).1 ++ (replay (replay c a).2 b).1,
   (replay (replay c a).2 b).2).
Proof.
  revert c. induction a as [|x a IH]; intros c; simpl.
  { by destruct (replay c b). }
  destruct (GetImage _ _ _ _ _ _) as [img c1]. rewrite IH.
  by destruct (replay c1 a) as [r c2].
Qed.

Lemma collect_replay commits i st :
  replay (cache st) (lookupsOf (collect i commits st).2) =
  (resultsOf (collect i commits st).2, cache (collect i commits st).1.2).
Proof.
  revert i st. induction commits as [|cm rest IH]; intros i st; [done|].
  cbn [collect].
  destruct (GetImage _ _ _ _ _ _) as [[img|] cache1] eqn:Eg.
  - specialize (IH (S i) (mkLocals cache1 (uniqueTextures st)
                                   (uniqueTexturesMapping st))).
    destruct (collect _ _ _) as [[per st2] evs]. simpl in *.
    by rewrite Eg, IH.
  - pose proof (collectCommit_only_probes cm
        (mkLocals cache1 (uniqueTextures st) (uniqueTexturesMapping st)))
      as Hp.
    pose proof (collectCommit_cache cm
        (mkLocals cache1 (uniqueTextures st) (uniqueTexturesMapping st)))
      as Hc.
    destruct (collectCommit _ _) as [[idx st2] probes].
    specialize (IH (S i) st2).
    destruct (collect _ _ _) as [[per st3] evs]. simpl in *.
    rewrite Eg, lookupsOf_app, resultsOf_app, (only_probes_lookups _ Hp).
    destruct (only_probes_silent _ Hp) as [_ ->]. simpl.
    by rewrite <-Hc, IH.
Qed.

Lemma materialize_replay commits per i st :
  replay (cache st) (lookupsOf (materialize i commits per st).2) =
  (resultsOf (materialize i commits per st).2,
   cache (materialize i commits per st).1).
Proof.
  revert per i st. induction commits as [|cm rest IH]; intros per i st.
  { done. }
  destruct per as [|[|k ks] per]; cbn [materialize]; [done|apply IH|].
  destruct (GetImage _ _ _ _ _ _) as [img cache1] eqn:Eg.
  specialize (IH per (S i) (mkLocals cache1 (uniqueTextures st)
                                     (uniqueTexturesMapping st))).
  destruct (materialize _ _ _ _) as [st2 evs]. simpl in *.
  by rewrite Eg, IH.
Qed.

(** X1.  The image cache is used by the [GetImage] calls only, one after the
    other in the order of the trace: making the recorded calls again on
    the cache the run started from returns what the run recorded and
    leaves the cache the run left. *)
Theorem image_cache_threaded commits c :
  replay c (lookupsOf (CommitResources commits c).2) =
  (resultsOf (CommitResources commits c).2, (CommitResources commits c).1.2).
Proof.
  rewrite CommitResources_unfold. cbn [fst snd]. unfold runTrace.
  rewrite !lookupsOf_app, !resultsOf_app.
  pose proof (loadTextures_only_loads (phase1 commits c).1.2) as Hl.
  fold (phase2 commits c) in Hl.
  rewrite (only_loads_lookups _ Hl).
  destruct (only_loads_silent _ Hl) as (_ & _ & -> & _).
  rewrite !app_nil_l, replay_app.
  pose proof (collect_replay commits 0 (initLocals c)) as H1.
  fold (phase1 commits c) in H1. simpl in H1. rewrite H1. cbn [fst snd].
  pose proof (materialize_replay commits (phase1 commits c).1.1 0
                (phase2 commits c).1) as H3.
  fold (phase3 commits c) in H3.
  assert (cache (phase2 commits c).1 = cache (phase1 commits c).1.2) as Hc
    by done.
  rewrite Hc in H3. by rewrite H3.
Qed.

(** *** The order of the callbacks *)

Lemma concat_imap_filter {A : Type} (h : nat → A → bool) (l : list A) i :
  concat (imap (λ j x, if h j x then [i + j] else []) l) =
  filter (λ j, Is_true match l !! (j - i) with
                       | Some x => h (j - i) x
                       | None => false
                       end) (seq i (length l)).
Proof.
  revert h i. induction l as [|x l IH]; intros h i; [done|].
  rewrite imap_cons. cbn [concat length seq]. rewrite filter_cons.
  rewrite Nat.sub_diag, Nat.add_0_r. cbn [lookup list_lookup].
  assert (concat (imap ((λ j x, if h j x then [i + j] else []) ∘ S) l) =
          filter (λ j, Is_true match (x :: l) !! (j - i) with
                               | Some x => h (j - i) x
                               | None => false
                               end) (seq (S i) (length l))) as ->.
  { rewrite <-(imap_ext (λ j x, if h (S j) x then [S i + j] else [])).
    2:{ intros j y _. simpl. by replace (i + S j) with (S (i + j)) by lia. }
    rewrite (IH (λ j x, h (S j) x) (S i)).
    apply filter_ext_in, Forall_forall. intros j Hj%elem_of_seq.
    replace (j - i) with (S (j - S i)) by lia. done. }
  by destruct (h 0 x).
Qed.

Lemma collect_callbackOrder commits i st :
  callbackOrder (collect i commits st).2 =
  concat (imap (λ j (_ : TextureCommit),
                  if lookupHit (i + j) (collect i commits st).2
                  then [i + j] else []) commits).
Proof.
  revert i st. induction commits as [|c0 rest IH]; intros i st; [done|].
  pose proof (collect_hits_below rest (S i)) as Hb.
  unfold lookupHit in *. cbn [collect].
  destruct (GetImage _ _ _ _ _ _) as [[img|] cache1].
  - specialize (IH (S i) (mkLocals cache1 (uniqueTextures st)
                                   (uniqueTexturesMapping st))).
    destruct (collect _ _ _) as [[per st2] evs]. simpl in *.
    rewrite Nat.add_0_r. destruct (decide (i = i)); [|done]. simpl.
    rewrite IH. f_equal. f_equal. apply imap_ext. intros j x _. simpl.
    destruct (decide (i = i + S j)); [lia|].
    by replace (i + S j) with (S (i + j)) by lia.
  - pose proof (collectCommit_only_probes c0
        (mkLocals cache1 (uniqueTextures st) (uniqueTexturesMapping st)))
      as Hp.
    destruct (collectCommit _ _) as [[idx st1] probes]. simpl in *.
    specialize (IH (S i) st1). specialize (Hb st1).
    destruct (collect _ _ _) as [[per st2] evs]. simpl in *.
    rewrite callbackOrder_app. destruct (only_probes_silent _ Hp) as [-> _].
    rewrite IH, hitImages_app, (only_probes_hit _ _ Hp). simpl.
    rewrite Nat.add_0_r, Hb by lia. simpl. f_equal.
    apply imap_ext. intros j x _. simpl.
    rewrite hitImages_app, (only_probes_hit _ _ Hp). simpl.
    by replace (i + S j) with (S (i + j)) by lia.
Qed.

Lemma materialize_callbackOrder commits per i st :
  length per = length commits →
  callbackOrder (materialize i commits per st).2 =
  concat (imap (λ j (idxs : list nat),
                  if bool_decide (idxs ≠ []) then [i + j] else []) per).
Proof.
  revert per i st. induction commits as [|cm rest IH]; intros per i st Hl.
  { by destruct per. }
  destruct per as [|[|k ks] per]; [done| |]; cbn [materialize];
    injection Hl as Hl; rewrite imap_cons; cbn [concat].
  - rewrite (IH _ _ _ Hl). rewrite bool_decide_false by (by intros ?).
    simpl. f_equal. apply imap_ext. intros j x _. simpl.
    by replace (i + S j) with (S (i + j)) by lia.
  - destruct (GetImage _ _ _ _ _ _) as [img cache1].
    specialize (IH per (S i) (mkLocals cache1 (uniqueTextures st)
                                       (uniqueTexturesMapping st)) Hl).
    destruct (materialize _ _ _ _) as [st2 evs]. simpl in *.
    rewrite IH, Nat.add_0_r. f_equal. f_equal.
    apply imap_ext. intros j x _. simpl.
    by replace (i + S j) with (S (i + j)) by lia.
Qed.

(** The order of the callbacks of a run, from the two phases that invoke
    them. *)
Lemma callbackOrder_CommitResources commits c :
  callbackOrder (CommitResources commits c).2 =
  filter (λ j, lookupHit j (phase1 commits c).2) (seq 0 (length commits)) ++
  filter (λ j, loadedLater commits (phase1 commits c).2 j)
         (seq 0 (length commits)).
Proof.
  rewrite CommitResources_unfold. cbn [fst snd]. unfold runTrace.
  rewrite !callbackOrder_app.
  pose proof (loadTextures_only_loads (phase1 commits c).1.2) as Hl.
  fold (phase2 commits c) in Hl.
  destruct (only_loads_silent _ Hl) as (_ & -> & _). rewrite app_nil_l.
  f_equal.
  - unfold phase1. rewrite collect_callbackOrder.
    rewrite (concat_imap_filter
               (λ j _, lookupHit (0 + j) (collect 0 commits (initLocals c)).2)).
    apply filter_ext_in, Forall_forall. intros j Hj%elem_of_seq.
    rewrite Nat.sub_0_r.
    destruct (lookup_lt_is_Some_2 commits j) as [cm ->]; [lia|]. done.
  - unfold phase3. rewrite materialize_callbackOrder
      by (unfold phase1; apply collect_length).
    rewrite (concat_imap_filter (λ _ idxs, bool_decide (idxs ≠ []))).
    replace (length (phase1 commits c).1.1) with (length commits)
      by (unfold phase1; by rewrite collect_length).
    apply filter_ext_in, Forall_forall. intros j Hj%elem_of_seq.
    rewrite Nat.sub_0_r. unfold loadedLater.
    destruct (lookup_lt_is_Some_2 commits j) as [cm Hcm]; [lia|].
    rewrite Hcm.
    destruct (collect_per commits 0 (initLocals c) j cm Hcm)
      as (idxs & Hx & Hi).
    fold (phase1 commits c) in Hi, Hx. rewrite Hx. simpl in Hi.
    destruct (lookupHit j _), (hasTexture cm); simpl;
      case_bool_decide; naive_solver.
Qed.

(** X2.  The callbacks are invoked in two rounds, each in queue order: first
    the commits whose phase-1 lookup hit the cache, then those whose
    lookup missed and that classification gave a texture. *)
Theorem callbacks_in_queue_order commits c :
  callbackOrder (CommitResources commits c).2 =
  filter (λ j, lookupHit j (phase1 commits c).2) (seq 0 (length commits)) ++
  filter (λ j, loadedLater commits (phase1 commits c).2 j)
         (seq 0 (length commits)).
Proof. apply callbackOrder_CommitResources. Qed.

(** *** Where the unique textures come from *)

Lemma getUniqueTextureIndex_origin p t st u :
  u ∈ uniqueTextures (getUniqueTextureIndex p t st).2 →
  u ∈ uniqueTextures st ∨ u = mkUnique p t None.
Proof.
  clear workSchedule.
  unfold getUniqueTextureIndex. destruct (_ !! _); simpl; [by left|].
  set_solver.
Qed.

Lemma probeTiles_origin fmt ts st u :
  u ∈ uniqueTextures (probeTiles fmt ts st).1.2 →
  u ∈ uniqueTextures st ∨
  (udimTileId u ∈ ts ∧ path u = TfStringPrintf fmt (udimTileId u) ∧
   ArchFileAccess (path u) = true ∧ data u = None).
Proof.
  revert st. induction ts as [|t ts IH]; intros st; simpl; [by left|].
  destruct (ArchFileAccess (TfStringPrintf fmt t)) eqn:Ea.
  - pose proof (getUniqueTextureIndex_origin (TfStringPrintf fmt t) t st u)
      as Ho.
    destruct (getUniqueTextureIndex _ _ _) as [k st1].
    specialize (IH st1). destruct (probeTiles _ _ st1) as [[ks st2] evs].
    simpl in *. intros Hu. destruct (IH Hu) as [H1|(? & ? & ? & ?)].
    + destruct (Ho H1) as [?| ->]; [by left|]. right. simpl.
      repeat split; try done. by left.
    + right. repeat split; try done. by right.
  - specialize (IH st). destruct (probeTiles _ _ st) as [[ks st2] evs].
    simpl in *. intros Hu. destruct (IH Hu) as [?|(? & ? & ? & ?)];
      [by left|right]. repeat split; try done. by right.
Qed.

Lemma udimTileIds_range t :
  t ∈ udimTileIds ↔ kStartTile ≤ t ≤ kEndTile.
Proof.
  assert (udimTileIds = seq 1001 100) as -> by done.
  rewrite elem_of_seq. unfold kStartTile, kEndTile. lia.
Qed.

Lemma collectCommit_origin cm st u :
  u ∈ uniqueTextures (collectCommit cm st).1.2 →
  u ∈ uniqueTextures st ∨ (registeredFor cm u ∧ data u = None).
Proof.
  unfold collectCommit, registeredFor.
  destruct (RprUsdGetUDIMFormatString _) as [fmt|].
  - intros [?|(Ht & ? & ? & ?)]%probeTiles_origin; [by left|right].
    by apply udimTileIds_range in Ht.
  - pose proof (getUniqueTextureIndex_origin (filepath cm) 0 st u) as Ho.
    destruct (getUniqueTextureIndex _ _ _) as [k st1]. simpl in *.
    intros [?| ->]%Ho; [by left|by right].
Qed.

(** Every unique texture was registered for a commit whose lookup
    missed, and has no data yet. *)
Lemma collect_origin commits i st u :
  u ∈ uniqueTextures (collect i commits st).1.2 →
  u ∈ uniqueTextures st ∨
  ∃ k cm, commits !! k = Some cm ∧
          lookupHit (i + k) (collect i commits st).2 = false ∧
          registeredFor cm u ∧ data u = None.
Proof.
  revert i st. induction commits as [|c0 rest IH]; intros i st; [by left|].
  pose proof (collect_hits_below rest (S i)) as Hb.
  unfold lookupHit in *. cbn [collect].
  destruct (GetImage _ _ _ _ _ _) as [[img|] cache1].
  - specialize (IH (S i) (mkLocals cache1 (uniqueTextures st)
                                   (uniqueTexturesMapping st))).
    destruct (collect _ _ _) as [[per st2] evs]. simpl in *.
    intros [?|(k & cm & Hk & Hm & Hr)]%IH; [by left|right].
    exists (S k), cm. split; [done|]. split; [|done].
    destruct (decide (i = i + S k)); [lia|].
    by replace (i + S k) with (S (i + k)) by lia.
  - pose proof (collectCommit_only_probes c0
        (mkLocals cache1 (uniqueTextures st) (uniqueTexturesMapping st)))
      as Hp.
    pose proof (collectCommit_origin c0
        (mkLocals cache1 (uniqueTextures st) (uniqueTexturesMapping st)) u)
      as Ho.
    destruct (collectCommit _ _) as [[idx st1] probes]. simpl in *.
    specialize (IH (S i) st1). specialize (Hb st1).
    destruct (collect _ _ _) as [[per st2] evs]. simpl in *.
    intros [H1|(k & cm & Hk & Hm & Hr)]%IH.
    + destruct (Ho H1) as [?|Hr]; [by left|right].
      exists 0, c0. split; [done|]. split; [|done].
      rewrite hitImages_app, (only_probes_hit _ _ Hp), Nat.add_0_r. simpl.
      by rewrite Hb by lia.
    + right. exists (S k), cm. split; [done|]. split; [|done].
      rewrite hitImages_app, (only_probes_hit _ _ Hp). simpl.
      by replace (i + S k) with (S (i + k)) by lia.
Qed.

Lemma phase1_origin commits c u :
  u ∈ uniqueTextures (phase1 commits c).1.2 →
  ∃ k cm, commits !! k = Some cm ∧
          lookupHit k (phase1 commits c).2 = false ∧
          registeredFor cm u ∧ data u = None.
Proof.
  unfold phase1. intros [H|H]%collect_origin; [|done].
  by apply elem_of_nil in H.
Qed.

Lemma registeredFor_paths cm u : registeredFor cm u → path u ∈ texturePaths cm.
Proof.
  unfold registeredFor, texturePaths.
  destruct (RprUsdGetUDIMFormatString _) as [fmt|].
  - intros (Ht & Hp & Ha). apply list_elem_of_filter. split.
    + by rewrite Ha.
    + rewrite Hp. apply list_elem_of_fmap_2. by apply udimTileIds_range.
  - intros [_ ->]. by left.
Qed.

Lemma classified_paths cm uniq idxs :
  classified cm uniq idxs ↔ pathAt uniq <$> idxs = Some <$> texturePaths cm.
Proof.
  unfold classified, texturePaths.
  destruct (RprUsdGetUDIMFormatString _) as [fmt|]; [done|]. split.
  - intros (k & -> & Hk). simpl. by rewrite Hk.
  - destruct idxs as [|k [|k' idxs]]; try done.
    intros [= H]. by exists k.
Qed.

Lemma pathAt_fmap_inj st (xi xj : list nat) (ps : list string) :
  consistent st →
  pathAt (uniqueTextures st) <$> xi = Some <$> ps →
  pathAt (uniqueTextures st) <$> xj = Some <$> ps → xi = xj.
Proof.
  intros Hc. revert xj ps.
  induction xi as [|a xi IH]; intros [|b xj] [|p ps]; try done.
  intros [= Ha Hi] [= Hb Hj]. f_equal; [|by eapply IH].
  by eapply consistent_inj.
Qed.

(** X3.  Two commits with the same path whose lookups both missed, a UDIM
    path or not, are given the same unique textures. *)
Theorem same_path_same_textures commits c i j ci cj :
  commits !! i = Some ci → commits !! j = Some cj →
  filepath ci = filepath cj →
  lookupHit i (phase1 commits c).2 = false →
  lookupHit j (phase1 commits c).2 = false →
  (phase1 commits c).1.1 !! i = (phase1 commits c).1.1 !! j ∧
  ∃ idxs, (phase1 commits c).1.1 !! i = Some idxs ∧
          pathAt (uniqueTextures (phase1 commits c).1.2) <$> idxs =
          Some <$> texturePaths ci.
Proof.
  intros Hi Hj Hp Hmi Hmj.
  pose proof (phase1_consistent commits c) as Hc. unfold phase1 in *.
  destruct (collect_spec commits 0 _ (consistent_init c)) as (_ & _ & H).
  destruct (H i ci Hi Hmi) as (xi & Hxi & Hci).
  destruct (H j cj Hj Hmj) as (xj & Hxj & Hcj).
  apply classified_paths in Hci, Hcj.
  assert (texturePaths cj = texturePaths ci) as Ht
    by (unfold texturePaths; by rewrite Hp).
  rewrite Ht in Hcj. rewrite Hxi, Hxj.
  rewrite (pathAt_fmap_inj _ xi xj _ Hc Hci Hcj). split; [done|].
  by exists xj.
Qed.

(** The indices of a commit stay inside [uniqueTextures]. *)
Lemma collect_indices_bound commits c i idxs k :
  (phase1 commits c).1.1 !! i = Some idxs → k ∈ idxs →
  is_Some (uniqueTextures (phase2 commits c).1 !! k).
Proof.
  intros Hi Hk.
  unfold phase2, loadTextures. cbn [fst uniqueTextures].
  rewrite list_lookup_fmap. apply fmap_is_Some.
  assert (i < length commits) as Hlt.
  { apply lookup_lt_Some in Hi. unfold phase1 in Hi.
    by rewrite collect_length in Hi. }
  destruct (lookup_lt_is_Some_2 commits i Hlt) as [cm Hcm].
  destruct (lookupHit i (phase1 commits c).2) eqn:Eh.
  + destruct (collect_per commits 0 (initLocals c) i cm Hcm)
      as (idxs' & Hx & Hempty).
    fold (phase1 commits c) in Hx, Hempty. simpl in Hempty.
    rewrite Hi in Hx. injection Hx as <-.
    assert (idxs = []) as -> by (apply Hempty; by left).
    by apply elem_of_nil in Hk.
  + unfold phase1 in *.
    destruct (collect_spec commits 0 _ (consistent_init c)) as (_ & _ & H).
    destruct (H i cm Hcm Eh) as (idxs' & Hx & Hcl).
    rewrite Hi in Hx. injection Hx as <-.
    apply classified_paths in Hcl.
    assert (pathAt (uniqueTextures (collect 0 commits (initLocals c)).1.2) k
            ∈ Some <$> texturePaths cm) as Hin.
    { rewrite <-Hcl. by apply list_elem_of_fmap_2. }
    apply list_elem_of_fmap in Hin as (p & Hp & _).
    unfold pathAt in Hp. by destruct (_ !! k).
Qed.

(** X4.  Every index that phase 1 gives a commit names a unique texture: the
    subscript of line 222 stays inside [uniqueTextures]. *)
Theorem tile_indices_in_bounds commits c i idxs k :
  (phase1 commits c).1.1 !! i = Some idxs → k ∈ idxs →
  is_Some (uniqueTextures (phase2 commits c).1 !! k) ∧
  length (uniqueTextures (phase2 commits c).1) =
    size (uniqueTexturesMapping (phase2 commits c).1).
Proof.
  intros Hi Hk. split.
  - by eapply collect_indices_bound.
  - destruct (phase1_consistent commits c) as [Hs _]. unfold phase2. simpl.
    by rewrite length_fmap.
Qed.

(** *** Loading and the tiles of phase 3 *)

Lemma phase1_no_data commits c :
  Forall (λ u, data u = None) (uniqueTextures (phase1 commits c).1.2).
Proof.
  apply Forall_forall. intros u Hu.
  by destruct (phase1_origin commits c u Hu) as (? & ? & ? & ? & ? & ?).
Qed.

Lemma loadOne_data u : data u = None → data (loadOne u) = TextureDataNew (path u).
Proof. intros H. unfold loadOne. simpl. by destruct (TextureDataNew _). Qed.

(** X5.  After phase 2 a unique texture holds what reading its file returned,
    and it is one that a commit whose lookup missed asked for, under the
    tile id of that commit's probe (0 for a path that is not a UDIM
    path). *)
Theorem unique_textures_after_loading commits c u :
  u ∈ uniqueTextures (phase2 commits c).1 →
  data u = TextureDataNew (path u) ∧
  ∃ i cm, commits !! i = Some cm ∧
          lookupHit i (phase1 commits c).2 = false ∧
          registeredFor cm u.
Proof.
  unfold phase2, loadTextures. cbn [fst uniqueTextures].
  intros (u0 & -> & Hu0)%list_elem_of_fmap.
  destruct (phase1_origin commits c u0 Hu0) as (i & cm & Hi & Hm & Hr & Hd).
  split; [exact (loadOne_data u0 Hd)|]. exists i, cm.
  split; [done|]. split; [done|]. exact Hr.
Qed.

Lemma gatherTiles_loaded (uniq : list UniqueTextureInfo) (idxs : list nat)
      (ps : list string) :
  Forall (λ u, data u = None) uniq →
  pathAt uniq <$> idxs = Some <$> ps →
  ∃ us, path <$> us = ps ∧ Forall (λ u, u ∈ uniq) us ∧
        gatherTiles (loadOne <$> uniq) idxs = omap tileOf us.
Proof.
  intros Hd. revert ps. induction idxs as [|k idxs IH]; intros [|p ps];
    try done.
  { intros _. by exists []. }
  intros [= Hk Hrest]. destruct (IH ps Hrest) as (us & Hus & Hin & Hg).
  unfold pathAt in Hk. destruct (uniq !! k) as [u|] eqn:Eu; [|done].
  injection Hk as <-. exists (u :: us). split; [by rewrite <-Hus|].
  split.
  { constructor; [|done]. by eapply list_elem_of_lookup_2. }
  unfold gatherTiles in *. cbn [omap list_omap]. rewrite Hg.
  rewrite list_lookup_fmap, Eu. simpl.
  assert (data u = None) as Hu.
  { eapply Forall_forall in Hd; [exact Hd|]. by eapply list_elem_of_lookup_2. }
  unfold tileOf. rewrite Hu. by destruct (TextureDataNew _).
Qed.

Lemma materialize_tiles commits per i st j :
  tilesFor j (materialize i commits per st).2 =
  if decide (i ≤ j) then
    match commits !! (j - i), per !! (j - i) with
    | Some _, Some (k :: ks) => [gatherTiles (uniqueTextures st) (k :: ks)]
    | _, _ => []
    end
  else [].
Proof.
  revert per i st. induction commits as [|cm rest IH]; intros per i st.
  { simpl. by destruct (decide _). }
  destruct per as [|[|k ks] per]; cbn [materialize].
  - rewrite lookup_nil. destruct (decide _); [|done]. by destruct (_ !! _).
  - rewrite IH. destruct (decide (S i ≤ j)), (decide (i ≤ j)); try lia.
    + by replace (j - i) with (S (j - S i)) by lia.
    + by replace (j - i) with 0 by lia.
    + done.
  - destruct (GetImage _ _ _ _ _ _) as [img cache1].
    specialize (IH per (S i) (mkLocals cache1 (uniqueTextures st)
                                       (uniqueTexturesMapping st))).
    destruct (materialize _ _ _ _) as [st2 evs].
    cbn [snd tilesFor omap list_omap uniqueTextures] in *.
    destruct (decide (i = j)) as [->|].
    + rewrite IH. destruct (decide (S j ≤ j)), (decide (j ≤ j)); try lia.
      by rewrite Nat.sub_diag.
    + rewrite IH. destruct (decide (S i ≤ j)), (decide (i ≤ j)); try lia.
      * by replace (j - i) with (S (j - S i)) by lia.
      * done.
Qed.

(** X6.  The tiles of the phase-3 call for a commit whose lookup missed: one
    for each of its textures whose file could be read, in probing order,
    with the data read and the tile id of the unique texture; a texture
    that failed to load is left out, and the call is made all the same.
    A commit whose lookup hit, or without textures, gets no such call. *)
Theorem phase3_tiles commits c i cm :
  commits !! i = Some cm →
  (lookupHit i (phase1 commits c).2 = true →
   tilesFor i (phase3 commits c).2 = []) ∧
  (lookupHit i (phase1 commits c).2 = false →
   match texturePaths cm with
   | [] => tilesFor i (phase3 commits c).2 = []
   | _ :: _ =>
       ∃ us, path <$> us = texturePaths cm ∧
             Forall (λ u, u ∈ uniqueTextures (phase1 commits c).1.2) us ∧
             tilesFor i (phase3 commits c).2 = [omap tileOf us]
   end).
Proof.
  intros Hi. unfold phase3. rewrite materialize_tiles.
  rewrite decide_True by lia. rewrite Nat.sub_0_r, Hi.
  destruct (collect_per commits 0 (initLocals c) i cm Hi)
    as (idxs & Hx & Hempty).
  fold (phase1 commits c) in Hx, Hempty. simpl in Hempty. rewrite Hx.
  split.
  - intros Hh. assert (idxs = []) as -> by (apply Hempty; by left). done.
  - intros Hm. unfold phase1 in *.
    destruct (collect_spec commits 0 _ (consistent_init c)) as (_ & _ & H).
    destruct (H i cm Hi Hm) as (idxs' & Hx' & Hcl).
    rewrite Hx in Hx'. injection Hx' as <-.
    apply classified_paths in Hcl.
    destruct (gatherTiles_loaded _ _ _ (phase1_no_data commits c) Hcl)
      as (us & Hus & Hin & Hg).
    unfold phase2, loadTextures. cbn [fst uniqueTextures].
    destruct (texturePaths cm) as [|p ps].
    + by destruct idxs.
    + destruct idxs as [|k ks]; [done|]. exists us.
      split; [done|]. split; [done|]. by rewrite Hg.
Qed.

Lemma loadEvents_failures (us : list UniqueTextureInfo) :
  failuresOf (concat (loadEvents <$> us)) =
  filter (λ p, TextureDataNew p = None) (path <$> us).
Proof.
  induction us as [|u us IH]; [done|].
  rewrite !fmap_cons. cbn [concat]. rewrite failuresOf_app, IH, filter_cons.
  unfold loadEvents.
  destruct (TextureDataNew (path u)) eqn:E.
  - by rewrite decide_False.
  - by rewrite decide_True.
Qed.

Lemma loadTextures_failures st :
  failuresOf (loadTextures st).2 ≡ₚ
  filter (λ p, TextureDataNew p = None) (path <$> uniqueTextures st).
Proof.
  unfold loadTextures, failuresOf. cbn [snd]. rewrite interleave_Permutation.
  apply reflexive_eq, loadEvents_failures.
Qed.

(** The report of a file that could not be read follows the read. *)
Lemma loadTextures_report_follows st p :
  p ∈ failuresOf (loadTextures st).2 →
  [EvLoad p; EvLoadFailed p] `sublist_of` (loadTextures st).2.
Proof.
  rewrite loadTextures_failures.
  intros [Hn (u & -> & Hu)%list_elem_of_fmap]%list_elem_of_filter.
  apply list_elem_of_lookup in Hu as [k Hk].
  unfold loadTextures. cbn [snd]. apply (interleave_sublist _ _ k).
  rewrite list_lookup_fmap, Hk. cbn [fmap option_fmap option_map].
  unfold loadEvents. by rewrite Hn.
Qed.

Lemma runTrace_loads commits c :
  loadsOf (runTrace commits c) = loadsOf (phase2 commits c).2 ∧
  failuresOf (runTrace commits c) = failuresOf (phase2 commits c).2.
Proof.
  unfold runTrace. rewrite !loadsOf_app, !failuresOf_app.
  destruct (phase1_no_loads _ (collect_events commits 0 (initLocals c)))
    as [H1 H2].
  fold (phase1 commits c) in H1, H2. rewrite H1, H2.
  destruct (cache_events_only _
              (materialize_events commits (phase1 commits c).1.1 0
                                  (phase2 commits c).1)) as (H3 & H4 & _).
  fold (phase3 commits c) in H3, H4. rewrite H3, H4.
  by rewrite !app_nil_r.
Qed.

(** X7.  The files read from disk are those of the commits whose lookup
    missed: the literal path, or the tiles of a UDIM path that exist;
    none is read twice, whatever the number of commits that use it. *)
Theorem loads_are_the_missed_textures commits c :
  NoDup (loadsOf (CommitResources commits c).2) ∧
  ∀ p, p ∈ loadsOf (CommitResources commits c).2 ↔
       ∃ i cm, commits !! i = Some cm ∧
               lookupHit i (phase1 commits c).2 = false ∧
               p ∈ texturePaths cm.
Proof.
  rewrite CommitResources_unfold. cbn [fst snd].
  destruct (runTrace_loads commits c) as [-> _].
  pose proof (loadTextures_loads (phase1 commits c).1.2) as Hl.
  fold (phase2 commits c) in Hl.
  pose proof (phase1_consistent commits c) as Hc.
  split; [rewrite Hl; by apply consistent_NoDup|]. intros p. rewrite Hl.
  split.
  - intros (u & -> & Hu)%list_elem_of_fmap.
    destruct (phase1_origin commits c u Hu) as (i & cm & Hi & Hm & Hr & _).
    exists i, cm. split; [done|]. split; [done|].
    by apply registeredFor_paths.
  - intros (i & cm & Hi & Hm & Hp). unfold phase1 in *.
    destruct (collect_spec commits 0 _ (consistent_init c)) as (_ & _ & H).
    destruct (H i cm Hi Hm) as (idxs & _ & Hcl).
    apply classified_paths in Hcl.
    assert (Some p ∈ pathAt (uniqueTextures
                               (collect 0 commits (initLocals c)).1.2)
                     <$> idxs) as Hin.
    { rewrite Hcl. by apply list_elem_of_fmap_2. }
    apply list_elem_of_fmap in Hin as (k & Hk & _).
    unfold pathAt in Hk. symmetry in Hk.
    apply fmap_Some in Hk as (u & Hu & ->).
    apply list_elem_of_fmap_2. by eapply list_elem_of_lookup_2.
Qed.

(** X8.  A failure to load is reported once for each file read whose reader
    returned null, and for no other; the report of a file follows the
    read of that file.  The slots run concurrently, so nothing more is
    fixed about the order of the reads and the reports: this holds for
    every schedule. *)
Theorem load_failures_reported commits c :
  let evs := (CommitResources commits c).2 in
  failuresOf evs ≡ₚ filter (λ p, TextureDataNew p = None) (loadsOf evs) ∧
  NoDup (failuresOf evs) ∧
  ∀ p, p ∈ failuresOf evs → [EvLoad p; EvLoadFailed p] `sublist_of` evs.
Proof.
  cbn zeta. rewrite CommitResources_unfold. cbn [fst snd].
  destruct (runTrace_loads commits c) as [-> ->].
  pose proof (loadTextures_loads (phase1 commits c).1.2) as Hl.
  pose proof (loadTextures_failures (phase1 commits c).1.2) as Hf.
  fold (phase2 commits c) in Hl, Hf.
  split; [by rewrite Hl, Hf|]. split.
  - rewrite Hf. apply NoDup_filter, consistent_NoDup, phase1_consistent.
  - intros p Hp%loadTextures_report_follows. unfold runTrace.
    by apply sublist_inserts_l, sublist_inserts_r.
Qed.

(** *** A batch served from the cache *)

Lemma materialize_nothing commits per i st :
  Forall (λ idxs : list nat, idxs = []) per →
  (materialize i commits per st).2 = [].
Proof.
  intros H. revert commits i st.
  induction H as [|idxs per -> _ IH]; intros [|cm rest] i st; try done.
  cbn [materialize]. apply IH.
Qed.

Lemma concat_imap_nil {A B : Type} (f : nat → A → list B) (l : list A) :
  (∀ j x, l !! j = Some x → f j x = []) → concat (imap f l) = [].
Proof.
  revert f. induction l as [|x l IH]; intros f Hf; [done|].
  rewrite imap_cons. cbn [concat]. rewrite (Hf 0 x eq_refl).
  rewrite IH; [done|]. intros j y Hj. by apply (Hf (S j)).
Qed.

Lemma filter_all {A : Type} (P : A → Prop) `{∀ x, Decision (P x)}
      (l : list A) :
  Forall P l → filter P l = l.
Proof.
  induction 1 as [|x l Hx _ IH]; [done|].
  by rewrite filter_cons, decide_True, IH.
Qed.

Lemma filter_none {A : Type} (P : A → Prop) `{∀ x, Decision (P x)}
      (l : list A) :
  Forall (λ x, ¬ P x) l → filter P l = [].
Proof.
  induction 1 as [|x l Hx _ IH]; [done|].
  by rewrite filter_cons, decide_False, IH.
Qed.

(** X9.  When every lookup of phase 1 hits the cache, the run asks the file
    system for nothing and reads no file: it makes one lookup for each
    commit and calls the callbacks back in queue order. *)
Theorem all_cached_run commits c :
  (∀ i, i < length commits → lookupHit i (phase1 commits c).2 = true) →
  probesOf (CommitResources commits c).2 = [] ∧
  loadsOf (CommitResources commits c).2 = [] ∧
  lookupsOf (CommitResources commits c).2 =
    imap (λ i cm, (i, filepath cm, colorspace cm, wrapType cm, [], 0))
         commits ∧
  callbackOrder (CommitResources commits c).2 = seq 0 (length commits).
Proof.
  intros Hall.
  assert (uniqueTextures (phase1 commits c).1.2 = []) as Hu.
  { destruct (uniqueTextures (phase1 commits c).1.2) as [|u us] eqn:E; [done|].
    destruct (phase1_origin commits c u) as (i & cm & Hi & Hm & _).
    { rewrite E. by left. }
    rewrite Hall in Hm; [done|]. by eapply lookup_lt_Some. }
  assert ((phase3 commits c).2 = []) as H3.
  { unfold phase3. apply materialize_nothing, Forall_lookup.
    intros i idxs Hi.
    assert (i < length commits) as Hlt.
    { apply lookup_lt_Some in Hi. unfold phase1 in Hi.
      by rewrite collect_length in Hi. }
    destruct (lookup_lt_is_Some_2 commits i Hlt) as [cm Hcm].
    destruct (collect_per commits 0 (initLocals c) i cm Hcm)
      as (idxs' & Hx & Hempty).
    fold (phase1 commits c) in Hx, Hempty. simpl in Hempty.
    rewrite Hi in Hx. injection Hx as <-. apply Hempty. left. by apply Hall. }
  split; [|split; [|split]].
  - rewrite CommitResources_unfold. cbn [fst snd]. unfold runTrace.
    rewrite H3, app_nil_r, probesOf_app.
    destruct (only_loads_silent _ (loadTextures_only_loads
                                     (phase1 commits c).1.2)) as (Hp & _).
    fold (phase2 commits c) in Hp. rewrite Hp, app_nil_r.
    unfold phase1. rewrite collect_probes. apply concat_imap_nil.
    intros j cm Hj. fold (phase1 commits c). simpl.
    rewrite Hall; [done|]. by eapply lookup_lt_Some.
  - rewrite CommitResources_unfold. cbn [fst snd].
    destruct (runTrace_loads commits c) as [-> _].
    unfold phase2. by rewrite loadTextures_nothing.
  - rewrite CommitResources_unfold. cbn [fst snd]. unfold runTrace.
    rewrite H3, app_nil_r, lookupsOf_app.
    assert (lookupsOf (phase2 commits c).2 = []) as ->
      by apply only_loads_lookups, loadTextures_only_loads.
    rewrite app_nil_r. unfold phase1. by rewrite collect_lookups.
  - rewrite callbackOrder_CommitResources.
    rewrite filter_all, filter_none; [by rewrite app_nil_r| |].
    + apply Forall_forall. intros j Hj%elem_of_seq. unfold loadedLater.
      rewrite Hall by lia. simpl. tauto.
    + apply Forall_forall. intros j Hj%elem_of_seq. rewrite Hall by lia. done.
Qed.

(** *** The claims on classification, sharing and the lookups *)

(** The calls of phase 3, without their tiles: one for each commit with
    a non-empty vector, in queue order. *)
Lemma materialize_calls commits per i st :
  length per = length commits →
  withoutTiles <$> lookupsOf (materialize i commits per st).2 =
  concat (imap (λ j cm, match per !! j with
                        | Some (_ :: _) => [ownCall (i + j) cm]
                        | _ => []
                        end) commits).
Proof.
  revert per i st. induction commits as [|cm rest IH]; intros per i st Hl.
  { by destruct per. }
  destruct per as [|[|k ks] per]; [done| |]; cbn [materialize];
    injection Hl as Hl; rewrite imap_cons; cbn [concat lookup list_lookup].
  - rewrite (IH _ _ _ Hl). simpl. f_equal. apply imap_ext. intros j x _.
    simpl. by replace (i + S j) with (S (i + j)) by lia.
  - destruct (GetImage _ _ _ _ _ _) as [img cache1].
    specialize (IH per (S i) (mkLocals cache1 (uniqueTextures st)
                                       (uniqueTexturesMapping st)) Hl).
    destruct (materialize _ _ _ _) as [st2 evs].
    cbn [snd lookupsOf omap list_omap] in *. rewrite fmap_cons, IH.
    rewrite Nat.add_0_r. f_equal. f_equal.
    apply imap_ext. intros j x _. simpl.
    by replace (i + S j) with (S (i + j)) by lia.
Qed.

Lemma phase3_calls commits c :
  withoutTiles <$> lookupsOf (phase3 commits c).2 =
  concat (imap (λ j cm, if loadedLater commits (phase1 commits c).2 j
                        then [ownCall j cm] else []) commits).
Proof.
  unfold phase3.
  rewrite materialize_calls by (unfold phase1; apply collect_length).
  f_equal. apply imap_ext. intros j cm Hj. cbn [Nat.add].
  destruct (collect_per commits 0 (initLocals c) j cm Hj) as (idxs & Hx & Hi).
  fold (phase1 commits c) in Hx, Hi. rewrite Hx. unfold loadedLater.
  rewrite Hj. simpl in Hi.
  destruct idxs, (lookupHit j _), (hasTexture cm); simpl; try done;
    exfalso; intuition congruence.
Qed.

(** A commit whose lookup hit the cache is given no index. *)
Lemma phase1_hit_empty commits c i cm :
  commits !! i = Some cm → lookupHit i (phase1 commits c).2 = true →
  (phase1 commits c).1.1 !! i = Some [].
Proof.
  intros Hi Hhit.
  destruct (collect_per commits 0 (initLocals c) i cm Hi) as (idxs & Hx & He).
  fold (phase1 commits c) in Hx, He. simpl in He.
  rewrite Hx. f_equal. apply He. by left.
Qed.

(** C5, as the code has it: the tile ids are 1001 to 1100; phase 1
    probes, for each commit whose lookup missed and whose path is a UDIM
    path, the paths of these hundred tiles in ascending order, and
    nothing else, so nothing for a commit whose lookup hit the cache; the
    vector of a commit whose lookup hit is empty; the vector of a commit
    whose lookup missed names the tile paths that exist, in probing
    order, when its path is a UDIM path, and the path itself
    otherwise. *)
Theorem phase1_udim_classification commits c i cm :
  commits !! i = Some cm →
  udimTileIds = seq 1001 100 ∧
  probesOf (phase1 commits c).2 =
    concat (imap (λ j cm', if lookupHit j (phase1 commits c).2
                           then [] else expectedProbes cm') commits) ∧
  ∃ idxs, (phase1 commits c).1.1 !! i = Some idxs ∧
          if lookupHit i (phase1 commits c).2 then idxs = []
          else classified cm (uniqueTextures (phase1 commits c).1.2) idxs.
Proof.
  intros Hi. split; [done|]. split.
  - unfold phase1. by rewrite collect_probes.
  - destruct (lookupHit i (phase1 commits c).2) eqn:Hhit.
    + exists []. split; [|done]. by eapply phase1_hit_empty.
    + unfold phase1 in *.
      destruct (collect_spec commits 0 _ (consistent_init c)) as (_ & _ & H).
      by apply H.
Qed.

(** C6, as the code has it: two commits with the same path, not a UDIM
    path, whose lookups both missed share one index; the unique texture
    there is the only one with that path and its file is read once in
    the run; no two unique textures have the same path; asking again for
    a path returns the same index and changes nothing, and entries are
    only appended.  A commit whose lookup hit the cache is given no
    index, and every unique texture and every file read is one of a
    commit whose lookup missed. *)
Theorem unique_texture_shared commits c :
  (∀ i j ci cj,
     commits !! i = Some ci → commits !! j = Some cj →
     filepath ci = filepath cj →
     RprUsdGetUDIMFormatString (filepath ci) = None →
     lookupHit i (phase1 commits c).2 = false →
     lookupHit j (phase1 commits c).2 = false →
     (∃ k, (phase1 commits c).1.1 !! i = Some [k] ∧
           (phase1 commits c).1.1 !! j = Some [k] ∧
           pathAt (uniqueTextures (phase1 commits c).1.2) k =
             Some (filepath ci) ∧
           ∀ k', pathAt (uniqueTextures (phase1 commits c).1.2) k' =
                   Some (filepath ci) → k' = k) ∧
     length (filter (λ p, p = filepath ci)
                    (loadsOf (CommitResources commits c).2)) = 1) ∧
  NoDup (path <$> uniqueTextures (phase1 commits c).1.2) ∧
  (∀ p t t' st, getUniqueTextureIndex p t' (getUniqueTextureIndex p t st).2 =
                getUniqueTextureIndex p t st) ∧
  (∀ p t st, uniqueTextures st `prefix_of`
             uniqueTextures (getUniqueTextureIndex p t st).2) ∧
  (∀ i cm, commits !! i = Some cm →
           lookupHit i (phase1 commits c).2 = true →
           (phase1 commits c).1.1 !! i = Some []) ∧
  (∀ u, u ∈ uniqueTextures (phase1 commits c).1.2 →
        ∃ k cm, commits !! k = Some cm ∧
                lookupHit k (phase1 commits c).2 = false ∧
                path u ∈ texturePaths cm) ∧
  (∀ p, p ∈ loadsOf (CommitResources commits c).2 →
        ∃ k cm, commits !! k = Some cm ∧
                lookupHit k (phase1 commits c).2 = false ∧
                p ∈ texturePaths cm).
Proof.
  pose proof (phase1_consistent commits c) as Hc.
  assert (loadsOf (CommitResources commits c).2 ≡ₚ
          path <$> uniqueTextures (phase1 commits c).1.2) as Hloads.
  { rewrite CommitResources_unfold. cbn [fst snd].
    destruct (runTrace_loads commits c) as [-> _].
    apply loadTextures_loads. }
  assert (∀ u, u ∈ uniqueTextures (phase1 commits c).1.2 →
               ∃ k cm, commits !! k = Some cm ∧
                       lookupHit k (phase1 commits c).2 = false ∧
                       path u ∈ texturePaths cm) as Horigin.
  { intros u Hu.
    destruct (phase1_origin commits c u Hu) as (k & cm & Hk & Hm & Hr & _).
    exists k, cm. split; [done|]. split; [done|].
    by apply registeredFor_paths. }
  split; [|split; [|split; [|split; [|split; [|split]]]]].
  - intros i j ci cj Hi Hj Hp Hudim Hmi Hmj.
    assert (∃ k, (phase1 commits c).1.1 !! i = Some [k] ∧
                 (phase1 commits c).1.1 !! j = Some [k] ∧
                 pathAt (uniqueTextures (phase1 commits c).1.2) k =
                   Some (filepath ci)) as (k & Hki & Hkj & Hk).
    { unfold phase1 in *.
      destruct (collect_spec commits 0 _ (consistent_init c)) as (_ & _ & H).
      destruct (H i ci Hi Hmi) as (xi & Hxi & Hci).
      destruct (H j cj Hj Hmj) as (xj & Hxj & Hcj).
      unfold classified in Hci, Hcj. rewrite <-Hp, Hudim in Hcj.
      rewrite Hudim in Hci.
      destruct Hci as (ki & -> & Hki). destruct Hcj as (kj & -> & Hkj).
      assert (ki = kj) as -> by (by eapply consistent_inj).
      by exists kj. }
    split.
    + exists k. repeat split; try done. intros k' Hk'.
      by eapply consistent_inj.
    + rewrite Hloads.
      apply filter_eq_NoDup; [by apply consistent_NoDup|].
      unfold pathAt in Hk. apply list_elem_of_lookup. exists k.
      by rewrite list_lookup_fmap.
  - by apply consistent_NoDup.
  - apply getUniqueTextureIndex_idem.
  - apply getUniqueTextureIndex_prefix.
  - apply phase1_hit_empty.
  - exact Horigin.
  - intros p. rewrite Hloads. intros (u & -> & Hu)%list_elem_of_fmap.
    by apply Horigin.
Qed.

(** C10: the lookups of a run are, first, one for every commit in queue
    order, with no tiles and a component count of zero, whatever the
    commit's [numComponentsRequired], which phase 1 does not read at
    all; then one for every commit whose lookup missed and that
    classification gave a texture, again in queue order, with the
    commit's own path, colour space, wrap type and
    [numComponentsRequired]; and no other.  The callback of a commit
    whose first lookup hit receives the image that lookup found, and
    nothing else. *)
Theorem phase1_lookup_without_components commits c :
  (∃ later,
     lookupsOf (CommitResources commits c).2 =
       imap (λ i cm, (i, filepath cm, colorspace cm, wrapType cm, [], 0))
            commits ++ later ∧
     withoutTiles <$> later =
       concat (imap (λ j cm, if loadedLater commits (phase1 commits c).2 j
                             then [ownCall j cm] else []) commits)) ∧
  (∀ commits', Forall2 sameTexture commits commits' →
               phase1 commits' c = phase1 commits c) ∧
  (∀ i, lookupHit i (phase1 commits c).2 = true →
        callbacksFor i (CommitResources commits c).2 =
        Some <$> hitImages i (phase1 commits c).2).
Proof.
  split; [|split].
  - exists (lookupsOf (phase3 commits c).2). split; [|apply phase3_calls].
    rewrite CommitResources_unfold. cbn [fst snd]. unfold runTrace.
    rewrite !lookupsOf_app.
    assert (lookupsOf (phase2 commits c).2 = []) as ->
      by apply only_loads_lookups, loadTextures_only_loads.
    unfold phase1 at 1. by rewrite collect_lookups.
  - intros commits' H. unfold phase1. symmetry. by apply collect_sameTexture.
  - intros i Hhit. rewrite CommitResources_unfold. cbn [fst snd].
    unfold runTrace. rewrite !callbacksFor_app.
    assert (callbacksFor i (phase2 commits c).2 = []) as ->
      by apply only_loads_callbacks, loadTextures_only_loads.
    assert (callbacksFor i (phase3 commits c).2 = []) as ->.
    { apply length_zero_iff_nil. unfold phase3. rewrite materialize_count.
      rewrite decide_True by lia. rewrite Nat.sub_0_r.
      destruct (commits !! i) as [cm|] eqn:Hi; [|done].
      by rewrite (phase1_hit_empty commits c i cm Hi Hhit). }
    rewrite !app_nil_r. apply collect_callbacks.
Qed.

End CommitResources.

(** ** A concrete batch

    An image cache that remembers the paths it made an image for (an image
    is the number of its tiles), a store with three tiles of [wood] and the
    single file [rust.png], and a decimal [%d]. *)

Definition demoGetImage (c : list string) (p : string) (cs : string)
           (w : nat) (tiles : list (@UDIMTile nat)) (ncomp : nat)
  : option nat * list string :=
  if bool_decide (p ∈ c) then (Some 1, c)
  else match tiles with
       | [] => (None, c)
       | _ :: _ => (Some (length tiles), p :: c)
       end.

Definition demoUDIM (p : string) : option string :=
  if String.eqb p "wood.<UDIM>.png" then Some "wood."
  else if String.eqb p "brick.<UDIM>.png" then Some "brick."
  else None.

Definition demoPrintf (formatString : string) (tileId : nat) : string :=
  formatString +:+ NilEmpty.string_of_uint (Nat.to_uint tileId).

Definition demoAccess (p : string) : bool :=
  bool_decide (p ∈ ["wood.1001"; "wood.1003"; "wood.1010"; "rust.png"]).

Definition demoLoad (p : string) : option nat := Some (String.length p).

(** A run of [WorkParallelForN] in which the third slot is the first to
    read, then the first; the second slot comes last. *)
Definition demoSchedule (n : nat) : list nat := [2; 0].

Definition wood : @TextureCommit string nat :=
  mkCommit "wood.<UDIM>.png" "srgb" 1 3.
Definition brick : @TextureCommit string nat :=
  mkCommit "brick.<UDIM>.png" "srgb" 1 3.
Definition rust : @TextureCommit string nat :=
  mkCommit "rust.png" "srgb" 1 3.
Definition rustGrey : @TextureCommit string nat :=
  mkCommit "rust.png" "raw" 1 1.

(** The run on the spec's UDIM example: tiles 1001, 1003 and 1010. *)
Example wood_run :
  CommitResources demoGetImage demoUDIM demoPrintf demoAccess demoLoad
                  demoSchedule [wood] [] =
  ([], ["wood.<UDIM>.png"],
   EvGetImage 0 "wood.<UDIM>.png" "srgb" 1 [] 0 None
   :: ((λ t, EvFileAccess (demoPrintf "wood." t)
                          (demoAccess (demoPrintf "wood." t)))
         <$> seq 1001 100)
   ++ [EvLoad "wood.1010"; EvLoad "wood.1001"; EvLoad "wood.1003";
       EvGetImage 0 "wood.<UDIM>.png" "srgb" 1
                  [mkTile 1001 9; mkTile 1003 9; mkTile 1010 9] 3 (Some 3);
       EvCallback 0 (Some 3)]).
Proof. vm_compute. reflexivity. Qed.

(** C4, counterexample: a commit with a UDIM path none of whose tiles
    exists, and no cached image, never has its callback invoked. *)
Lemma udim_without_tiles_no_callback :
  ¬ everyCallbackOnce demoGetImage demoUDIM demoPrintf demoAccess demoLoad
                      demoSchedule [brick] [].
Proof.
  intros H. specialize (H 0 brick eq_refl). vm_compute in H. discriminate.
Qed.

Lemma CommitResources_callbacks_witness :
  [rust; brick] !! 1 = Some brick ∧
  (CommitResources demoGetImage demoUDIM demoPrintf demoAccess demoLoad
                   demoSchedule [rust; brick] []).1.1 = [] ∧
  callbacksFor 1 (CommitResources demoGetImage demoUDIM demoPrintf
                                  demoAccess demoLoad
                                  demoSchedule [rust; brick] []).2 =
    (Some <$> hitImages 1 (phase1 demoGetImage demoUDIM demoPrintf demoAccess
                                  [rust; brick] []).2) ++
    resultsFor 1 (phase3 demoGetImage demoUDIM demoPrintf demoAccess demoLoad
                         demoSchedule [rust; brick] []).2 ∧
  length (callbacksFor 1 (CommitResources demoGetImage demoUDIM demoPrintf
                            demoAccess demoLoad
                            demoSchedule [rust; brick] []).2) =
    if lookupHit 1 (phase1 demoGetImage demoUDIM demoPrintf demoAccess
                           [rust; brick] []).2
       || hasTexture demoUDIM demoPrintf demoAccess brick
    then 1 else 0.
Proof.
  split; [reflexivity|].
  apply (CommitResources_callbacks demoGetImage demoUDIM demoPrintf
           demoAccess demoLoad demoSchedule [rust; brick] [] 1 brick).
  reflexivity.
Defined.

(** C5, counterexample: a commit with a UDIM path whose lookup hits the
    cache is not classified; its vector stays empty although tiles
    exist. *)
Lemma udim_cache_hit_not_collected :
  ¬ udimTilesCollected demoGetImage demoUDIM demoPrintf demoAccess
      [wood] ["wood.<UDIM>.png"].
Proof.
  intros H. destruct (H 0 wood "wood." eq_refl eq_refl) as (idxs & Hi & Hp).
  vm_compute in Hi. injection Hi as <-. vm_compute in Hp. discriminate.
Qed.

Lemma phase1_udim_classification_witness :
  [wood] !! 0 = Some wood ∧
  udimTileIds = seq 1001 100 ∧
  probesOf (phase1 demoGetImage demoUDIM demoPrintf demoAccess [wood] []).2 =
    concat (imap (λ j cm', if lookupHit j (phase1 demoGetImage demoUDIM
                                 demoPrintf demoAccess [wood] []).2
                           then [] else expectedProbes demoUDIM demoPrintf cm')
                 [wood]) ∧
  ∃ idxs, (phase1 demoGetImage demoUDIM demoPrintf demoAccess
                  [wood] []).1.1 !! 0 = Some idxs ∧
          if lookupHit 0 (phase1 demoGetImage demoUDIM demoPrintf demoAccess
                                 [wood] []).2
          then idxs = []
          else classified demoUDIM demoPrintf demoAccess wood
                 (uniqueTextures (phase1 demoGetImage demoUDIM demoPrintf
                                         demoAccess [wood] []).1.2) idxs.
Proof.
  split; [reflexivity|].
  apply (phase1_udim_classification demoGetImage demoUDIM demoPrintf
           demoAccess [wood] [] 0 wood).
  reflexivity.
Defined.

(** C6, counterexample: two commits with the same path whose lookups both
    hit the cache make no unique texture and load nothing. *)
Lemma shared_path_cache_hit_no_entry :
  ¬ oneEntryPerSharedPath demoGetImage demoUDIM demoPrintf demoAccess demoLoad
                          demoSchedule [rust; rustGrey] ["rust.png"].
Proof.
  intros H. destruct (H 0 1 rust rustGrey) as [H1 _]; try done.
Qed.

Lemma unique_texture_shared_witness :
  let run := phase1 demoGetImage demoUDIM demoPrintf demoAccess
                    [rust; wood; rustGrey] [] in
  (∃ k, run.1.1 !! 0 = Some [k] ∧ run.1.1 !! 2 = Some [k] ∧
        pathAt (uniqueTextures run.1.2) k = Some "rust.png" ∧
        ∀ k', pathAt (uniqueTextures run.1.2) k' = Some "rust.png" → k' = k) ∧
  length (filter (λ p, p = "rust.png")
            (loadsOf (CommitResources demoGetImage demoUDIM demoPrintf
                                      demoAccess demoLoad demoSchedule
                                      [rust; wood; rustGrey] []).2)) = 1.
Proof.
  destruct (unique_texture_shared demoGetImage demoUDIM demoPrintf demoAccess
              demoLoad demoSchedule [rust; wood; rustGrey] []) as [H _].
  apply (H 0 2 rust rustGrey); [reflexivity|reflexivity|reflexivity
    |reflexivity|vm_compute; reflexivity|vm_compute; reflexivity].
Defined.

(** ** Further runs on the concrete batch *)

(** A loader that cannot read the second tile of [wood]. *)
Definition demoLoadPartly (p : string) : option nat :=
  if String.eqb p "wood.1003" then None else Some (String.length p).

(** The tile whose file cannot be read is reported and left out of the
    tiles; the image is requested and handed over all the same. *)
Example wood_run_partly :
  let tr := (CommitResources demoGetImage demoUDIM demoPrintf demoAccess
                             demoLoadPartly demoSchedule [wood] []).2 in
  failuresOf tr = ["wood.1003"] ∧
  tilesFor 0 tr = [[]; [mkTile 1001 9; mkTile 1010 9]] ∧
  callbacksFor 0 tr = [Some 2].
Proof. vm_compute. done. Qed.

Lemma same_path_same_textures_witness :
  let run := phase1 demoGetImage demoUDIM demoPrintf demoAccess
                    [wood; rust; wood] [] in
  run.1.1 !! 0 = run.1.1 !! 2.
Proof.
  destruct (same_path_same_textures demoGetImage demoUDIM demoPrintf
              demoAccess [wood; rust; wood] [] 0 2 wood wood) as [H _];
    [reflexivity|reflexivity|reflexivity|vm_compute; reflexivity
    |vm_compute; reflexivity|].
  exact H.
Defined.

Lemma tile_indices_in_bounds_witness :
  is_Some (uniqueTextures
             (phase2 demoGetImage demoUDIM demoPrintf demoAccess demoLoad
                     demoSchedule [wood] []).1 !! 2).
Proof.
  destruct (tile_indices_in_bounds demoGetImage demoUDIM demoPrintf
              demoAccess demoLoad
              demoSchedule [wood] [] 0 [0; 1; 2] 2) as [H _].
  - vm_compute. reflexivity.
  - do 2 right. left.
  - exact H.
Defined.

Lemma unique_textures_after_loading_witness :
  data (mkUnique "wood.1003" 1003 (Some 9)) = demoLoad "wood.1003" ∧
  ∃ i cm, [rust; wood] !! i = Some cm ∧
          lookupHit i (phase1 demoGetImage demoUDIM demoPrintf demoAccess
                              [rust; wood] []).2 = false ∧
          registeredFor demoUDIM demoPrintf demoAccess cm
                        (mkUnique "wood.1003" 1003 (Some 9)).
Proof.
  apply (unique_textures_after_loading demoGetImage demoUDIM demoPrintf
           demoAccess demoLoad demoSchedule [rust; wood] []).
  vm_compute. do 2 right. left.
Defined.

Lemma phase3_tiles_witness :
  ∃ us, path <$> us = ["wood.1001"; "wood.1003"; "wood.1010"] ∧
        tilesFor 0 (phase3 demoGetImage demoUDIM demoPrintf demoAccess
                           demoLoadPartly demoSchedule [wood] []).2 =
        [omap (tileOf demoLoadPartly) us].
Proof.
  destruct (phase3_tiles demoGetImage demoUDIM demoPrintf demoAccess
              demoLoadPartly demoSchedule [wood] [] 0 wood eq_refl) as [_ H].
  destruct (H ltac:(vm_compute; reflexivity)) as (us & H1 & _ & H2).
  exists us. split; [exact H1|exact H2].
Defined.

Lemma all_cached_run_witness :
  let tr := (CommitResources demoGetImage demoUDIM demoPrintf demoAccess
                             demoLoad demoSchedule [rust; wood; rustGrey]
                             ["rust.png"; "wood.<UDIM>.png"]).2 in
  probesOf tr = [] ∧ loadsOf tr = [] ∧
  lookupsOf tr = [(0, "rust.png", "srgb", 1, [], 0);
                  (1, "wood.<UDIM>.png", "srgb", 1, [], 0);
                  (2, "rust.png", "raw", 1, [], 0)] ∧
  callbackOrder tr = [0; 1; 2].
Proof.
  apply (all_cached_run demoGetImage demoUDIM demoPrintf demoAccess demoLoad
                        demoSchedule [rust; wood; rustGrey]
                        ["rust.png"; "wood.<UDIM>.png"]).
  intros [|[|[|i]]] Hi; try (vm_compute; reflexivity). simpl in Hi. lia.
Defined.

End Textures.

(* ===================================================================== *)
(** * Graph builder and material assembly: [CreateMaterial]               *)
(* ===================================================================== *)

Module Graph.

(** [SdfPath] and [TfToken] are compared and ordered by their text. *)
Abbreviation SdfPath := string (only parsing).
Abbreviation TfToken := string (only parsing).

(** What a [VtValue] holds, as far as this file asks ([IsEmpty],
    [IsHolding<int>], [IsHolding<std::string>],
    [IsHolding<std::shared_ptr<rpr::MaterialNode>>]).  A backend node is
    a handle; the shared pointer may be null. *)
Inductive VtValue :=
| VtEmpty
| VtInt (z : Z)
| VtString (s : string)
| VtMaterialNode (n : option nat)
| VtOther (typeName : string).

Definition IsEmpty (v : VtValue) : bool :=
  match v with VtEmpty => true | _ => false end.

Record HdMaterialConnection2 := mkConnection {
  upstreamNode : SdfPath;
  upstreamOutputName : TfToken
}.

(** A [std::map] is the list of its entries in iteration order; [begin()]
    is the head, [find] the lookup below. *)
Record HdMaterialNode2 := mkNode {
  nodeTypeId : TfToken;
  parameters : list (TfToken * VtValue);
  inputConnections : list (TfToken * list HdMaterialConnection2)
}.

Record HdMaterialNetwork2 := mkNetwork {
  nodes : list (SdfPath * HdMaterialNode2);
  terminals : list (TfToken * HdMaterialConnection2)
}.

Fixpoint mapFind {V : Type} (key : string) (m : list (string * V))
  : option V :=
  match m with
  | [] => None
  | (k, v) :: rest => if String.eqb k key then Some v else mapFind key rest
  end.

(** [HdMaterialTerminalTokens]. *)
Definition surfaceToken : TfToken := "surface".
Definition displacementToken : TfToken := "displacement".
Definition volumeToken : TfToken := "volume".

(** The diagnostics this file issues ([TF_WARN], [TF_RUNTIME_ERROR],
    [TF_CODING_ERROR]). *)
Inductive Diagnostic :=
| UnknownNodeType (typeId : TfToken)
| FailedToCreate (p : SdfPath) (typeId : TfToken) (what : string)
| EmptyNode (p : SdfPath)
| InvalidConnection (p : SdfPath)
| ConnectedArrayElements
| TerminalNotMaterialNode.

(** The node a diagnostic names by its path, if it names one. *)
Definition aboutNode (d : Diagnostic) : option SdfPath :=
  match d with
  | FailedToCreate p _ _ | EmptyNode p | InvalidConnection p => Some p
  | _ => None
  end.

(** The exceptions this file names, those of the node constructors. *)
Inductive Exception :=
| RprUsd_NodeError (what : string)
| RprUsd_NodeEmpty.

(** The base-class part of [RprUsdMaterial], with the nodes the material
    retains. *)
Record RprUsdMaterial {MaterialNode : Type} := mkMaterial {
  m_surfaceNode : option nat;
  m_displacementNode : option nat;
  m_volumeNode : option nat;
  m_isShadowCatcher : bool;
  m_isReflectionCatcher : bool;
  m_uvPrimvarName : string;
  m_displacementScale : VtValue;
  materialNodesOwned : gmap string MaterialNode
}.
Arguments RprUsdMaterial : clear implicits.

Section Builder.

Set Default Proof Using "Type".

(** [RprUsd_MaterialNode] objects and whatever else of the backend a
    factory can reach through the context (the [rpr::Context], the image
    cache, the queue of texture commits). *)
Context {MaterialNode Backend : Type}.

(** The interface of [RprUsd_MaterialNode]; the calls are taken to
    return. The [bool] that [SetInput] returns is not read by this file. *)
Variable SetInput : MaterialNode → TfToken → VtValue → MaterialNode.
Variable GetOutput : MaterialNode → TfToken → VtValue.

(** [RprUsd_MaterialBuilderContext]. *)
Record BuilderContext := mkContext {
  currentNodePath : option SdfPath;
  isShadowCatcher : bool;
  isReflectionCatcher : bool;
  uvPrimvarName : string;
  displacementScale : VtValue;
  backend : Backend
}.

(** How a factory call ends: a node, a null pointer, or one of the two
    exceptions the loop catches. *)
Inductive FactoryResult :=
| Created (n : MaterialNode)
| ReturnedNull
| ThrewNodeError (what : string)
| ThrewNodeEmpty.

Definition Factory : Type :=
  BuilderContext → list (TfToken * VtValue) → FactoryResult * BuilderContext.

(** [m_registeredNodesLookup.find] followed by
    [m_registeredNodes[...].factory]. *)
Variable registeredFactory : TfToken → option Factory.

(** [IsHoudiniPrincipledShaderHydraNode(sceneDelegate, nodePath,
    &isSurfaceNode)]: [None] for [false], [Some b] for [true] with
    [isSurfaceNode = b]. *)
Variable IsHoudiniPrincipledShaderHydraNode : SdfPath → option bool.

(** The constructor of [RprUsd_HoudiniPrincipledNode]: the node, or the
    exception it throws.  The call of line 521 is outside the [try] of
    the loop, so what it throws leaves [CreateMaterial]. *)
Variable HoudiniPrincipledNode :
  BuilderContext → list (TfToken * VtValue) →
  option (list (TfToken * VtValue)) →
  (MaterialNode + Exception) * BuilderContext.

(** [RprUsdTokens->id] and [RprUsdTokens->cryptomatteName]. *)
Variable idToken cryptomatteNameToken : TfToken.

(** [CreateMaterialXFromUsdShade] past its two lookups: is there a
    MaterialX shader node of this identifier in the [SdrRegistry], and
    what does [RprUsd_CreateRprMtlxFromString] return for the document
    made of the network. *)
Variable mtlxSdrNode : TfToken → bool.
Variable RprUsd_CreateRprMtlx :
  SdfPath → HdMaterialNetwork2 → HdMaterialNode2 → BuilderContext →
  option nat.

Inductive Event :=
| EvFactory (p : SdfPath) (typeId : TfToken) (res : FactoryResult)
| EvLog (d : Diagnostic)
| EvHoudiniNode (p : SdfPath) (surface : list (TfToken * VtValue))
                (disp : option (list (TfToken * VtValue)))
| EvWire (p : SdfPath)
| EvSetInput (p : SdfPath) (inputId : TfToken) (v : VtValue)
| EvGetOutput (p : SdfPath) (outputName : TfToken)
| EvReturn (c : HdMaterialConnection2) (v : VtValue)
| EvSetID (n : nat) (id : Z)
| EvSetName (n : nat) (name : string).

(** Drops the collaborators a goal does not mention, so that no proof
    comes to depend on them. *)
Ltac tidy :=
  try clear RprUsd_CreateRprMtlx; try clear mtlxSdrNode;
  try clear idToken; try clear cryptomatteNameToken;
  try clear HoudiniPrincipledNode;
  try clear IsHoudiniPrincipledShaderHydraNode;
  try clear registeredFactory; try clear GetOutput; try clear SetInput.

(** ** The per-node pass (lines 484-523) *)

(** The locals of the pass: the context, [out->materialNodes] and the
    three [houdiniPrincipledShader...] pointers ([NodePath] and
    [SurfaceParams] are set together). *)
Record Pass := mkPass {
  ctx : BuilderContext;
  materialNodes : gmap string MaterialNode;
  houdiniSurface : option (SdfPath * list (TfToken * VtValue));
  houdiniDisp : option (list (TfToken * VtValue))
}.

Definition setCurrentNodePath (p : SdfPath) (c : BuilderContext)
  : BuilderContext :=
  mkContext (Some p) (isShadowCatcher c) (isReflectionCatcher c)
            (uvPrimvarName c) (displacementScale c) (backend c).

(** One iteration of the loop over [network.nodes]. *)
Definition createNode (entry : SdfPath * HdMaterialNode2) (st : Pass)
  : Pass * list Event :=
  let nodePath := entry.1 in
  let node := entry.2 in
  let ctx1 := setCurrentNodePath nodePath (ctx st) in
  match registeredFactory (nodeTypeId node) with
  | Some factory =>
      let '(res, ctx2) := factory ctx1 (parameters node) in
      let called := EvFactory nodePath (nodeTypeId node) res in
      match res with
      | Created materialNode =>
          (mkPass ctx2 (<[nodePath := materialNode]> (materialNodes st))
                  (houdiniSurface st) (houdiniDisp st),
           [called])
      | ReturnedNull =>
          (mkPass ctx2 (materialNodes st) (houdiniSurface st)
                  (houdiniDisp st),
           [called])
      | ThrewNodeError what =>
          (mkPass ctx2 (materialNodes st) (houdiniSurface st)
                  (houdiniDisp st),
           [called; EvLog (FailedToCreate nodePath (nodeTypeId node) what)])
      | ThrewNodeEmpty =>
          (mkPass ctx2 (materialNodes st) (houdiniSurface st)
                  (houdiniDisp st),
           [called; EvLog (EmptyNode nodePath)])
      end
  | None =>
      match IsHoudiniPrincipledShaderHydraNode nodePath with
      | Some true =>
          (mkPass ctx1 (materialNodes st)
                  (Some (nodePath, parameters node)) (houdiniDisp st), [])
      | Some false =>
          (mkPass ctx1 (materialNodes st) (houdiniSurface st)
                  (Some (parameters node)), [])
      | None =>
          (mkPass ctx1 (materialNodes st) (houdiniSurface st)
                  (houdiniDisp st),
           [EvLog (UnknownNodeType (nodeTypeId node))])
      end
  end.

Fixpoint createNodes (entries : list (SdfPath * HdMaterialNode2))
         (st : Pass) : Pass * list Event :=
  match entries with
  | [] => (st, [])
  | entry :: rest =>
      let '(st1, evs1) := createNode entry st in
      let '(st2, evs2) := createNodes rest st1 in
      (st2, evs1 ++ evs2)
  end.

(** Lines 520-523: the state, the exception thrown if one was, and the
    events. *)
Definition createHoudiniNode (st : Pass)
  : Pass * option Exception * list Event :=
  match houdiniSurface st with
  | Some (nodePath, surfaceParams) =>
      let '(made, ctx1) :=
        HoudiniPrincipledNode (ctx st) surfaceParams (houdiniDisp st) in
      let called := EvHoudiniNode nodePath surfaceParams (houdiniDisp st) in
      match made with
      | inl materialNode =>
          (mkPass ctx1 (<[nodePath := materialNode]> (materialNodes st))
                  (houdiniSurface st) (houdiniDisp st),
           None, [called])
      | inr e =>
          (mkPass ctx1 (materialNodes st) (houdiniSurface st)
                  (houdiniDisp st),
           Some e, [called])
      end
  | None => (st, None, [])
  end.

(** Lines 484-523: the per-node pass and the merged node. *)
Definition buildNodes (network : HdMaterialNetwork2) (c : BuilderContext)
  : Pass * option Exception * list Event :=
  let '(st1, evs1) := createNodes (nodes network) (mkPass c ∅ None None) in
  let '(st2, thrown, evs2) := createHoudiniNode st1 in
  (st2, thrown, evs1 ++ evs2).

(** ** Output resolution (lines 525-593) *)

(** What the lambda [getNodeOutput] captures by reference and mutates:
    [materialNodes] (the nodes themselves change under [SetInput]) and
    [visited]. *)
Record Resolver := mkResolver {
  backendNodes : gmap string MaterialNode;
  visited : gset string
}.

(** A computation over the resolver state that lists the events it
    performed; [None] when the recursion budget is used up (the C++
    recursion has no bound of its own). *)
Definition M (A : Type) : Type :=
  Resolver → option (A * Resolver * list Event).

Definition ret {A : Type} (a : A) : M A := λ st, Some (a, st, []).

Definition bind {A B : Type} (m : M A) (f : A → M B) : M B :=
  λ st, match m st with
        | None => None
        | Some (a, st1, evs1) =>
            match f a st1 with
            | None => None
            | Some (b, st2, evs2) => Some (b, st2, evs1 ++ evs2)
            end
        end.

Definition emit (ev : Event) : M unit := λ st, Some (tt, st, [ev]).

Definition seqM {A B : Type} (m : M A) (k : M B) : M B := bind m (λ _, k).

(** [visited.insert(nodePath)], the start of the input-wiring step. *)
Definition markVisited (nodePath : SdfPath) : M unit :=
  λ st, Some (tt, mkResolver (backendNodes st) ({[nodePath]} ∪ visited st),
              [EvWire nodePath]).

(** [materialNode->SetInput(inputId, nodeOutput)] on the node object that
    [materialNodes] holds at [nodePath]. *)
Definition setInput (nodePath : SdfPath) (inputId : TfToken)
           (nodeOutput : VtValue) : M unit :=
  λ st, Some (tt,
              mkResolver (alter (λ n, SetInput n inputId nodeOutput) nodePath
                                (backendNodes st))
                         (visited st),
              [EvSetInput nodePath inputId nodeOutput]).

(** [materialNode->GetOutput(outputName)]; the node is in the map when
    this is reached. *)
Definition readOutput (nodePath : SdfPath) (outputName : TfToken)
  : M VtValue :=
  λ st, match backendNodes st !! nodePath with
        | Some materialNode =>
            Some (GetOutput materialNode outputName, st,
                  [EvGetOutput nodePath outputName])
        | None => Some (VtEmpty, st, [])
        end.

(** The loop over [node.inputConnections] (lines 546-561); [rec] is the
    recursive call. *)
Fixpoint wireInputs (rec : HdMaterialConnection2 → M VtValue)
         (nodePath : SdfPath)
         (inputs : list (TfToken * list HdMaterialConnection2)) : M unit :=
  match inputs with
  | [] => ret tt
  | (inputId, connections) :: rest =>
      match connections with
      | [] => wireInputs rec nodePath rest
      | [connection] =>
          bind (rec connection) (λ nodeOutput,
            seqM (if IsEmpty nodeOutput then ret tt
                  else setInput nodePath inputId nodeOutput)
                 (wireInputs rec nodePath rest))
      | _ :: _ :: _ =>
          seqM (emit (EvLog ConnectedArrayElements))
               (wireInputs rec nodePath rest)
      end
  end.

(** The branch for a node without backend node (lines 571-582). *)
Definition passThrough (rec : HdMaterialConnection2 → M VtValue)
           (node : HdMaterialNode2) : M VtValue :=
  match inputConnections node with
  | [] => ret VtEmpty
  | (_, connections) :: _ =>
      match connections with
      | [] => ret VtEmpty
      | [connection] => rec connection
      | _ :: _ :: _ => seqM (emit (EvLog ConnectedArrayElements)) (ret VtEmpty)
      end
  end.

(** [getNodeOutput]; every return is recorded with the value returned. *)
Fixpoint getNodeOutput (network : HdMaterialNetwork2) (fuel : nat)
         (nodeConnection : HdMaterialConnection2) : M VtValue :=
  match fuel with
  | 0 => λ _, None
  | S fuel' =>
      let nodePath := upstreamNode nodeConnection in
      bind
        match mapFind nodePath (nodes network) with
        | None =>
            seqM (emit (EvLog (InvalidConnection nodePath))) (ret VtEmpty)
        | Some node =>
            λ st,
              match backendNodes st !! nodePath with
              | Some _ =>
                  seqM (if bool_decide (nodePath ∈ visited st) then ret tt
                        else seqM (markVisited nodePath)
                                  (wireInputs (getNodeOutput network fuel')
                                              nodePath
                                              (inputConnections node)))
                       (readOutput nodePath
                                   (upstreamOutputName nodeConnection))
                       st
              | None => passThrough (getNodeOutput network fuel') node st
              end
        end
        (λ result, seqM (emit (EvReturn nodeConnection result)) (ret result))
  end.

(** [getTerminalOutput]. *)
Definition getTerminalOutput (network : HdMaterialNetwork2) (fuel : nat)
           (terminalName : TfToken) : M VtValue :=
  match mapFind terminalName (terminals network) with
  | None => ret VtEmpty
  | Some connection => getNodeOutput network fuel connection
  end.

(** Lines 595-597: volume, surface, displacement, in this order. *)
Definition resolveTerminals (network : HdMaterialNetwork2) (fuel : nat)
  : M (VtValue * VtValue * VtValue) :=
  bind (getTerminalOutput network fuel volumeToken) (λ volumeOutput,
  bind (getTerminalOutput network fuel surfaceToken) (λ surfaceOutput,
  bind (getTerminalOutput network fuel displacementToken)
       (λ displacementOutput,
  ret (volumeOutput, surfaceOutput, displacementOutput)))).

(** ** Material assembly *)

Definition getTerminalRprNode (terminalOutput : VtValue)
  : option nat * list Event :=
  match terminalOutput with
  | VtEmpty => (None, [])
  | VtMaterialNode n => (n, [])
  | _ => (None, [EvLog TerminalNotMaterialNode])
  end.

(** [std::string::c_str] read as a [const char*]: the text up to the
    first null character. *)
Fixpoint c_str (s : string) : string :=
  match s with
  | EmptyString => EmptyString
  | String ch rest =>
      if Ascii.eqb ch Ascii.zero then EmptyString else String ch (c_str rest)
  end.

(** The cast [rpr_uint(materialId)] of an [int]. *)
Definition rpr_uint (z : Z) : Z := z mod 2 ^ 32.

(** [RprUsdGraphBasedMaterial::Finalize]: the material and the value
    returned.  [cryptomatteName] is a [const char*] (the caller passes
    [c_str()], line 634), so [SetName] is given the text up to the first
    null character.  The status codes that [RPR_ERROR_CHECK] inspects
    come from the backend and are not modelled. *)
Definition Finalize (owned : gmap string MaterialNode)
           (context : BuilderContext)
           (surfaceOutput displacementOutput volumeOutput : VtValue)
           (cryptomatteName : string) (materialId : Z)
  : RprUsdMaterial MaterialNode * bool * list Event :=
  let '(volumeNode, evs1) := getTerminalRprNode volumeOutput in
  let '(surfaceNode, evs2) := getTerminalRprNode surfaceOutput in
  let '(displacementNode, evs3) := getTerminalRprNode displacementOutput in
  let evs4 :=
    match surfaceNode with
    | Some n =>
        (if (0 <=? materialId)%Z then [EvSetID n (rpr_uint materialId)]
         else []) ++ [EvSetName n (c_str cryptomatteName)]
    | None => []
    end in
  (mkMaterial MaterialNode surfaceNode displacementNode volumeNode
              (isShadowCatcher context) (isReflectionCatcher context)
              (uvPrimvarName context) (displacementScale context) owned,
   bool_decide (is_Some volumeNode) || bool_decide (is_Some surfaceNode)
   || bool_decide (is_Some displacementNode),
   evs1 ++ evs2 ++ evs3 ++ evs4).

(** Lines 599-632: the identifier (-1 when absent or not an [int]) and
    the name (the material path when absent or not a string) read from
    the parameters of the surface terminal's upstream node. *)
Definition surfaceNodeParameters (network : HdMaterialNetwork2)
  : option (list (TfToken * VtValue)) :=
  surfaceTerminal ← mapFind surfaceToken (terminals network);
  surfaceNode ← mapFind (upstreamNode surfaceTerminal) (nodes network);
  Some (parameters surfaceNode).

Definition materialRprId (network : HdMaterialNetwork2) : Z :=
  match surfaceNodeParameters network with
  | Some params =>
      match mapFind idToken params with
      | Some (VtInt z) => z
      | _ => (-1)%Z
      end
  | None => (-1)%Z
  end.

Definition cryptomatteName (materialId : SdfPath)
           (network : HdMaterialNetwork2) : string :=
  match surfaceNodeParameters network with
  | Some params =>
      match mapFind cryptomatteNameToken params with
      | Some (VtString s) => s
      | _ => materialId
      end
  | None => materialId
  end.

(** [CreateMaterialXFromUsdShade] (lines 331-401).  The material it makes
    retains the node as its surface node; its other members keep the
    values the base class gives them, taken to be null, false and
    empty. *)
Definition CreateMaterialXFromUsdShade (materialPath : SdfPath)
           (network : HdMaterialNetwork2) (context : BuilderContext)
  : option (RprUsdMaterial MaterialNode) :=
  match mapFind surfaceToken (terminals network) with
  | None => None
  | Some nodeConnection =>
      match mapFind (upstreamNode nodeConnection) (nodes network) with
      | None => None
      | Some terminalNode =>
          if mtlxSdrNode (nodeTypeId terminalNode) then
            match RprUsd_CreateRprMtlx materialPath network terminalNode
                                       context with
            | Some mtlxNode =>
                Some (mkMaterial MaterialNode (Some mtlxNode) None None
                                 false false "" VtEmpty ∅)
            | None => None
            end
          else None
      end
  end.

Definition emptyContext (b : Backend) : BuilderContext :=
  mkContext None false false "" VtEmpty b.

(** How a call of [CreateMaterial] that ends does so: it returns a
    material or [nullptr], or an exception leaves it. *)
Inductive Outcome :=
| Returned (material : option (RprUsdMaterial MaterialNode))
| Threw (e : Exception).

(** The part of [CreateMaterial] after the MaterialX attempt (lines
    434-634).  An exception of the merged node's constructor ends it
    before any terminal is resolved.  The nodes keep the pointer to the
    context they were made with; the context given to [Finalize] is the
    one the build of the nodes left, [SetInput] and [GetOutput] being
    typed without it. *)
Definition createGraphBasedMaterial (fuel : nat) (materialId : SdfPath)
           (network : HdMaterialNetwork2) (context : BuilderContext)
  : option (Outcome * list Event) :=
  let '(pass, thrown, evs1) := buildNodes network context in
  match thrown with
  | Some e => Some (Threw e, evs1)
  | None =>
      match resolveTerminals network fuel
              (mkResolver (materialNodes pass) ∅) with
      | None => None
      | Some (outputs, rs, evs2) =>
          let '(volumeOutput, surfaceOutput, displacementOutput) :=
            outputs in
          let '(out, ok, evs3) :=
            Finalize (backendNodes rs) (ctx pass) surfaceOutput
                     displacementOutput volumeOutput
                     (c_str (cryptomatteName materialId network))
                     (materialRprId network) in
          Some (Returned (if ok then Some out else None),
                evs1 ++ evs2 ++ evs3)
      end
  end.

(** Lines 428-432: the MaterialX attempt, skipped for a volume. *)
Definition usdShadeMtlxMaterial (materialId : SdfPath)
           (network : HdMaterialNetwork2) (isVolume : bool) (b : Backend)
  : option (RprUsdMaterial MaterialNode) :=
  if isVolume then None
  else CreateMaterialXFromUsdShade materialId network (emptyContext b).

(** The three nodes that [Finalize] reads off the resolved outputs
    (volume, surface, displacement). *)
Definition terminalNodes (outputs : VtValue * VtValue * VtValue)
  : option nat * option nat * option nat :=
  ((getTerminalRprNode outputs.1.1).1, (getTerminalRprNode outputs.1.2).1,
   (getTerminalRprNode outputs.2).1).

Definition anyTerminalNode (outputs : VtValue * VtValue * VtValue) : Prop :=
  is_Some (terminalNodes outputs).1.1 ∨ is_Some (terminalNodes outputs).1.2 ∨
  is_Some (terminalNodes outputs).2.

(** [CreateMaterial], on the network that
    [HdMaterialNetwork2ConvertFromHdMaterialNetworkMap] produced, with
    its [isVolume]: how the call ends (the material, [None] for
    [nullptr], or the exception) and the events; [None] when the
    recursion budget is used up.  The dump of the network under
    [RPR_USD_DEBUG_DUMP_MATERIALS] (lines 412-414) only prints and is left
    out. *)
Definition CreateMaterial (fuel : nat) (materialId : SdfPath)
           (network : HdMaterialNetwork2) (isVolume : bool) (b : Backend)
  : option (Outcome * list Event) :=
  match usdShadeMtlxMaterial materialId network isVolume b with
  | Some material => Some (Returned (Some material), [])
  | None =>
      createGraphBasedMaterial fuel materialId network (emptyContext b)
  end.

(** ** Reading the trace *)

(** The nodes whose input-wiring step was entered, in order. *)
Definition wiredOf (evs : list Event) : list SdfPath :=
  omap (λ ev, match ev with EvWire p => Some p | _ => None end) evs.

(** The identifiers given to [rprMaterialNodeSetID], with the node. *)
Definition idsSet (evs : list Event) : list (nat * Z) :=
  omap (λ ev, match ev with EvSetID n z => Some (n, z) | _ => None end) evs.

(** The diagnostics issued, the factory calls made and the merged nodes
    constructed, in order. *)
Definition logOf (evs : list Event) : list Diagnostic :=
  omap (λ ev, match ev with EvLog d => Some d | _ => None end) evs.

Definition factoryCalls (evs : list Event) : list (SdfPath * TfToken) :=
  omap (λ ev, match ev with EvFactory p t _ => Some (p, t) | _ => None end)
       evs.

Definition houdiniNodes (evs : list Event)
  : list (SdfPath * list (TfToken * VtValue)
          * option (list (TfToken * VtValue))) :=
  omap (λ ev, match ev with
              | EvHoudiniNode p s d => Some (p, s, d)
              | _ => None
              end) evs.

(** A run from [st] to [st'] with events [evs] wires each node at most
    once and none that was visited before; [visited] grows by the nodes
    wired; no backend node appears or disappears. *)
Definition wiresOnce (st st' : Resolver) (evs : list Event) : Prop :=
  NoDup (wiredOf evs) ∧
  (∀ p, p ∈ wiredOf evs → p ∉ visited st) ∧
  visited st' = visited st ∪ list_to_set (wiredOf evs) ∧
  dom (backendNodes st') = dom (backendNodes st).

Definition sound {A : Type} (m : M A) : Prop :=
  ∀ st a st' evs, m st = Some (a, st', evs) → wiresOnce st st' evs.

(** The events a resolution can perform; an input is set to non-empty
    values only. *)
Definition resolutionEvent (ev : Event) : Prop :=
  match ev with
  | EvWire _ | EvGetOutput _ _ | EvReturn _ _ | EvLog _ => True
  | EvSetInput _ _ v => IsEmpty v = false
  | _ => False
  end.

(** No input is ever set to an empty value. *)
Definition bindsNonEmpty (evs : list Event) : Prop :=
  Forall (λ ev, match ev with
                | EvSetInput _ _ v => IsEmpty v = false
                | _ => True
                end) evs.

(** Acyclic networks: every connection of a node leads to a node of
    smaller rank. *)
Definition ranked (network : HdMaterialNetwork2) (rank : SdfPath → nat)
  : Prop :=
  ∀ p node inputId connections c,
    mapFind p (nodes network) = Some node →
    (inputId, connections) ∈ inputConnections node →
    c ∈ connections →
    rank (upstreamNode c) < rank p.

(** ** Removing a pass-through node

    The network without node [B]: every connection that led to [B] leads
    to [cB] instead ([cB] being the one connection of [B]'s one input). *)
Definition rewire (B : SdfPath) (cB c : HdMaterialConnection2)
  : HdMaterialConnection2 :=
  if String.eqb (upstreamNode c) B then cB else c.

Definition rewireInputs (B : SdfPath) (cB : HdMaterialConnection2)
           (inputs : list (TfToken * list HdMaterialConnection2))
  : list (TfToken * list HdMaterialConnection2) :=
  (λ input : TfToken * list HdMaterialConnection2,
     (input.1, rewire B cB <$> input.2)) <$> inputs.

Definition rewireNode (B : SdfPath) (cB : HdMaterialConnection2)
           (node : HdMaterialNode2) : HdMaterialNode2 :=
  mkNode (nodeTypeId node) (parameters node)
         (rewireInputs B cB (inputConnections node)).

Fixpoint removeEntry (B : SdfPath) (cB : HdMaterialConnection2)
         (entries : list (SdfPath * HdMaterialNode2))
  : list (SdfPath * HdMaterialNode2) :=
  match entries with
  | [] => []
  | (p, node) :: rest =>
      if String.eqb p B then removeEntry B cB rest
      else (p, rewireNode B cB node) :: removeEntry B cB rest
  end.

Definition rewireTerminal (B : SdfPath) (cB : HdMaterialConnection2)
           (t : TfToken * HdMaterialConnection2)
  : TfToken * HdMaterialConnection2 :=
  (t.1, rewire B cB t.2).

Definition removeNode (B : SdfPath) (cB : HdMaterialConnection2)
           (network : HdMaterialNetwork2) : HdMaterialNetwork2 :=
  mkNetwork (removeEntry B cB (nodes network))
            (rewireTerminal B cB <$> terminals network).

(** The events of a run without the returns of the calls that led to
    [B]: the network without [B] does not make these calls. *)
Definition returnsTo (B : SdfPath) (ev : Event) : bool :=
  match ev with
  | EvReturn c _ => String.eqb (upstreamNode c) B
  | _ => false
  end.

Definition dropReturnsTo (B : SdfPath) (evs : list Event) : list Event :=
  filter (λ ev, negb (returnsTo B ev)) evs.

(** The value of a run. *)
Definition valueOf (r : option (VtValue * Resolver * list Event))
  : option VtValue :=
  (λ x, x.1.1) <$> r.

(** The claim of C2 as the specification words it: a node without
    backend node that has input connections resolves to what its first
    input connection resolves to. *)
Definition resolvesThroughFirst (network : HdMaterialNetwork2) (fuel : nat)
           (c : HdMaterialConnection2) (st : Resolver) : Prop :=
  ∀ node i c0 cs rest,
    mapFind (upstreamNode c) (nodes network) = Some node →
    backendNodes st !! upstreamNode c = None →
    inputConnections node = (i, c0 :: cs) :: rest →
    valueOf (getNodeOutput network (S fuel) c st) =
    valueOf (getNodeOutput network fuel c0 st).

(** ** The per-node pass, read from outside *)

(** Is the entry a part of the composite family, and of which kind: its
    type has no factory and the predicate holds for its path. *)
Definition housePart (entry : SdfPath * HdMaterialNode2) : option bool :=
  match registeredFactory (nodeTypeId entry.2) with
  | Some _ => None
  | None => IsHoudiniPrincipledShaderHydraNode entry.1
  end.

(** The surface parts and the displacement parts among the entries, in
    iteration order. *)
Definition surfaceParts (entries : list (SdfPath * HdMaterialNode2))
  : list (SdfPath * list (TfToken * VtValue)) :=
  omap (λ entry : SdfPath * HdMaterialNode2,
          match housePart entry with
          | Some true => Some (entry.1, parameters entry.2)
          | _ => None
          end) entries.

Definition dispParts (entries : list (SdfPath * HdMaterialNode2))
  : list (list (TfToken * VtValue)) :=
  omap (λ entry : SdfPath * HdMaterialNode2,
          match housePart entry with
          | Some false => Some (parameters entry.2)
          | _ => None
          end) entries.

(** The factory calls a pass over the entries has to make. *)
Definition registeredEntries (entries : list (SdfPath * HdMaterialNode2))
  : list (SdfPath * TfToken) :=
  omap (λ entry : SdfPath * HdMaterialNode2,
          match registeredFactory (nodeTypeId entry.2) with
          | Some _ => Some (entry.1, nodeTypeId entry.2)
          | None => None
          end) entries.

Definition isCreated (res : FactoryResult) : bool :=
  match res with Created _ => true | _ => false end.

(** Two states of the pass that differ at most in [currentNodePath]:
    they are equal once that pointer is reset. *)
Definition forgetCurrent (st : Pass) : Pass :=
  mkPass (mkContext None (isShadowCatcher (ctx st))
                    (isReflectionCatcher (ctx st)) (uvPrimvarName (ctx st))
                    (displacementScale (ctx st)) (backend (ctx st)))
         (materialNodes st) (houdiniSurface st) (houdiniDisp st).

Definition passAgree (a b : Pass) : Prop := forgetCurrent a = forgetCurrent b.

Definition withParts (s : option (SdfPath * list (TfToken * VtValue)))
           (d : option (list (TfToken * VtValue))) (st : Pass) : Pass :=
  mkPass (ctx st) (materialNodes st) s d.

(** The claims of C7 and C9 as the specification words them. *)
Definition everyFailureLogged (network : HdMaterialNetwork2)
           (c : BuilderContext) : Prop :=
  ∀ p t res,
    EvFactory p t res ∈ (buildNodes network c).2 → isCreated res = false →
    ∃ d, d ∈ logOf (buildNodes network c).2 ∧ aboutNode d = Some p.

Definition detectedMeansMerged (network : HdMaterialNetwork2)
           (c : BuilderContext) : Prop :=
  (∃ entry, entry ∈ nodes network ∧ is_Some (housePart entry)) →
  length (houdiniNodes (buildNodes network c).2) = 1.

(** The claims of C3 and C8 as the specification words them. *)
Definition successIffTerminalNode (fuel : nat) (materialId : SdfPath)
           (network : HdMaterialNetwork2) (isVolume : bool) (b : Backend)
  : Prop :=
  ∀ mat evs,
    CreateMaterial fuel materialId network isVolume b =
      Some (Returned mat, evs) →
    (is_Some mat ↔
     ∃ outputs st' evs',
       resolveTerminals network fuel
         (mkResolver
            (materialNodes (buildNodes network (emptyContext b)).1.1) ∅) =
         Some (outputs, st', evs') ∧
       anyTerminalNode outputs).

Definition integerIdTagged (fuel : nat) (materialId : SdfPath)
           (network : HdMaterialNetwork2) (isVolume : bool) (b : Backend)
  : Prop :=
  ∀ mat evs params z m n,
    CreateMaterial fuel materialId network isVolume b =
      Some (Returned mat, evs) →
    surfaceNodeParameters network = Some params →
    mapFind idToken params = Some (VtInt z) →
    mat = Some m → m_surfaceNode m = Some n →
    (n, z) ∈ idsSet evs.

(** A computation whose events are all events of a resolution. *)
Definition quiet {A : Type} (m : M A) : Prop :=
  ∀ st a st' evs, m st = Some (a, st', evs) → Forall resolutionEvent evs.

(** A computation that returns from every state. *)
Definition total {A : Type} (m : M A) : Prop := ∀ st, is_Some (m st).

(** The claim of C1 as the specification words it: on a first visit
    every input with one connection is bound. *)
Definition everyInputBound (network : HdMaterialNetwork2) (fuel : nat)
           (c : HdMaterialConnection2) (st : Resolver) : Prop :=
  ∀ node n v st' evs,
    mapFind (upstreamNode c) (nodes network) = Some node →
    backendNodes st !! upstreamNode c = Some n →
    upstreamNode c ∉ visited st →
    getNodeOutput network fuel c st = Some (v, st', evs) →
    ∀ i conn, (i, [conn]) ∈ inputConnections node →
              ∃ w, EvSetInput (upstreamNode c) i w ∈ evs.

(** ** Further readings of a build *)

(** The names given to [SetName], with the node. *)
Definition namesSet (evs : list Event) : list (nat * string) :=
  omap (λ ev, match ev with EvSetName n s => Some (n, s) | _ => None end)
       evs.

(** The backend nodes whose wiring step has not been entered. *)
Definition unvisited (st : Resolver) : nat :=
  size (dom (backendNodes st) ∖ visited st).

(** Chains of nodes without backend node end: along the first input of
    such a node, when it has exactly one connection, the rank goes
    down.  Nothing is asked of the nodes in [owned], those with a
    backend node. *)
Definition chainsEnd (network : HdMaterialNetwork2) (owned : gset string)
           (rank : SdfPath → nat) : Prop :=
  ∀ p node i c rest,
    mapFind p (nodes network) = Some node → p ∉ owned →
    inputConnections node = (i, [c]) :: rest →
    rank (upstreamNode c) < rank p.

(** A set of nodes without backend node that the first inputs do not
    leave. *)
Definition passThroughLoop (network : HdMaterialNetwork2) (st : Resolver)
           (P : gset string) : Prop :=
  ∀ p, p ∈ P →
       ∃ node i c rest,
         mapFind p (nodes network) = Some node ∧
         backendNodes st !! p = None ∧
         inputConnections node = (i, [c]) :: rest ∧
         upstreamNode c ∈ P.

(** A computation returns from the states over the backend nodes
    [owned] with at most [K] of them unvisited. *)
Definition totalBelow {A : Type} (owned : gset string) (K : nat) (m : M A)
  : Prop :=
  ∀ st, dom (backendNodes st) = owned → unvisited st ≤ K → is_Some (m st).

(** Every value bound in [evs] is the non-empty value that one
    connection of that input resolved to, the input having no other, and
    is bound to a node of [W] or to one that [evs] wires. *)
Definition boundFromConnections (network : HdMaterialNetwork2)
           (W : gset string) (evs : list Event) : Prop :=
  ∀ p i v,
    EvSetInput p i v ∈ evs →
    (p ∈ W ∨ p ∈ wiredOf evs) ∧ IsEmpty v = false ∧
    ∃ node c, mapFind p (nodes network) = Some node ∧
              (i, [c]) ∈ inputConnections node ∧ EvReturn c v ∈ evs.

(** A computation that binds as above and leaves alone every backend
    node outside [W] that it does not wire. *)
Definition wiresLocally {A : Type} (network : HdMaterialNetwork2)
           (W : gset string) (m : M A) : Prop :=
  ∀ st a st' evs,
    m st = Some (a, st', evs) →
    boundFromConnections network W evs ∧
    ∀ q, q ∉ W → q ∉ wiredOf evs →
         backendNodes st' !! q = backendNodes st !! q.

(** ** The visited set *)

Lemma visited_union_nil (X : gset string) : X = X ∪ list_to_set [].
Proof. tidy. set_solver. Qed.

Lemma visited_union_app (X : gset string) (l1 l2 : list string) :
  X ∪ list_to_set l1 ∪ list_to_set l2 = X ∪ list_to_set (l1 ++ l2).
Proof. tidy. set_solver. Qed.

Lemma visited_union_cons (X : gset string) (p : string) (l : list string) :
  {[p]} ∪ X ∪ list_to_set l = X ∪ list_to_set (p :: l).
Proof. tidy. set_solver. Qed.

Lemma visited_fresh_l (X Y : gset string) (p : string) :
  p ∉ X ∪ Y → p ∉ X.
Proof. tidy. set_solver. Qed.

Lemma visited_fresh_r (X Y : gset string) (p : string) :
  p ∉ X ∪ Y → p ∉ Y.
Proof. tidy. set_solver. Qed.

Lemma visited_self (X : gset string) (p : string) : p ∈ {[p]} ∪ X.
Proof. tidy. set_solver. Qed.

(** ** Lemmas on the monad *)

Lemma bind_Some {A B : Type} (m : M A) (f : A → M B) st b st2 evs :
  bind m f st = Some (b, st2, evs) ↔
  ∃ a st1 e1 e2, m st = Some (a, st1, e1) ∧ f a st1 = Some (b, st2, e2) ∧
                 evs = e1 ++ e2.
Proof.
  unfold bind. split.
  - destruct (m st) as [[[a st1] e1]|]; [|done].
    destruct (f a st1) as [[[b' st2'] e2]|] eqn:Ef; [|done].
    intros [= <- <- <-]. by exists a, st1, e1, e2.
  - intros (a & st1 & e1 & e2 & -> & -> & ->). done.
Qed.

Lemma seqM_Some {A B : Type} (m : M A) (k : M B) st b st2 evs :
  seqM m k st = Some (b, st2, evs) ↔
  ∃ a st1 e1 e2, m st = Some (a, st1, e1) ∧ k st1 = Some (b, st2, e2) ∧
                 evs = e1 ++ e2.
Proof. apply bind_Some. Qed.

Lemma wiredOf_app (a b : list Event) :
  wiredOf (a ++ b) = wiredOf a ++ wiredOf b.
Proof. apply omap_app. Qed.

Lemma wiresOnce_refl st : wiresOnce st st [].
Proof.
  split; [constructor|]. split; [intros p Hp; by apply elem_of_nil in Hp|].
  split; [|done]. apply visited_union_nil.
Qed.

Lemma wiresOnce_trans st st1 st2 e1 e2 :
  wiresOnce st st1 e1 → wiresOnce st1 st2 e2 → wiresOnce st st2 (e1 ++ e2).
Proof.
  intros (Hn1 & Hf1 & Hv1 & Hd1) (Hn2 & Hf2 & Hv2 & Hd2).
  unfold wiresOnce. rewrite wiredOf_app. split; [|split; [|split]].
  - apply NoDup_app. split; [done|]. split; [|done].
    intros p Hp1 Hp2. apply Hf2 in Hp2. apply Hp2. rewrite Hv1.
    apply elem_of_union_r. by apply elem_of_list_to_set.
  - intros p [Hp|Hp]%elem_of_app; [by apply Hf1|].
    apply Hf2 in Hp. rewrite Hv1 in Hp. by eapply visited_fresh_l.
  - by rewrite Hv2, Hv1, visited_union_app.
  - by rewrite Hd2.
Qed.

Lemma sound_ret {A : Type} (a : A) : sound (ret a).
Proof. intros st a' st' evs [= <- <- <-]. apply wiresOnce_refl. Qed.

Lemma sound_bind {A B : Type} (m : M A) (f : A → M B) :
  sound m → (∀ a, sound (f a)) → sound (bind m f).
Proof.
  intros Hm Hf st b st2 evs (a & st1 & e1 & e2 & H1 & H2 & ->)%bind_Some.
  eapply wiresOnce_trans; [by eapply Hm|by eapply Hf].
Qed.

Lemma sound_seqM {A B : Type} (m : M A) (k : M B) :
  sound m → sound k → sound (seqM m k).
Proof. intros Hm Hk. by apply sound_bind. Qed.

Lemma sound_log d : sound (emit (EvLog d)).
Proof. intros st a st' evs [= <- <- <-]. apply wiresOnce_refl. Qed.

Lemma sound_return c v : sound (emit (EvReturn c v)).
Proof. intros st a st' evs [= <- <- <-]. apply wiresOnce_refl. Qed.

Lemma sound_setInput p i v : sound (setInput p i v).
Proof.
  intros st a st' evs [= <- <- <-]. split; [constructor|].
  split; [intros q Hq; by apply elem_of_nil in Hq|].
  split; simpl; [apply visited_union_nil|]. apply dom_alter_L.
Qed.

Lemma sound_readOutput p out : sound (readOutput p out).
Proof.
  intros st a st' evs. unfold readOutput.
  destruct (backendNodes st !! p); intros [= <- <- <-]; apply wiresOnce_refl.
Qed.

(** ** Wiring happens at most once *)

Lemma sound_wireInputs rec p inputs :
  (∀ c, sound (rec c)) → sound (wireInputs rec p inputs).
Proof.
  intros Hrec. induction inputs as [|[i [|c [|c' cs]]] rest IH]; simpl.
  - apply sound_ret.
  - exact IH.
  - apply sound_bind; [apply Hrec|]. intros v. apply sound_seqM; [|exact IH].
    destruct (IsEmpty v); [apply sound_ret|apply sound_setInput].
  - apply sound_seqM; [apply sound_log|exact IH].
Qed.

Lemma sound_passThrough rec node :
  (∀ c, sound (rec c)) → sound (passThrough rec node).
Proof.
  intros Hrec. unfold passThrough.
  destruct (inputConnections node) as [|[i [|c [|c' cs]]] rest].
  - apply sound_ret.
  - apply sound_ret.
  - apply Hrec.
  - apply sound_seqM; [apply sound_log|apply sound_ret].
Qed.

(** Entering the wiring step of a node not visited yet, then running a
    sound computation. *)
Lemma sound_first_visit {A : Type} p (k : M A) st a st' evs :
  sound k → p ∉ visited st →
  seqM (markVisited p) k st = Some (a, st', evs) → wiresOnce st st' evs.
Proof.
  intros Hk Hp (u & st1 & e1 & e2 & Hm & Hrun & ->)%seqM_Some.
  injection Hm as <- <- <-. apply Hk in Hrun.
  destruct Hrun as (Hn & Hf & Hv & Hd). simpl in *.
  split; [|split; [|split]]; simpl.
  - constructor; [|done]. intros Hin. apply Hf in Hin.
    apply Hin, visited_self.
  - intros q [->|Hq]%elem_of_cons; [done|]. apply Hf in Hq.
    by eapply visited_fresh_r.
  - rewrite Hv. apply visited_union_cons.
  - done.
Qed.

Lemma sound_getNodeOutput network fuel c : sound (getNodeOutput network fuel c).
Proof.
  revert c. induction fuel as [|fuel IH]; intros c; [by intros st a st' evs|].
  simpl. apply sound_bind.
  2:{ intros v. apply sound_seqM; [apply sound_return|apply sound_ret]. }
  destruct (mapFind _ _) as [node|].
  2:{ apply sound_seqM; [apply sound_log|apply sound_ret]. }
  intros st a st' evs.
  destruct (backendNodes st !! upstreamNode c) as [n|].
  2:{ by apply sound_passThrough. }
  case_bool_decide as Hv.
  - apply sound_seqM; [apply sound_ret|apply sound_readOutput].
  - intros (u & st1 & e1 & e2 & H1 & H2 & ->)%seqM_Some.
    eapply wiresOnce_trans; [|by eapply sound_readOutput].
    eapply sound_first_visit; [|exact Hv|exact H1].
    by apply sound_wireInputs.
Qed.

Lemma sound_getTerminalOutput network fuel name :
  sound (getTerminalOutput network fuel name).
Proof.
  unfold getTerminalOutput. destruct (mapFind _ _).
  - apply sound_getNodeOutput.
  - apply sound_ret.
Qed.

Lemma sound_resolveTerminals network fuel :
  sound (resolveTerminals network fuel).
Proof.
  unfold resolveTerminals.
  repeat (apply sound_bind; [apply sound_getTerminalOutput|intros ?]).
  apply sound_ret.
Qed.

(** ** The events of a resolution *)

Lemma quiet_ret {A : Type} (a : A) : quiet (ret a).
Proof. intros st a' st' evs [= <- <- <-]. constructor. Qed.

Lemma quiet_bind {A B : Type} (m : M A) (f : A → M B) :
  quiet m → (∀ a, quiet (f a)) → quiet (bind m f).
Proof.
  intros Hm Hf st b st2 evs (a & st1 & e1 & e2 & H1 & H2 & ->)%bind_Some.
  apply Forall_app; split; [by eapply Hm|by eapply Hf].
Qed.

Lemma quiet_emit ev : resolutionEvent ev → quiet (emit ev).
Proof. intros H st a st' evs [= <- <- <-]. by repeat constructor. Qed.

Lemma quiet_wireInputs rec p inputs :
  (∀ c, quiet (rec c)) → quiet (wireInputs rec p inputs).
Proof.
  intros Hrec. induction inputs as [|[i [|c [|c' cs]]] rest IH]; simpl.
  - apply quiet_ret.
  - exact IH.
  - apply quiet_bind; [apply Hrec|]. intros v. apply quiet_bind; [|done].
    destruct (IsEmpty v) eqn:Ev; [apply quiet_ret|].
    intros st a st' evs [= <- <- <-]. by repeat constructor.
  - apply quiet_bind; [by apply quiet_emit|done].
Qed.

Lemma quiet_getNodeOutput network fuel c : quiet (getNodeOutput network fuel c).
Proof.
  revert c. induction fuel as [|fuel IH]; intros c; [by intros st a st' evs|].
  simpl. apply quiet_bind.
  2:{ intros v. apply quiet_bind; [by apply quiet_emit|intros; apply quiet_ret]. }
  destruct (mapFind _ _) as [node|].
  2:{ apply quiet_bind; [by apply quiet_emit|intros; apply quiet_ret]. }
  intros st a st' evs.
  destruct (backendNodes st !! upstreamNode c) as [n|].
  - apply quiet_bind.
    + case_bool_decide; [apply quiet_ret|].
      apply quiet_bind; [|intros; by apply quiet_wireInputs].
      intros s a0 s' e [= <- <- <-]. by repeat constructor.
    + intros _ s a0 s' e. unfold readOutput.
      destruct (backendNodes s !! _); intros [= <- <- <-];
        by repeat constructor.
  - unfold passThrough.
    destruct (inputConnections node) as [|[i [|c0 [|c' cs]]] rest].
    + apply quiet_ret.
    + apply quiet_ret.
    + apply IH.
    + apply quiet_bind; [by apply quiet_emit|intros; apply quiet_ret].
Qed.

(** ** Termination on acyclic networks *)

Lemma total_ret {A : Type} (a : A) : total (ret a).
Proof. intros st. by eexists. Qed.

Lemma total_emit ev : total (emit ev).
Proof. intros st. by eexists. Qed.

Lemma total_bind {A B : Type} (m : M A) (f : A → M B) :
  total m → (∀ a, total (f a)) → total (bind m f).
Proof.
  intros Hm Hf st. unfold bind.
  destruct (Hm st) as [[[a st1] e1] ->].
  destruct (Hf a st1) as [[[b st2] e2] ->]. by eexists.
Qed.

Lemma total_setInput p i v : total (setInput p i v).
Proof. intros st. by eexists. Qed.

Lemma total_readOutput p out : total (readOutput p out).
Proof.
  intros st. unfold readOutput. destruct (backendNodes st !! p); by eexists.
Qed.

Lemma total_wireInputs rec p inputs :
  (∀ i connections c, (i, connections) ∈ inputs → c ∈ connections →
                      total (rec c)) →
  total (wireInputs rec p inputs).
Proof.
  induction inputs as [|[i [|c [|c' cs]]] rest IH]; intros Hrec; simpl.
  - apply total_ret.
  - apply IH. intros j cs c Hin. apply (Hrec j cs c). by right.
  - apply total_bind.
    { apply (Hrec i [c] c); [by left|by left]. }
    intros v. apply total_bind.
    { destruct (IsEmpty v); [apply total_ret|apply total_setInput]. }
    intros _. apply IH. intros j cs c0 Hin. apply (Hrec j cs c0). by right.
  - apply total_bind; [apply total_emit|]. intros _.
    apply IH. intros j cs0 c0 Hin. apply (Hrec j cs0 c0). by right.
Qed.

Lemma total_passThrough rec node :
  (∀ i connections c, (i, connections) ∈ inputConnections node →
                      c ∈ connections → total (rec c)) →
  total (passThrough rec node).
Proof.
  intros Hrec. unfold passThrough.
  destruct (inputConnections node) as [|[i [|c [|c' cs]]] rest].
  - apply total_ret.
  - apply total_ret.
  - apply (Hrec i [c] c); by left.
  - apply total_bind; [apply total_emit|intros; apply total_ret].
Qed.

(** On a network without cycles the resolution of a connection returns,
    given a budget above the rank of the node it leads to. *)
Lemma getNodeOutput_total network rank fuel c :
  ranked network rank → rank (upstreamNode c) < fuel →
  total (getNodeOutput network fuel c).
Proof.
  intros Hr. revert c. induction fuel as [|fuel IH]; intros c Hc; [lia|].
  simpl. apply total_bind.
  2:{ intros v. apply total_bind; [apply total_emit|intros; apply total_ret]. }
  destruct (mapFind _ _) as [node|] eqn:Hnode.
  2:{ apply total_bind; [apply total_emit|intros; apply total_ret]. }
  assert (∀ i connections c0, (i, connections) ∈ inputConnections node →
            c0 ∈ connections → total (getNodeOutput network fuel c0)) as Hin.
  { intros i cs c0 Hi Hc0. apply IH.
    pose proof (Hr _ _ _ _ _ Hnode Hi Hc0). lia. }
  intros st. destruct (backendNodes st !! upstreamNode c) as [n|].
  - apply total_bind; [|intros; apply total_readOutput].
    case_bool_decide; [apply total_ret|].
    apply total_bind; [by eexists|]. intros _. by apply total_wireInputs.
  - by apply total_passThrough.
Qed.

(** More budget does not change a result. *)
Lemma wireInputs_mono (rec rec' : HdMaterialConnection2 → M VtValue) p inputs :
  (∀ c st r, rec c st = Some r → rec' c st = Some r) →
  ∀ st r, wireInputs rec p inputs st = Some r →
          wireInputs rec' p inputs st = Some r.
Proof.
  intros Hrec. induction inputs as [|[i [|c [|c' cs]]] rest IH]; simpl.
  - done.
  - exact IH.
  - intros st [[u st'] evs] (v & st1 & e1 & e2 & H1 & H2 & ->)%bind_Some.
    apply bind_Some. exists v, st1, e1, e2. split; [by apply Hrec|].
    split; [|done].
    apply seqM_Some in H2 as (u' & st2 & e3 & e4 & H3 & H4 & ->).
    apply seqM_Some. exists u', st2, e3, e4. split; [done|].
    split; [by apply IH|done].
  - intros st [[u st'] evs] (u' & st1 & e1 & e2 & H1 & H2 & ->)%seqM_Some.
    apply seqM_Some. exists u', st1, e1, e2. split; [done|].
    split; [by apply IH|done].
Qed.

Lemma getNodeOutput_mono network fuel c st r :
  getNodeOutput network fuel c st = Some r →
  getNodeOutput network (S fuel) c st = Some r.
Proof.
  revert c st r. induction fuel as [|fuel IH]; intros c st r; [done|].
  remember (S fuel) as f eqn:Hf. rewrite Hf at 1. simpl.
  destruct r as [[v st'] evs].
  intros (w & st1 & e1 & e2 & H1 & H2 & ->)%bind_Some.
  apply bind_Some. exists w, st1, e1, e2. split; [|done]. clear H2.
  destruct (mapFind _ _) as [node|]; [|done].
  destruct (backendNodes st !! upstreamNode c) as [n|].
  - apply seqM_Some in H1 as (u & st2 & e3 & e4 & H3 & H4 & ->).
    apply seqM_Some. exists u, st2, e3, e4. split; [|done].
    case_bool_decide; [done|].
    apply seqM_Some in H3 as (u' & st3 & e5 & e6 & H5 & H6 & ->).
    apply seqM_Some. exists u', st3, e5, e6. split; [done|].
    split; [|done]. eapply wireInputs_mono; [|exact H6].
    intros c0 s r0. subst f. apply IH.
  - unfold passThrough in *.
    destruct (inputConnections node) as [|[i [|c0 [|c' cs]]] rest];
      try done.
    subst f. by apply IH.
Qed.

(** ** The two kinds of visit *)

(** A call that returns ends by recording the value it returns. *)
Lemma getNodeOutput_returns network fuel c st v st' evs :
  getNodeOutput network fuel c st = Some (v, st', evs) →
  ∃ evs0, evs = evs0 ++ [EvReturn c v].
Proof.
  destruct fuel as [|fuel]; [done|]. simpl.
  intros (w & st1 & e1 & e2 & H1 & H2 & ->)%bind_Some.
  apply seqM_Some in H2 as (u & st2 & e3 & e4 & H3 & H4 & ->).
  injection H3 as <- <- <-. injection H4 as <- <- <-. by exists e1.
Qed.

(** Every input with exactly one connection is resolved; the value is
    bound unless it is empty. *)
Lemma wireInputs_resolves rec p inputs st u st' evs :
  (∀ c s v s' e, rec c s = Some (v, s', e) → EvReturn c v ∈ e) →
  wireInputs rec p inputs st = Some (u, st', evs) →
  ∀ i c, (i, [c]) ∈ inputs →
         ∃ v, EvReturn c v ∈ evs ∧
              (IsEmpty v = false → EvSetInput p i v ∈ evs).
Proof.
  intros Hrec. revert st evs.
  induction inputs as [|[j [|c0 [|c' cs]]] rest IH]; simpl; intros st evs Hrun i c Hin.
  - by apply elem_of_nil in Hin.
  - apply elem_of_cons in Hin as [[=]|Hin]. by eapply IH.
  - apply bind_Some in Hrun as (v & st1 & e1 & e2 & H1 & H2 & ->).
    apply seqM_Some in H2 as (u' & st2 & e3 & e4 & H3 & H4 & ->).
    apply elem_of_cons in Hin as [[= -> ->]|Hin].
    + exists v. split.
      * apply elem_of_app. left. by eapply Hrec.
      * intros Hv. rewrite Hv in H3. injection H3 as <- <- <-.
        apply elem_of_app. right. apply elem_of_app. left. by left.
    + destruct (IH _ _ H4 i c Hin) as (w & Hw & Hb). exists w.
      split; [|intros Hv; specialize (Hb Hv)];
        apply elem_of_app; right; apply elem_of_app; by right.
  - apply seqM_Some in Hrun as (u' & st1 & e1 & e2 & H1 & H2 & ->).
    apply elem_of_cons in Hin as [[=]|Hin].
    destruct (IH _ _ H2 i c Hin) as (w & Hw & Hb). exists w.
    split; [|intros Hv; specialize (Hb Hv)]; apply elem_of_app; by right.
Qed.

(** A later visit reads the output and does nothing else. *)
Lemma getNodeOutput_later_visit network fuel c st node n :
  mapFind (upstreamNode c) (nodes network) = Some node →
  backendNodes st !! upstreamNode c = Some n →
  upstreamNode c ∈ visited st →
  getNodeOutput network (S fuel) c st =
  Some (GetOutput n (upstreamOutputName c), st,
        [EvGetOutput (upstreamNode c) (upstreamOutputName c);
         EvReturn c (GetOutput n (upstreamOutputName c))]).
Proof.
  intros Hnode Hn Hv. simpl. unfold bind at 1. rewrite Hnode, Hn.
  rewrite bool_decide_eq_true_2 by done.
  unfold seqM, bind, ret, readOutput, emit. by rewrite Hn.
Qed.

(** A first visit enters the wiring step, resolves the inputs, and reads
    the output last. *)
Lemma getNodeOutput_first_visit network fuel c st node n v st' evs :
  mapFind (upstreamNode c) (nodes network) = Some node →
  backendNodes st !! upstreamNode c = Some n →
  upstreamNode c ∉ visited st →
  getNodeOutput network (S fuel) c st = Some (v, st', evs) →
  ∃ evsIn n',
    evs = EvWire (upstreamNode c) :: evsIn ++
          [EvGetOutput (upstreamNode c) (upstreamOutputName c);
           EvReturn c v] ∧
    wireInputs (getNodeOutput network fuel) (upstreamNode c)
               (inputConnections node)
               (mkResolver (backendNodes st)
                           ({[upstreamNode c]} ∪ visited st)) =
      Some (tt, st', evsIn) ∧
    backendNodes st' !! upstreamNode c = Some n' ∧
    v = GetOutput n' (upstreamOutputName c).
Proof.
  intros Hnode Hn Hv. simpl.
  intros (w & st1 & e1 & e2 & H1 & H2 & ->)%bind_Some.
  apply seqM_Some in H2 as (u & st2 & e3 & e4 & H3 & H4 & ->).
  injection H3 as <- <- <-. injection H4 as <- <- <-.
  rewrite Hnode, Hn in H1. rewrite bool_decide_eq_false_2 in H1 by done.
  apply seqM_Some in H1 as (u & st2 & e3 & e4 & H3 & H4 & ->).
  apply seqM_Some in H3 as (u' & st3 & e5 & e6 & H5 & H6 & ->).
  injection H5 as <- <- <-. destruct u.
  pose proof H6 as Hs. apply sound_wireInputs in Hs;
    [|intros; apply sound_getNodeOutput].
  destruct Hs as (_ & _ & _ & Hdom). simpl in Hdom.
  assert (is_Some (backendNodes st2 !! upstreamNode c)) as [n' Hn'].
  { apply elem_of_dom. rewrite Hdom. apply elem_of_dom. by eexists. }
  unfold readOutput in H4. rewrite Hn' in H4. injection H4 as <- <- <-.
  exists e6, n'. split; [|done]. simpl. by rewrite <-!app_assoc.
Qed.

(** C1, as the code has it.  A resolution that returns has entered the
    wiring step of each node at most once and of no node visited before,
    and has bound no empty value.  When it leads to a node with a
    backend node: on a later visit it only reads the output; on the
    first visit it enters the wiring step, resolves every input that has
    exactly one connection, binds the value resolved unless it is empty,
    and reads the output after that.  The three terminals share the
    visited set, so the same holds for them together. *)
Theorem getNodeOutput_wires_once network :
  (∀ fuel c st v st' evs,
     getNodeOutput network fuel c st = Some (v, st', evs) →
     NoDup (wiredOf evs) ∧
     (∀ p, p ∈ wiredOf evs → p ∉ visited st) ∧
     visited st' = visited st ∪ list_to_set (wiredOf evs) ∧
     bindsNonEmpty evs) ∧
  (∀ fuel c st node n,
     mapFind (upstreamNode c) (nodes network) = Some node →
     backendNodes st !! upstreamNode c = Some n →
     upstreamNode c ∈ visited st →
     getNodeOutput network (S fuel) c st =
     Some (GetOutput n (upstreamOutputName c), st,
           [EvGetOutput (upstreamNode c) (upstreamOutputName c);
            EvReturn c (GetOutput n (upstreamOutputName c))])) ∧
  (∀ fuel c st node n v st' evs,
     mapFind (upstreamNode c) (nodes network) = Some node →
     backendNodes st !! upstreamNode c = Some n →
     upstreamNode c ∉ visited st →
     getNodeOutput network (S fuel) c st = Some (v, st', evs) →
     ∃ evsIn n',
       evs = EvWire (upstreamNode c) :: evsIn ++
             [EvGetOutput (upstreamNode c) (upstreamOutputName c);
              EvReturn c v] ∧
       backendNodes st' !! upstreamNode c = Some n' ∧
       v = GetOutput n' (upstreamOutputName c) ∧
       ∀ i conn, (i, [conn]) ∈ inputConnections node →
                 ∃ w, EvReturn conn w ∈ evsIn ∧
                      (IsEmpty w = false →
                       EvSetInput (upstreamNode c) i w ∈ evsIn)) ∧
  (∀ fuel owned outputs st' evs,
     resolveTerminals network fuel (mkResolver owned ∅) =
       Some (outputs, st', evs) →
     NoDup (wiredOf evs)).
Proof.
  split; [|split; [|split]].
  - intros fuel c st v st' evs Hrun.
    destruct (sound_getNodeOutput _ _ _ _ _ _ _ Hrun) as (? & ? & ? & _).
    repeat split; try done.
    eapply Forall_impl; [by eapply quiet_getNodeOutput|].
    by intros [].
  - intros. by eapply getNodeOutput_later_visit.
  - intros fuel c st node n v st' evs Hnode Hn Hv Hrun.
    destruct (getNodeOutput_first_visit _ _ _ _ _ _ _ _ _ Hnode Hn Hv Hrun)
      as (evsIn & n' & -> & Hw & Hn' & ->).
    exists evsIn, n'. repeat split; try done.
    eapply wireInputs_resolves; [|exact Hw].
    intros c0 s w s' e Hc0.
    destruct (getNodeOutput_returns _ _ _ _ _ _ _ Hc0) as (e0 & ->).
    apply elem_of_app. right. by left.
  - intros fuel owned outputs st' evs Hrun.
    by destruct (sound_resolveTerminals _ _ _ _ _ _ Hrun) as (? & _).
Qed.

(** ** Pass-through *)

Lemma dropReturnsTo_app B (a b : list Event) :
  dropReturnsTo B (a ++ b) = dropReturnsTo B a ++ dropReturnsTo B b.
Proof. apply filter_app. Qed.

Lemma dropReturnsTo_return_to B c v :
  upstreamNode c = B → dropReturnsTo B [EvReturn c v] = [].
Proof.
  intros <-. unfold dropReturnsTo. rewrite filter_cons. simpl.
  by rewrite String.eqb_refl.
Qed.

Lemma dropReturnsTo_return_other B c v :
  upstreamNode c ≠ B → dropReturnsTo B [EvReturn c v] = [EvReturn c v].
Proof.
  intros H. unfold dropReturnsTo. rewrite filter_cons. simpl.
  by rewrite (proj2 (String.eqb_neq _ _) H).
Qed.

Lemma rewire_other B cB c : upstreamNode c ≠ B → rewire B cB c = c.
Proof.
  intros H. unfold rewire. by rewrite (proj2 (String.eqb_neq _ _) H).
Qed.

Lemma rewire_to B cB c : upstreamNode c = B → rewire B cB c = cB.
Proof. intros <-. unfold rewire. by rewrite String.eqb_refl. Qed.

Lemma mapFind_removeEntry B cB entries p :
  p ≠ B →
  mapFind p (removeEntry B cB entries) = rewireNode B cB <$> mapFind p entries.
Proof.
  intros Hp. induction entries as [|[q n] rest IH]; [done|]. simpl.
  destruct (String.eqb q B) eqn:EqB; simpl.
  - apply String.eqb_eq in EqB as ->.
    by rewrite (proj2 (String.eqb_neq _ _) (not_eq_sym Hp)).
  - destruct (String.eqb q p); [done|exact IH].
Qed.

Lemma mapFind_rewired B cB (ts : list (TfToken * HdMaterialConnection2)) k :
  mapFind k (rewireTerminal B cB <$> ts) =
  rewire B cB <$> mapFind k ts.
Proof.
  induction ts as [|[q c] rest IH]; [done|]. simpl.
  destruct (String.eqb q k); [done|exact IH].
Qed.

Lemma setInput_keeps_absent B p i v st u st' evs :
  backendNodes st !! B = None →
  setInput p i v st = Some (u, st', evs) → backendNodes st' !! B = None.
Proof.
  intros HB [= <- <- <-]. simpl. rewrite lookup_alter.
  case_decide; [subst; by rewrite HB|done].
Qed.

Lemma sound_keeps_absent {A : Type} (m : M A) B st a st' evs :
  sound m → backendNodes st !! B = None →
  m st = Some (a, st', evs) → backendNodes st' !! B = None.
Proof.
  intros Hs HB Hrun. apply Hs in Hrun as (_ & _ & _ & Hd).
  apply not_elem_of_dom. rewrite Hd. by apply not_elem_of_dom.
Qed.

Section Removal.

Variable network : HdMaterialNetwork2.
Variable B : SdfPath.
Variable nodeB : HdMaterialNode2.
Variable inputB : TfToken.
Variable cB : HdMaterialConnection2.
Hypothesis HnodeB : mapFind B (nodes network) = Some nodeB.
Hypothesis HinputsB : inputConnections nodeB = [(inputB, [cB])].
Hypothesis HcB : upstreamNode cB ≠ B.

(** A recursive call on the network and the same call on the network
    without [B]. *)
Definition simulates (rec rec' : HdMaterialConnection2 → M VtValue) : Prop :=
  ∀ c st v st' evs,
    backendNodes st !! B = None →
    rec c st = Some (v, st', evs) →
    rec' (rewire B cB c) st = Some (v, st', dropReturnsTo B evs).

Lemma wireInputs_removed rec rec' p inputs st u st' evs :
  simulates rec rec' → (∀ c, sound (rec c)) →
  backendNodes st !! B = None →
  wireInputs rec p inputs st = Some (u, st', evs) →
  wireInputs rec' p (rewireInputs B cB inputs) st =
  Some (u, st', dropReturnsTo B evs).
Proof.
  intros Hsim Hsound. revert st evs.
  induction inputs as [|[j [|c0 [|c' cs]]] rest IH]; simpl; intros st evs HB Hrun.
  - by injection Hrun as <- <- <-.
  - by apply IH.
  - apply bind_Some in Hrun as (v & st1 & e1 & e2 & H1 & H2 & ->).
    apply seqM_Some in H2 as (u' & st2 & e3 & e4 & H3 & H4 & ->).
    assert (backendNodes st1 !! B = None) as HB1
      by (eapply sound_keeps_absent; [apply Hsound|exact HB|exact H1]).
    assert (backendNodes st2 !! B = None ∧ dropReturnsTo B e3 = e3)
      as [HB2 He3].
    { destruct (IsEmpty v).
      - by injection H3 as <- <- <-.
      - split; [by eapply setInput_keeps_absent|].
        by injection H3 as <- <- <-. }
    rewrite !dropReturnsTo_app, He3.
    apply bind_Some. exists v, st1, (dropReturnsTo B e1), (e3 ++ dropReturnsTo B e4).
    split; [by apply Hsim|]. split; [|done].
    apply seqM_Some. exists u', st2, e3, (dropReturnsTo B e4).
    split; [done|]. split; [by apply IH|done].
  - apply seqM_Some in Hrun as (u' & st1 & e1 & e2 & H1 & H2 & ->).
    injection H1 as <- <- <-. rewrite dropReturnsTo_app.
    apply seqM_Some. exists tt, st, [EvLog ConnectedArrayElements],
                            (dropReturnsTo B e2).
    split; [done|]. split; [by apply IH|done].
Qed.

Lemma passThrough_removed rec rec' node st v st' evs :
  simulates rec rec' →
  backendNodes st !! B = None →
  passThrough rec node st = Some (v, st', evs) →
  passThrough rec' (rewireNode B cB node) st =
  Some (v, st', dropReturnsTo B evs).
Proof.
  intros Hsim HB. unfold passThrough. simpl.
  destruct (inputConnections node) as [|[j [|c0 [|c' cs]]] rest]; simpl.
  - by intros [= <- <- <-].
  - by intros [= <- <- <-].
  - by apply Hsim.
  - by intros [= <- <- <-].
Qed.

Lemma getNodeOutput_removed fuel :
  simulates (getNodeOutput network fuel)
            (getNodeOutput (removeNode B cB network) fuel).
Proof using Type HnodeB HinputsB HcB.
  induction fuel as [|fuel IH]; intros c st v st' evs HB; [done|].
  cbn [getNodeOutput].
  intros (w & st1 & e1 & e2 & H1 & H2 & ->)%bind_Some.
  apply seqM_Some in H2 as (u & st2 & e3 & e4 & H3 & H4 & ->).
  injection H3 as <- <- <-. injection H4 as <- <- <-.
  rewrite app_nil_r, dropReturnsTo_app.
  destruct (decide (upstreamNode c = B)) as [Heq|Hne].
  - (* the call leads to [B]: it is the call for [cB] *)
    rewrite (rewire_to _ _ _ Heq). rewrite Heq, HnodeB, HB in H1.
    unfold passThrough in H1. rewrite HinputsB in H1.
    apply IH in H1; [|done]. rewrite (rewire_other _ _ _ HcB) in H1.
    apply getNodeOutput_mono in H1. cbn [getNodeOutput] in H1.
    rewrite (dropReturnsTo_return_to _ _ _ Heq), app_nil_r. exact H1.
  - rewrite (rewire_other _ _ _ Hne).
    rewrite (dropReturnsTo_return_other _ _ _ Hne).
    apply bind_Some. exists w, st1, (dropReturnsTo B e1), [EvReturn c w].
    split; [|done]. simpl.
    rewrite (mapFind_removeEntry _ _ _ _ Hne).
    destruct (mapFind (upstreamNode c) (nodes network)) as [node|]; simpl.
    2:{ by injection H1 as <- <- <-. }
    destruct (backendNodes st !! upstreamNode c) as [n|] eqn:Hn.
    2:{ by eapply passThrough_removed. }
    apply seqM_Some in H1 as (u' & st2 & e3 & e4 & H3 & H4 & ->).
    rewrite dropReturnsTo_app.
    assert (dropReturnsTo B e4 = e4) as ->.
    { unfold readOutput in H4.
      destruct (backendNodes st2 !! _); by injection H4 as <- <- <-. }
    apply seqM_Some. exists u', st2, (dropReturnsTo B e3), e4.
    split; [|done]. case_bool_decide.
    { by injection H3 as <- <- <-. }
    apply seqM_Some in H3 as (u'' & st3 & e5 & e6 & H5 & H6 & ->).
    injection H5 as <- <- <-. rewrite dropReturnsTo_app.
    apply seqM_Some. eexists tt, _, [EvWire (upstreamNode c)], _.
    split; [done|]. split; [|done].
    eapply wireInputs_removed; [exact IH| |done|exact H6].
    intros. apply sound_getNodeOutput.
Qed.

Lemma getTerminalOutput_removed fuel name st v st' evs :
  backendNodes st !! B = None →
  getTerminalOutput network fuel name st = Some (v, st', evs) →
  getTerminalOutput (removeNode B cB network) fuel name st =
  Some (v, st', dropReturnsTo B evs).
Proof using Type HnodeB HinputsB HcB.
  intros HB. unfold getTerminalOutput. simpl. rewrite mapFind_rewired.
  destruct (mapFind name (terminals network)) as [c|]; simpl.
  - by apply getNodeOutput_removed.
  - by intros [= <- <- <-].
Qed.

Lemma resolveTerminals_removed fuel st outputs st' evs :
  backendNodes st !! B = None →
  resolveTerminals network fuel st = Some (outputs, st', evs) →
  resolveTerminals (removeNode B cB network) fuel st =
  Some (outputs, st', dropReturnsTo B evs).
Proof using Type HnodeB HinputsB HcB.
  intros HB. unfold resolveTerminals.
  intros (v1 & st1 & e1 & e1' & H1 & H2 & ->)%bind_Some.
  apply bind_Some in H2 as (v2 & st2 & e2 & e2' & H2 & H3 & ->).
  apply bind_Some in H3 as (v3 & st3 & e3 & e3' & H3 & H4 & ->).
  injection H4 as <- <- <-.
  assert (backendNodes st1 !! B = None) as HB1
    by (eapply sound_keeps_absent;
        [apply sound_getTerminalOutput|exact HB|exact H1]).
  assert (backendNodes st2 !! B = None) as HB2
    by (eapply sound_keeps_absent;
        [apply sound_getTerminalOutput|exact HB1|exact H2]).
  rewrite !dropReturnsTo_app.
  apply bind_Some. eexists _, _, _, _.
  split; [by apply getTerminalOutput_removed|]. split; [|done].
  apply bind_Some. eexists _, _, _, _.
  split; [by apply getTerminalOutput_removed|]. split; [|done].
  apply bind_Some. eexists _, _, _, _.
  split; [by apply getTerminalOutput_removed|]. done.
Qed.

End Removal.

(** ** The per-node pass *)

Lemma createNodes_app l1 l2 st :
  createNodes (l1 ++ l2) st =
  ((createNodes l2 (createNodes l1 st).1).1,
   (createNodes l1 st).2 ++ (createNodes l2 (createNodes l1 st).1).2).
Proof.
  revert st. induction l1 as [|e l1 IH]; intros st; simpl.
  { by destruct (createNodes l2 st). }
  destruct (createNode e st) as [st1 evs1]. rewrite IH.
  destruct (createNodes l1 st1) as [st2 evs2]. simpl.
  destruct (createNodes l2 st2) as [st3 evs3]. simpl. by rewrite app_assoc.
Qed.

(** Case analysis on one iteration of the pass. *)
Ltac case_createNode entry :=
  destruct entry as [?p ?node];
  unfold createNode, registeredEntries, surfaceParts, dispParts, housePart;
  cbn [fst snd omap list_omap];
  let Hf := fresh "Hf" in
  destruct (registeredFactory (nodeTypeId _)) as [?f|] eqn:Hf;
  [ match goal with
    | |- context [?f ?c ?ps] =>
        match type of f with
        | Factory => destruct (f c ps) as [[?n| |?what|] ?ctx2]
        end
    end
  | destruct (IsHoudiniPrincipledShaderHydraNode _) as [[|]|] ];
  cbn [fst snd omap list_omap materialNodes houdiniSurface houdiniDisp ctx].

Lemma createNode_other entry st q :
  q ≠ entry.1 →
  materialNodes (createNode entry st).1 !! q = materialNodes st !! q.
Proof.
  case_createNode entry; intros Hq; try done. by rewrite lookup_insert_ne.
Qed.

Lemma createNode_factory entry st p t res :
  EvFactory p t res ∈ (createNode entry st).2 →
  p = entry.1 ∧ t = nodeTypeId entry.2 ∧ is_Some (registeredFactory t) ∧
  (isCreated res = false →
   materialNodes (createNode entry st).1 = materialNodes st) ∧
  (∀ what, res = ThrewNodeError what →
           EvLog (FailedToCreate p t what) ∈ (createNode entry st).2) ∧
  (res = ThrewNodeEmpty → EvLog (EmptyNode p) ∈ (createNode entry st).2).
Proof.
  case_createNode entry; rewrite ?elem_of_cons, elem_of_nil;
    intros Hev; destruct_or?; simplify_eq;
    (split; [done|]); (split; [done|]); (split; [by eexists|]);
    (split; [done|]);
    (split; [intros; simplify_eq; rewrite ?elem_of_cons; auto|]);
    intros; simplify_eq; rewrite ?elem_of_cons; auto.
Qed.

Lemma createNode_log entry st d p :
  EvLog d ∈ (createNode entry st).2 → aboutNode d = Some p →
  p = entry.1 ∧
  ∃ res, EvFactory p (nodeTypeId entry.2) res ∈ (createNode entry st).2 ∧
         res ≠ ReturnedNull.
Proof.
  case_createNode entry; rewrite ?elem_of_cons, elem_of_nil;
    intros Hev; destruct_or?; simplify_eq; intros Hd; simpl in Hd;
    simplify_eq; (split; [done|]); eexists; (split; [by left|done]).
Qed.

Lemma createNode_calls entry st :
  factoryCalls (createNode entry st).2 = registeredEntries [entry].
Proof. by case_createNode entry. Qed.

Lemma createNode_noHoudini entry st :
  houdiniNodes (createNode entry st).2 = [].
Proof. by case_createNode entry. Qed.

Lemma createNode_surface entry st :
  houdiniSurface (createNode entry st).1 =
  match surfaceParts [entry] with
  | [] => houdiniSurface st
  | part :: _ => Some part
  end.
Proof. by case_createNode entry. Qed.

Lemma createNode_disp entry st :
  houdiniDisp (createNode entry st).1 =
  match dispParts [entry] with
  | [] => houdiniDisp st
  | part :: _ => Some part
  end.
Proof. by case_createNode entry. Qed.

Lemma createNodes_cons e rest st :
  createNodes (e :: rest) st =
  ((createNodes rest (createNode e st).1).1,
   (createNode e st).2 ++ (createNodes rest (createNode e st).1).2).
Proof.
  simpl. destruct (createNode e st) as [st1 evs1]. simpl.
  by destruct (createNodes rest st1).
Qed.

Lemma elem_of_logOf d (evs : list Event) : d ∈ logOf evs ↔ EvLog d ∈ evs.
Proof.
  unfold logOf. rewrite list_elem_of_omap. split.
  - intros ([] & Hin & Heq); by simplify_eq.
  - intros Hin. by exists (EvLog d).
Qed.

Lemma factoryCalls_app (a b : list Event) :
  factoryCalls (a ++ b) = factoryCalls a ++ factoryCalls b.
Proof. apply omap_app. Qed.

Lemma houdiniNodes_app (a b : list Event) :
  houdiniNodes (a ++ b) = houdiniNodes a ++ houdiniNodes b.
Proof. apply omap_app. Qed.

Lemma createNodes_other entries st q :
  q ∉ entries.*1 →
  materialNodes (createNodes entries st).1 !! q = materialNodes st !! q.
Proof.
  revert st. induction entries as [|e rest IH]; intros st Hq; [done|].
  rewrite createNodes_cons. simpl. rewrite fmap_cons in Hq.
  apply not_elem_of_cons in Hq as [Hq1 Hq2].
  rewrite IH by done. by apply createNode_other.
Qed.

(** A factory call in the trace is the call for an entry with that path
    and a registered type. *)
Lemma createNodes_factory_in entries st p t res :
  EvFactory p t res ∈ (createNodes entries st).2 →
  p ∈ entries.*1 ∧ is_Some (registeredFactory t) ∧
  ∃ node, (p, node) ∈ entries ∧ t = nodeTypeId node.
Proof.
  revert st. induction entries as [|e rest IH]; intros st.
  { simpl. by intros ?%elem_of_nil. }
  rewrite createNodes_cons. simpl. intros [Hin|Hin]%elem_of_app.
  - apply createNode_factory in Hin as (-> & -> & Hreg & _).
    split; [rewrite ?fmap_cons; by left|]. split; [done|].
    exists e.2. split; [|done]. destruct e. by left.
  - apply IH in Hin as (Hp & Hreg & node & Hnode & ->).
    split; [rewrite ?fmap_cons; by right|]. split; [done|].
    exists node. split; [by right|done].
Qed.

(** A node whose factory did not create anything has no backend node
    after the pass. *)
Lemma createNodes_failed entries st p t res :
  NoDup entries.*1 →
  EvFactory p t res ∈ (createNodes entries st).2 → isCreated res = false →
  materialNodes (createNodes entries st).1 !! p = materialNodes st !! p.
Proof.
  revert st. induction entries as [|e rest IH]; intros st Hnd.
  { simpl. by intros ?%elem_of_nil. }
  rewrite fmap_cons in Hnd. apply NoDup_cons in Hnd as [He Hnd].
  rewrite createNodes_cons. simpl. intros [Hin|Hin]%elem_of_app Hres.
  - apply createNode_factory in Hin as (-> & -> & _ & Hsame & _).
    rewrite createNodes_other by done. by rewrite Hsame.
  - rewrite (IH _ Hnd Hin Hres). apply createNode_other.
    apply createNodes_factory_in in Hin as (Hp & _). by intros ->.
Qed.

Lemma createNodes_factory_unique entries st p t t' res res' :
  NoDup entries.*1 →
  EvFactory p t res ∈ (createNodes entries st).2 →
  EvFactory p t' res' ∈ (createNodes entries st).2 → res = res'.
Proof.
  revert st. induction entries as [|e rest IH]; intros st Hnd.
  { simpl. by intros ?%elem_of_nil. }
  rewrite fmap_cons in Hnd. apply NoDup_cons in Hnd as [He Hnd].
  rewrite createNodes_cons. simpl.
  intros [H1|H1]%elem_of_app [H2|H2]%elem_of_app.
  - clear IH. pose proof H1 as (-> & -> & _)%createNode_factory.
    pose proof H2 as (_ & -> & _)%createNode_factory.
    revert H1 H2. case_createNode e; rewrite ?elem_of_cons, !elem_of_nil;
      intros; destruct_or?; by simplify_eq.
  - apply createNode_factory in H1 as (-> & _).
    apply createNodes_factory_in in H2 as (Hp & _). done.
  - apply createNode_factory in H2 as (-> & _).
    apply createNodes_factory_in in H1 as (Hp & _). done.
  - by eapply IH.
Qed.

Lemma createNodes_logged entries st p t res :
  EvFactory p t res ∈ (createNodes entries st).2 →
  (∀ what, res = ThrewNodeError what →
           EvLog (FailedToCreate p t what) ∈ (createNodes entries st).2) ∧
  (res = ThrewNodeEmpty → EvLog (EmptyNode p) ∈ (createNodes entries st).2).
Proof.
  revert st. induction entries as [|e rest IH]; intros st.
  { simpl. by intros ?%elem_of_nil. }
  rewrite createNodes_cons. simpl. intros [Hin|Hin]%elem_of_app.
  - apply createNode_factory in Hin as (_ & _ & _ & _ & H1 & H2).
    split; intros; apply elem_of_app; left; auto.
  - apply IH in Hin as [H1 H2].
    split; intros; apply elem_of_app; right; auto.
Qed.

Lemma createNodes_log_about entries st d p :
  EvLog d ∈ (createNodes entries st).2 → aboutNode d = Some p →
  ∃ t res, EvFactory p t res ∈ (createNodes entries st).2 ∧
           res ≠ ReturnedNull.
Proof.
  revert st. induction entries as [|e rest IH]; intros st.
  { simpl. by intros ?%elem_of_nil. }
  rewrite createNodes_cons. simpl. intros [Hin|Hin]%elem_of_app Hd.
  - destruct (createNode_log _ _ _ _ Hin Hd) as (_ & res & Hres & Hne).
    exists (nodeTypeId e.2), res. split; [|done]. apply elem_of_app. by left.
  - destruct (IH _ Hin Hd) as (t & res & Hres & Hne).
    exists t, res. split; [|done]. apply elem_of_app. by right.
Qed.

(** The pass calls the factory of every entry whose type is registered,
    in iteration order, whatever the earlier calls did. *)
Lemma createNodes_calls entries st :
  factoryCalls (createNodes entries st).2 = registeredEntries entries.
Proof.
  revert st. induction entries as [|e rest IH]; intros st; [done|].
  rewrite createNodes_cons. simpl.
  rewrite factoryCalls_app, IH, createNode_calls.
  unfold registeredEntries. simpl. by destruct (registeredFactory _).
Qed.

Lemma createNodes_noHoudini entries st :
  houdiniNodes (createNodes entries st).2 = [].
Proof.
  revert st. induction entries as [|e rest IH]; intros st; [done|].
  rewrite createNodes_cons. simpl.
  by rewrite houdiniNodes_app, IH, createNode_noHoudini.
Qed.

Lemma surfaceParts_cons e rest :
  surfaceParts (e :: rest) = surfaceParts [e] ++ surfaceParts rest.
Proof. apply (omap_app _ [e] rest). Qed.

Lemma dispParts_cons e rest :
  dispParts (e :: rest) = dispParts [e] ++ dispParts rest.
Proof. apply (omap_app _ [e] rest). Qed.

(** The pointers hold the last part of each kind met so far. *)
Lemma createNodes_surface entries st :
  houdiniSurface (createNodes entries st).1 =
  match last (surfaceParts entries) with
  | Some part => Some part
  | None => houdiniSurface st
  end.
Proof.
  revert st. induction entries as [|e rest IH]; intros st; [done|].
  rewrite createNodes_cons. cbn [fst snd]. rewrite IH, createNode_surface.
  rewrite (surfaceParts_cons e rest), last_app.
  destruct (last (surfaceParts rest)); [done|].
  unfold surfaceParts. simpl. by destruct (housePart e) as [[|]|].
Qed.

Lemma createNodes_disp entries st :
  houdiniDisp (createNodes entries st).1 =
  match last (dispParts entries) with
  | Some part => Some part
  | None => houdiniDisp st
  end.
Proof.
  revert st. induction entries as [|e rest IH]; intros st; [done|].
  rewrite createNodes_cons. cbn [fst snd]. rewrite IH, createNode_disp.
  rewrite (dispParts_cons e rest), last_app.
  destruct (last (dispParts rest)); [done|].
  unfold dispParts. simpl. by destruct (housePart e) as [[|]|].
Qed.

Lemma surfaceParts_unregistered entries q ps :
  (q, ps) ∈ surfaceParts entries →
  ∃ node, (q, node) ∈ entries ∧ registeredFactory (nodeTypeId node) = None.
Proof.
  unfold surfaceParts. rewrite list_elem_of_omap.
  intros ([q' node] & Hin & Heq). unfold housePart in Heq. simpl in Heq.
  destruct (registeredFactory (nodeTypeId node)) eqn:Hf; [done|].
  destruct (IsHoudiniPrincipledShaderHydraNode q') as [[|]|]; simplify_eq.
  by exists node.
Qed.

Lemma NoDup_fst_unique {V : Type} (l : list (string * V)) k a b :
  NoDup l.*1 → (k, a) ∈ l → (k, b) ∈ l → a = b.
Proof.
  induction l as [|[k' v] l IH]; [by intros _ ?%elem_of_nil|].
  rewrite fmap_cons. intros [Hk Hnd]%NoDup_cons.
  intros [?|Ha]%elem_of_cons [?|Hb]%elem_of_cons; simplify_eq.
  - done.
  - destruct Hk. apply list_elem_of_fmap. eexists. split; [|exact Hb]. done.
  - destruct Hk. apply list_elem_of_fmap. eexists. split; [|exact Ha]. done.
  - by apply IH.
Qed.

(** ** The two parts of the composite family, in either order *)

Lemma passAgree_fields a b :
  passAgree a b →
  materialNodes a = materialNodes b ∧ houdiniSurface a = houdiniSurface b ∧
  houdiniDisp a = houdiniDisp b ∧
  ∀ p, setCurrentNodePath p (ctx a) = setCurrentNodePath p (ctx b).
Proof.
  unfold passAgree, forgetCurrent, setCurrentNodePath.
  intros [= H1 H2 H3 H4 H5 H6 H7 H8]. repeat split; try done.
  intros p. by rewrite H1, H2, H3, H4, H5.
Qed.

Lemma createNode_agree e a b :
  passAgree a b → createNode e a = createNode e b.
Proof.
  intros (Hm & Hs & Hd & Hc)%passAgree_fields. unfold createNode.
  by rewrite Hm, Hs, Hd, (Hc e.1).
Qed.

Lemma createNodes_agree l a b :
  passAgree a b →
  passAgree (createNodes l a).1 (createNodes l b).1 ∧
  (createNodes l a).2 = (createNodes l b).2.
Proof.
  intros H. destruct l as [|e l]; [done|].
  rewrite !createNodes_cons. by rewrite (createNode_agree e a b H).
Qed.

Lemma withParts_agree s d a b :
  passAgree a b → passAgree (withParts s d a) (withParts s d b).
Proof.
  unfold passAgree, forgetCurrent, withParts. simpl.
  intros [= H1 H2 H3 H4 H5 H6 H7 H8]. by rewrite H1, H2, H3, H4, H5, H6.
Qed.

(** An entry that is no part of the family neither reads nor writes the
    two pointers. *)
Lemma createNode_noPart e s d st :
  housePart e = None →
  createNode e (withParts s d st) =
  (withParts s d (createNode e st).1, (createNode e st).2).
Proof.
  destruct e as [p node]. unfold housePart, createNode, withParts. simpl.
  destruct (registeredFactory (nodeTypeId node)) as [f|].
  - intros _. by destruct (f _ _) as [[n| |what|] ctx2].
  - by intros ->.
Qed.

Lemma createNodes_noParts l s d st :
  Forall (λ e, housePart e = None) l →
  createNodes l (withParts s d st) =
  (withParts s d (createNodes l st).1, (createNodes l st).2).
Proof.
  intros H. revert st. induction H as [|e l He _ IH]; intros st; [done|].
  rewrite !createNodes_cons, (createNode_noPart _ _ _ _ He). cbn [fst snd].
  by rewrite IH.
Qed.

Lemma createNode_surfacePart e st :
  housePart e = Some true →
  (createNode e st).2 = [] ∧
  passAgree (createNode e st).1
            (withParts (Some (e.1, parameters e.2)) (houdiniDisp st) st).
Proof. unfold housePart. case_createNode e; try done. Qed.

Lemma createNode_dispPart e st :
  housePart e = Some false →
  (createNode e st).2 = [] ∧
  passAgree (createNode e st).1
            (withParts (houdiniSurface st) (Some (parameters e.2)) st).
Proof. unfold housePart. case_createNode e; try done. Qed.

(** A part followed by entries that are no parts: the pass over these
    entries, with the pointer of the part set. *)
Lemma createNodes_after_surface e l st :
  housePart e = Some true → Forall (λ e, housePart e = None) l →
  passAgree (createNodes (e :: l) st).1
            (withParts (Some (e.1, parameters e.2)) (houdiniDisp st)
                       (createNodes l st).1) ∧
  (createNodes (e :: l) st).2 = (createNodes l st).2.
Proof.
  intros He Hl. rewrite createNodes_cons. cbn [fst snd].
  destruct (createNode_surfacePart e st He) as [-> Hag].
  destruct (createNodes_agree l _ _ Hag) as [Hag' ->].
  by rewrite (createNodes_noParts l _ _ _ Hl) in Hag' |- *.
Qed.

Lemma createNodes_after_disp e l st :
  housePart e = Some false → Forall (λ e, housePart e = None) l →
  passAgree (createNodes (e :: l) st).1
            (withParts (houdiniSurface st) (Some (parameters e.2))
                       (createNodes l st).1) ∧
  (createNodes (e :: l) st).2 = (createNodes l st).2.
Proof.
  intros He Hl. rewrite createNodes_cons. cbn [fst snd].
  destruct (createNode_dispPart e st He) as [-> Hag].
  destruct (createNodes_agree l _ _ Hag) as [Hag' ->].
  by rewrite (createNodes_noParts l _ _ _ Hl) in Hag' |- *.
Qed.

(** A surface part [S] and a displacement part [D] with no other part
    after the first of them: whichever comes first, the pass ends as the
    pass over the entries without the two, with the pointers set to [S]
    and [D]; only [currentNodePath] may differ. *)
Lemma createNodes_pair l1 l2 l3 S D st :
  housePart S = Some true → housePart D = Some false →
  Forall (λ e, housePart e = None) l2 →
  Forall (λ e, housePart e = None) l3 →
  let base := createNodes (l1 ++ l2 ++ l3) st in
  let target := withParts (Some (S.1, parameters S.2))
                          (Some (parameters D.2)) base.1 in
  (passAgree (createNodes (l1 ++ S :: l2 ++ D :: l3) st).1 target ∧
   (createNodes (l1 ++ S :: l2 ++ D :: l3) st).2 = base.2) ∧
  (passAgree (createNodes (l1 ++ D :: l2 ++ S :: l3) st).1 target ∧
   (createNodes (l1 ++ D :: l2 ++ S :: l3) st).2 = base.2).
Proof.
  intros HS HD Hl2 Hl3 base target. subst base target.
  rewrite !(createNodes_app l1). cbn [fst snd].
  set (st1 := (createNodes l1 st).1). set (e1 := (createNodes l1 st).2).
  clearbody st1 e1. clear st l1.
  (* both orders, from [st1] *)
  rewrite !(createNodes_app l2 l3). cbn [fst snd].
  split.
  - (* S first *)
    destruct (createNodes_after_surface S l2 st1 HS Hl2) as [Hag1 Hev1].
    change (S :: l2 ++ D :: l3) with ((S :: l2) ++ D :: l3).
    rewrite (createNodes_app (S :: l2)). cbn [fst snd]. rewrite Hev1.
    destruct (createNodes_agree (D :: l3) _ _ Hag1) as [Hag2 ->].
    destruct (createNodes_after_disp D l3
                (withParts (Some (S.1, parameters S.2)) (houdiniDisp st1)
                           (createNodes l2 st1).1) HD Hl3) as [Hag3 ->].
    rewrite (createNodes_noParts l3 _ _ _ Hl3) in Hag3 |- *.
    cbn [fst snd] in *.
    split; [|done]. unfold passAgree in *. by rewrite Hag2, Hag3.
  - (* D first *)
    destruct (createNodes_after_disp D l2 st1 HD Hl2) as [Hag1 Hev1].
    change (D :: l2 ++ S :: l3) with ((D :: l2) ++ S :: l3).
    rewrite (createNodes_app (D :: l2)). cbn [fst snd]. rewrite Hev1.
    destruct (createNodes_agree (S :: l3) _ _ Hag1) as [Hag2 ->].
    destruct (createNodes_after_surface S l3
                (withParts (houdiniSurface st1) (Some (parameters D.2))
                           (createNodes l2 st1).1) HS Hl3) as [Hag3 ->].
    rewrite (createNodes_noParts l3 _ _ _ Hl3) in Hag3 |- *.
    cbn [fst snd] in *.
    split; [|done]. unfold passAgree in *. by rewrite Hag2, Hag3.
Qed.

(** ** The build as a whole *)

Lemma buildNodes_unfold network c :
  buildNodes network c =
  ((createHoudiniNode (createNodes (nodes network)
                                   (mkPass c ∅ None None)).1).1,
   (createNodes (nodes network) (mkPass c ∅ None None)).2 ++
   (createHoudiniNode (createNodes (nodes network)
                                   (mkPass c ∅ None None)).1).2).
Proof.
  unfold buildNodes. destruct (createNodes _ _) as [st1 evs1]. simpl.
  by destruct (createHoudiniNode st1) as [[st2 thrown] evs2].
Qed.

Lemma createHoudiniNode_events st :
  (createHoudiniNode st).2 =
  match houdiniSurface st with
  | Some part => [EvHoudiniNode part.1 part.2 (houdiniDisp st)]
  | None => []
  end.
Proof.
  unfold createHoudiniNode. destruct (houdiniSurface st) as [[p s]|]; [|done].
  by destruct (HoudiniPrincipledNode _ _ _) as [[n|e] ctx1].
Qed.

Lemma createHoudiniNode_nodes st :
  materialNodes (createHoudiniNode st).1.1 =
  match houdiniSurface st with
  | Some part =>
      match (HoudiniPrincipledNode (ctx st) part.2 (houdiniDisp st)).1 with
      | inl n => <[part.1 := n]> (materialNodes st)
      | inr _ => materialNodes st
      end
  | None => materialNodes st
  end.
Proof.
  unfold createHoudiniNode. destruct (houdiniSurface st) as [[p s]|]; [|done].
  by destruct (HoudiniPrincipledNode _ _ _) as [[n|e] ctx1].
Qed.

Lemma createHoudiniNode_thrown st :
  (createHoudiniNode st).1.2 =
  match houdiniSurface st with
  | Some part =>
      match (HoudiniPrincipledNode (ctx st) part.2 (houdiniDisp st)).1 with
      | inl _ => None
      | inr e => Some e
      end
  | None => None
  end.
Proof.
  unfold createHoudiniNode. destruct (houdiniSurface st) as [[p s]|]; [|done].
  by destruct (HoudiniPrincipledNode _ _ _) as [[n|e] ctx1].
Qed.


(** C9, as the code has it.  The constructor of the merged node is
    called after the events of the whole pass, which calls it never;
    it is called exactly once when the pass met a surface part, with the
    last surface part and the last displacement part met (none when
    there was no displacement part), and not at all when no surface
    part was met.  When it returns, the node becomes the backend node
    at the path of that surface part; when it throws, the build has the
    backend nodes of the pass and no other, the exception leaves the
    build and no terminal is resolved, whatever the recursion budget.
    With a surface part [S] and a displacement part [D] and no other
    part after the first of them, both orders end the pass with the
    same events and the same state up to [currentNodePath], with the
    pointers at [S] and [D]. *)
Theorem houdini_node_synthesized network c :
  (buildNodes network c).2 =
    (createNodes (nodes network) (mkPass c ∅ None None)).2 ++
    (createHoudiniNode
       (createNodes (nodes network) (mkPass c ∅ None None)).1).2 ∧
  houdiniNodes (createNodes (nodes network) (mkPass c ∅ None None)).2 = [] ∧
  houdiniNodes (buildNodes network c).2 =
    match last (surfaceParts (nodes network)) with
    | Some part => [(part.1, part.2, last (dispParts (nodes network)))]
    | None => []
    end ∧
  match last (surfaceParts (nodes network)) with
  | Some part =>
      match (HoudiniPrincipledNode
               (ctx (createNodes (nodes network) (mkPass c ∅ None None)).1)
               part.2 (last (dispParts (nodes network)))).1 with
      | inl n =>
          (buildNodes network c).1.2 = None ∧
          materialNodes (buildNodes network c).1.1 =
            <[part.1 := n]>
              (materialNodes
                 (createNodes (nodes network) (mkPass c ∅ None None)).1)
      | inr e =>
          (buildNodes network c).1.2 = Some e ∧
          materialNodes (buildNodes network c).1.1 =
            materialNodes
              (createNodes (nodes network) (mkPass c ∅ None None)).1 ∧
          ∀ fuel materialId,
            createGraphBasedMaterial fuel materialId network c =
            Some (Threw e, (buildNodes network c).2)
      end
  | None =>
      (buildNodes network c).1.2 = None ∧
      materialNodes (buildNodes network c).1.1 =
        materialNodes (createNodes (nodes network) (mkPass c ∅ None None)).1
  end ∧
  (∀ l1 l2 l3 S D st,
     housePart S = Some true → housePart D = Some false →
     Forall (λ e, housePart e = None) l2 →
     Forall (λ e, housePart e = None) l3 →
     passAgree (createNodes (l1 ++ S :: l2 ++ D :: l3) st).1
               (createNodes (l1 ++ D :: l2 ++ S :: l3) st).1 ∧
     (createNodes (l1 ++ S :: l2 ++ D :: l3) st).2 =
     (createNodes (l1 ++ D :: l2 ++ S :: l3) st).2 ∧
     houdiniSurface (createNodes (l1 ++ S :: l2 ++ D :: l3) st).1 =
       Some (S.1, parameters S.2) ∧
     houdiniDisp (createNodes (l1 ++ S :: l2 ++ D :: l3) st).1 =
       Some (parameters D.2)).
Proof.
  assert (houdiniDisp (createNodes (nodes network) (mkPass c ∅ None None)).1
          = last (dispParts (nodes network))) as Hd.
  { rewrite createNodes_disp. by destruct (last (dispParts _)). }
  assert (houdiniSurface
            (createNodes (nodes network) (mkPass c ∅ None None)).1
          = last (surfaceParts (nodes network))) as Hs.
  { rewrite createNodes_surface. by destruct (last (surfaceParts _)). }
  split; [rewrite buildNodes_unfold; reflexivity|].
  split; [apply createNodes_noHoudini|]. split; [|split].
  - rewrite buildNodes_unfold. cbn [snd].
    rewrite houdiniNodes_app, createNodes_noHoudini,
      createHoudiniNode_events, Hs, Hd.
    by destruct (last (surfaceParts _)).
  - pose proof (createHoudiniNode_nodes
                  (createNodes (nodes network) (mkPass c ∅ None None)).1)
      as Hn.
    pose proof (createHoudiniNode_thrown
                  (createNodes (nodes network) (mkPass c ∅ None None)).1)
      as Ht.
    rewrite Hs, Hd in Hn, Ht.
    assert ((buildNodes network c).1.2 =
            (createHoudiniNode
               (createNodes (nodes network) (mkPass c ∅ None None)).1).1.2)
      as Hb2 by (by rewrite buildNodes_unfold).
    assert (materialNodes (buildNodes network c).1.1 =
            materialNodes
              (createHoudiniNode
                 (createNodes (nodes network)
                              (mkPass c ∅ None None)).1).1.1)
      as Hb1 by (by rewrite buildNodes_unfold).
    rewrite Hb1, Hb2, Hn, Ht.
    destruct (last (surfaceParts (nodes network))) as [part|]; [|done].
    destruct (HoudiniPrincipledNode _ _ _).1 as [n|e] eqn:Hc; [done|].
    split; [done|]. split; [done|]. intros fuel materialId.
    unfold createGraphBasedMaterial.
    destruct (buildNodes network c) as [[pass thrown] evs] eqn:Hb.
    cbn [fst snd] in *. by rewrite Hb2, Ht.
  - intros l1 l2 l3 S D st HS HD Hl2 Hl3.
    destruct (createNodes_pair l1 l2 l3 S D st HS HD Hl2 Hl3)
      as [[Hag1 Hev1] [Hag2 Hev2]].
    split; [|split].
    + unfold passAgree in *. by rewrite Hag1, Hag2.
    + by rewrite Hev1, Hev2.
    + apply passAgree_fields in Hag1 as (_ & -> & -> & _). done.
Qed.

(** ** Material assembly *)

Lemma idsSet_app (a b : list Event) : idsSet (a ++ b) = idsSet a ++ idsSet b.
Proof. apply omap_app. Qed.

Lemma resolution_no_ids (evs : list Event) :
  Forall resolutionEvent evs → idsSet evs = [].
Proof. induction 1 as [|[] evs Hev _ IH]; try done. Qed.

Lemma quiet_getTerminalOutput network fuel name :
  quiet (getTerminalOutput network fuel name).
Proof.
  unfold getTerminalOutput. destruct (mapFind _ _).
  - apply quiet_getNodeOutput.
  - apply quiet_ret.
Qed.

Lemma quiet_resolveTerminals network fuel :
  quiet (resolveTerminals network fuel).
Proof.
  unfold resolveTerminals.
  repeat (apply quiet_bind; [apply quiet_getTerminalOutput|intros ?]).
  apply quiet_ret.
Qed.

Lemma createNode_no_ids entry st : idsSet (createNode entry st).2 = [].
Proof. by case_createNode entry. Qed.

Lemma buildNodes_no_ids network c : idsSet (buildNodes network c).2 = [].
Proof.
  rewrite buildNodes_unfold. cbn [snd].
  rewrite idsSet_app, createHoudiniNode_events.
  assert (∀ l st, idsSet (createNodes l st).2 = []) as ->.
  { induction l as [|e l IH]; intros st; [done|].
    rewrite createNodes_cons. cbn [snd].
    by rewrite idsSet_app, IH, createNode_no_ids. }
  by destruct (houdiniSurface _).
Qed.

(** What [Finalize] makes of the three outputs. *)
Lemma Finalize_spec owned context s d v name id :
  let r := Finalize owned context s d v name id in
  (m_volumeNode r.1.1, m_surfaceNode r.1.1, m_displacementNode r.1.1) =
    terminalNodes (v, s, d) ∧
  materialNodesOwned r.1.1 = owned ∧
  (r.1.2 = true ↔ anyTerminalNode (v, s, d)) ∧
  idsSet r.2 =
    match (getTerminalRprNode s).1 with
    | Some n => if (0 <=? id)%Z then [(n, rpr_uint id)] else []
    | None => []
    end.
Proof.
  tidy.
  unfold Finalize, anyTerminalNode, terminalNodes. simpl.
  destruct (getTerminalRprNode v) as [vn e1] eqn:Ev.
  destruct (getTerminalRprNode s) as [sn e2] eqn:Es.
  destruct (getTerminalRprNode d) as [dn e3] eqn:Ed. simpl.
  split; [done|]. split; [done|]. split.
  - rewrite !orb_true_iff, !bool_decide_eq_true. tauto.
  - assert (∀ x, idsSet (getTerminalRprNode x).2 = []) as Hno
      by (by intros []).
    pose proof (Hno v) as H1. pose proof (Hno s) as H2.
    pose proof (Hno d) as H3. rewrite Ev in H1. rewrite Es in H2.
    rewrite Ed in H3. simpl in *. rewrite !idsSet_app, H1, H2, H3. simpl.
    destruct sn as [n|]; [|done]. rewrite idsSet_app.
    by destruct (0 <=? id)%Z.
Qed.

(** What a graph-based build that returns consists of. *)
Lemma createGraphBasedMaterial_Some fuel materialId network c mat evs :
  createGraphBasedMaterial fuel materialId network c =
    Some (Returned mat, evs) →
  ∃ outputs st' evs2,
    resolveTerminals network fuel
      (mkResolver (materialNodes (buildNodes network c).1.1) ∅) =
      Some (outputs, st', evs2) ∧
    let r := Finalize (backendNodes st') (ctx (buildNodes network c).1.1)
                      outputs.1.2 outputs.2 outputs.1.1
                      (c_str (cryptomatteName materialId network))
                      (materialRprId network) in
    mat = (if r.1.2 then Some r.1.1 else None) ∧
    evs = (buildNodes network c).2 ++ evs2 ++ r.2.
Proof.
  unfold createGraphBasedMaterial.
  destruct (buildNodes network c) as [[pass [e|]] evs1]; [done|]. simpl.
  destruct (resolveTerminals _ _ _) as [[[[[vo so] do] st'] evs2]|]; [|done].
  destruct (Finalize _ _ _ _ _ _ _) as [[out ok] evs3] eqn:Ef.
  intros [= <- <-]. exists (vo, so, do), st', evs2. split; [done|].
  simpl. by rewrite Ef.
Qed.

(** How a graph-based build ends, by what the build of the nodes
    threw. *)
Lemma createGraphBasedMaterial_outcome fuel materialId network c out evs :
  createGraphBasedMaterial fuel materialId network c = Some (out, evs) →
  match (buildNodes network c).1.2 with
  | Some e => out = Threw e ∧ evs = (buildNodes network c).2
  | None => ∃ mat, out = Returned mat
  end.
Proof.
  unfold createGraphBasedMaterial.
  destruct (buildNodes network c) as [[pass [e|]] evs1]; cbn [fst snd].
  - by intros [= <- <-].
  - destruct (resolveTerminals _ _ _) as [[[[[vo so] do] st'] evs2]|];
      [|done].
    destruct (Finalize _ _ _ _ _ _ _) as [[m ok] evs3].
    intros [= <- <-]. by eexists.
Qed.

Lemma CreateMaterialXFromUsdShade_surface materialId network c m :
  CreateMaterialXFromUsdShade materialId network c = Some m →
  is_Some (m_surfaceNode m).
Proof.
  unfold CreateMaterialXFromUsdShade.
  destruct (mapFind _ _) as [conn|]; [|done].
  destruct (mapFind _ _) as [node|]; [|done].
  destruct (mtlxSdrNode _); [|done].
  destruct (RprUsd_CreateRprMtlx _ _ _ _) as [n|]; [|done].
  intros [= <-]. by eexists.
Qed.


(** ** Which resolutions return *)

Lemma unvisited_mark (D V : gset string) (p : string) :
  p ∈ D → p ∉ V → size (D ∖ ({[p]} ∪ V)) < size (D ∖ V).
Proof. tidy. intros Hd Hv. apply subset_size. set_solver. Qed.

Lemma unvisited_grow (D V V' : gset string) :
  V ⊆ V' → size (D ∖ V') ≤ size (D ∖ V).
Proof. tidy. intros H. apply subseteq_size. set_solver. Qed.

Lemma visited_grows (V : gset string) (l : list string) :
  V ⊆ V ∪ list_to_set l.
Proof. tidy. set_solver. Qed.

Lemma wiresOnce_unvisited st st' evs :
  wiresOnce st st' evs →
  dom (backendNodes st') = dom (backendNodes st) ∧
  unvisited st' ≤ unvisited st.
Proof.
  intros (_ & _ & Hv & Hd). split; [done|]. unfold unvisited.
  rewrite Hd, Hv. apply unvisited_grow, visited_grows.
Qed.

Lemma totalBelow_ret {A : Type} owned K (a : A) : totalBelow owned K (ret a).
Proof. intros st _ _. by eexists. Qed.

Lemma totalBelow_total {A : Type} owned K (m : M A) :
  total m → totalBelow owned K m.
Proof. intros H st _ _. apply H. Qed.

Lemma totalBelow_bind {A B : Type} owned K (m : M A) (f : A → M B) :
  sound m → totalBelow owned K m → (∀ a, totalBelow owned K (f a)) →
  totalBelow owned K (bind m f).
Proof.
  intros Hs Hm Hf st Hd Hk. unfold bind.
  destruct (Hm st Hd Hk) as [[[a st1] e1] E1]. rewrite E1.
  destruct (wiresOnce_unvisited _ _ _ (Hs _ _ _ _ E1)) as [Hd1 Hk1].
  destruct (Hf a st1) as [[[b st2] e2] E2]; [congruence|lia|].
  rewrite E2. by eexists.
Qed.

Lemma totalBelow_wireInputs rec p inputs owned K :
  (∀ c, sound (rec c)) → (∀ c, totalBelow owned K (rec c)) →
  totalBelow owned K (wireInputs rec p inputs).
Proof.
  intros Hs Hrec. induction inputs as [|[i [|c [|c' cs]]] rest IH]; simpl.
  - apply totalBelow_ret.
  - exact IH.
  - apply totalBelow_bind; [apply Hs|apply Hrec|]. intros v.
    apply totalBelow_bind; [| |intros _; exact IH].
    + destruct (IsEmpty v); [apply sound_ret|apply sound_setInput].
    + apply totalBelow_total.
      destruct (IsEmpty v); [apply total_ret|apply total_setInput].
  - apply totalBelow_bind; [apply sound_log| |intros _; exact IH].
    apply totalBelow_total, total_emit.
Qed.

(** The budget that suffices: the unvisited backend nodes, each with a
    chain of nodes without backend node before it, and the chain the
    connection starts in. *)
Lemma getNodeOutput_terminates network rank R owned :
  chainsEnd network owned rank → (∀ p, rank p ≤ R) →
  ∀ fuel c st,
    dom (backendNodes st) = owned →
    unvisited st * S R + rank (upstreamNode c) < fuel →
    is_Some (getNodeOutput network fuel c st).
Proof.
  intros Hch HR fuel. induction fuel as [|fuel IH]; intros c st Hd Hf; [lia|].
  cbn [getNodeOutput].
  assert (∀ (m : M VtValue), is_Some (m st) →
            is_Some (bind m (λ result,
                       seqM (emit (EvReturn c result)) (ret result)) st))
    as Hwrap.
  { intros m [[[v st1] e1] E]. unfold bind. rewrite E. by eexists. }
  apply Hwrap.
  destruct (mapFind _ _) as [node|] eqn:Hnode; [|by eexists].
  destruct (backendNodes st !! upstreamNode c) as [n|] eqn:Hn.
  - case_bool_decide as Hv.
    + unfold seqM, bind, ret, readOutput. simpl. rewrite Hn. by eexists.
    + set (st1 := mkResolver (backendNodes st)
                             ({[upstreamNode c]} ∪ visited st)).
      assert (unvisited st1 < unvisited st) as Hlt.
      { unfold unvisited, st1. simpl. apply unvisited_mark; [|done].
        apply elem_of_dom. by eexists. }
      assert (totalBelow owned (unvisited st1)
                (wireInputs (getNodeOutput network fuel) (upstreamNode c)
                            (inputConnections node))) as Hw.
      { apply totalBelow_wireInputs; [intros; apply sound_getNodeOutput|].
        intros c0 st0 Hd0 Hk0. apply IH; [done|].
        pose proof (HR (upstreamNode c0)). nia. }
      destruct (Hw st1) as [[[u st2] e2] E2]; [done|done|].
      unfold seqM at 1. unfold bind at 1. unfold seqM at 1. unfold bind at 1.
      unfold markVisited at 1. fold st1. rewrite E2.
      assert (is_Some (backendNodes st2 !! upstreamNode c)) as [n2 Hn2].
      { apply elem_of_dom.
        destruct (sound_wireInputs (getNodeOutput network fuel)
                    (upstreamNode c) (inputConnections node)
                    (λ c0, sound_getNodeOutput network fuel c0)
                    _ _ _ _ E2) as (_ & _ & _ & Hd2).
        rewrite Hd2. apply elem_of_dom. by eexists. }
      unfold readOutput. rewrite Hn2. by eexists.
  - unfold passThrough.
    destruct (inputConnections node) as [|[i [|c0 [|c1 cs]]] rest] eqn:Hin;
      try by eexists.
    apply IH; [done|].
    assert (rank (upstreamNode c0) < rank (upstreamNode c)); [|lia].
    eapply Hch; [exact Hnode| |exact Hin].
    rewrite <-Hd. by apply not_elem_of_dom.
Qed.

Lemma totalBelow_getTerminalOutput network rank R owned fuel name :
  chainsEnd network owned rank → (∀ p, rank p ≤ R) →
  ∀ K, K * S R + R < fuel →
       totalBelow owned K (getTerminalOutput network fuel name).
Proof.
  intros Hch HR K Hf. unfold getTerminalOutput.
  destruct (mapFind _ _) as [c|]; [|apply totalBelow_ret].
  intros st Hd Hk. eapply getNodeOutput_terminates; try done.
  pose proof (HR (upstreamNode c)). nia.
Qed.

(** X10.  A loop of nodes without backend node: the recursion of the source
    has no bound of its own, and no budget is enough for a connection
    that leads into the loop. *)
Theorem pass_through_loop_never_returns network st P c :
  passThroughLoop network st P → upstreamNode c ∈ P →
  ∀ fuel, getNodeOutput network fuel c st = None.
Proof.
  intros HP Hc fuel. revert c Hc.
  induction fuel as [|fuel IH]; intros c Hc; [done|].
  destruct (HP _ Hc) as (node & i & c0 & rest & Hnode & Hn & Hin & Hc0).
  cbn [getNodeOutput]. unfold bind at 1. rewrite Hnode, Hn.
  unfold passThrough. rewrite Hin. by rewrite (IH c0 Hc0).
Qed.

(** X11.  The visited set stops every cycle that passes through a backend
    node: when the chains of nodes without backend node end, a
    resolution returns, whatever cycles the network has, and so does the
    build of the material. *)
Theorem resolution_returns network rank R :
  (∀ p, rank p ≤ R) →
  (∀ st c,
     chainsEnd network (dom (backendNodes st)) rank →
     is_Some (getNodeOutput network (S (unvisited st * S R + R)) c st)) ∧
  (∀ materialId isVolume b fuel,
     chainsEnd network
       (dom (materialNodes (buildNodes network (emptyContext b)).1.1)) rank →
     size (dom (materialNodes (buildNodes network (emptyContext b)).1.1)) * S R
       + R < fuel →
     is_Some (CreateMaterial fuel materialId network isVolume b)).
Proof.
  intros HR. split.
  - intros st c Hch. eapply getNodeOutput_terminates; try done.
    pose proof (HR (upstreamNode c)). lia.
  - intros materialId isVolume b fuel Hch Hf. unfold CreateMaterial.
    destruct (usdShadeMtlxMaterial _ _ _ _); [by eexists|].
    unfold createGraphBasedMaterial.
    destruct (buildNodes _ _) as [[pass [e|]] evs1]; [by eexists|].
    simpl in *.
    set (K := size (dom (materialNodes pass))) in *.
    assert (totalBelow (dom (materialNodes pass)) K
                       (resolveTerminals network fuel)) as Ht.
    { unfold resolveTerminals.
      repeat (apply totalBelow_bind;
              [apply sound_getTerminalOutput
              |by eapply totalBelow_getTerminalOutput|intros ?]).
      apply totalBelow_ret. }
    destruct (Ht (mkResolver (materialNodes pass) ∅))
      as [[[[[vo so] do] st'] evs2] ->]; [done| |].
    { unfold unvisited, K. simpl. apply subseteq_size. set_solver. }
    destruct (Finalize _ _ _ _ _ _ _) as [[out ok] evs3]. by eexists.
Qed.

(** ** How a build ends *)

Lemma getNodeOutput_loop network st P c :
  passThroughLoop network st P → upstreamNode c ∈ P →
  ∀ fuel, getNodeOutput network fuel c st = None.
Proof.
  intros HP Hc fuel. revert c Hc.
  induction fuel as [|fuel IH]; intros c Hc; [done|].
  destruct (HP _ Hc) as (node & i & c0 & rest & Hnode & Hn & Hin & Hc0).
  cbn [getNodeOutput]. unfold bind at 1. rewrite Hnode, Hn.
  unfold passThrough. rewrite Hin. by rewrite (IH c0 Hc0).
Qed.

Lemma passThroughLoop_dom network st st' P :
  dom (backendNodes st') = dom (backendNodes st) →
  passThroughLoop network st P → passThroughLoop network st' P.
Proof.
  intros Hd HP p Hp.
  destruct (HP p Hp) as (node & i & c & rest & Hnode & Hn & Hin & Hc).
  exists node, i, c, rest. repeat split; try done.
  apply not_elem_of_dom. rewrite Hd. by apply not_elem_of_dom.
Qed.

(** A terminal that leads into a loop of nodes without backend node
    keeps the three terminals from being resolved. *)
Lemma resolveTerminals_loop network st P name c fuel :
  passThroughLoop network st P →
  name ∈ [volumeToken; surfaceToken; displacementToken] →
  mapFind name (terminals network) = Some c → upstreamNode c ∈ P →
  resolveTerminals network fuel st = None.
Proof.
  intros HP Hname Hc HcP.
  assert (∀ st1, dom (backendNodes st1) = dom (backendNodes st) →
                 getTerminalOutput network fuel name st1 = None) as Hnone.
  { intros st1 Hd. unfold getTerminalOutput. rewrite Hc.
    eapply getNodeOutput_loop; [|done]. by eapply passThroughLoop_dom. }
  unfold resolveTerminals, bind.
  destruct (getTerminalOutput network fuel volumeToken st)
    as [[[vo st1] e1]|] eqn:E1; [|done].
  destruct (sound_getTerminalOutput _ _ _ _ _ _ _ E1) as (_ & _ & _ & Hd1).
  destruct (getTerminalOutput network fuel surfaceToken st1)
    as [[[so st2] e2]|] eqn:E2; [|done].
  destruct (sound_getTerminalOutput _ _ _ _ _ _ _ E2) as (_ & _ & _ & Hd2).
  destruct (getTerminalOutput network fuel displacementToken st2)
    as [[[do st3] e3]|] eqn:E3; [|done].
  exfalso. rewrite !elem_of_cons, elem_of_nil in Hname.
  destruct Hname as [->|[->|[->|[]]]].
  - by rewrite Hnone in E1.
  - by rewrite Hnone in E2.
  - rewrite Hnone in E3; [done|]. by rewrite Hd2.
Qed.

(** When the chains of nodes without backend node end, the terminals are
    resolved within the budget. *)
Lemma resolveTerminals_terminates network rank R fuel st :
  chainsEnd network (dom (backendNodes st)) rank → (∀ p, rank p ≤ R) →
  size (dom (backendNodes st)) * S R + R < fuel →
  is_Some (resolveTerminals network fuel st).
Proof.
  intros Hch HR Hf.
  assert (totalBelow (dom (backendNodes st)) (size (dom (backendNodes st)))
                     (resolveTerminals network fuel)) as Ht.
  { unfold resolveTerminals.
    repeat (apply totalBelow_bind;
            [apply sound_getTerminalOutput
            |by eapply totalBelow_getTerminalOutput|intros ?]).
    apply totalBelow_ret. }
  apply Ht; [done|]. unfold unvisited. apply subseteq_size. set_solver.
Qed.

Lemma getTerminalRprNode_holds v n :
  (getTerminalRprNode v).1 = Some n ↔ v = VtMaterialNode (Some n).
Proof. tidy. destruct v as [| | |[k|]|]; simpl; naive_solver. Qed.


(** ** What a resolution binds, and where *)

Lemma boundFromConnections_app network W e1 e2 :
  boundFromConnections network W e1 → boundFromConnections network W e2 →
  boundFromConnections network W (e1 ++ e2).
Proof.
  intros H1 H2 p i v [Hin|Hin]%elem_of_app.
  - destruct (H1 p i v Hin) as (Hw & He & node & c & Hn & Hi & Hr).
    split; [|split; [done|]].
    + destruct Hw as [?|?]; [by left|right].
      rewrite wiredOf_app. apply elem_of_app. by left.
    + exists node, c. split; [done|]. split; [done|].
      apply elem_of_app. by left.
  - destruct (H2 p i v Hin) as (Hw & He & node & c & Hn & Hi & Hr).
    split; [|split; [done|]].
    + destruct Hw as [?|?]; [by left|right].
      rewrite wiredOf_app. apply elem_of_app. by right.
    + exists node, c. split; [done|]. split; [done|].
      apply elem_of_app. by right.
Qed.

Lemma wiresLocally_ret {A : Type} network W (a : A) :
  wiresLocally network W (ret a).
Proof.
  intros st a' st' evs [= <- <- <-]. split; [|done].
  by intros p i v ?%elem_of_nil.
Qed.

Lemma wiresLocally_emit network W ev :
  (∀ p i v, ev ≠ EvSetInput p i v) → wiresLocally network W (emit ev).
Proof.
  intros Hev st a st' evs [= <- <- <-]. split; [|done].
  intros p i v Hin%list_elem_of_singleton. by destruct (Hev p i v).
Qed.

Lemma wiresLocally_readOutput network W p o :
  wiresLocally network W (readOutput p o).
Proof.
  intros st a st' evs. unfold readOutput.
  destruct (backendNodes st !! p); intros [= <- <- <-]; (split; [|done]).
  - by intros q i v [=]%list_elem_of_singleton.
  - by intros q i v ?%elem_of_nil.
Qed.

Lemma wiresLocally_bind {A B : Type} network W (m : M A) (f : A → M B) :
  wiresLocally network W m → (∀ a, wiresLocally network W (f a)) →
  wiresLocally network W (bind m f).
Proof.
  intros Hm Hf st b st' evs (a & st1 & e1 & e2 & H1 & H2 & ->)%bind_Some.
  destruct (Hm _ _ _ _ H1) as [B1 F1]. destruct (Hf _ _ _ _ _ H2) as [B2 F2].
  split; [by apply boundFromConnections_app|].
  intros q Hq Hw. rewrite wiredOf_app in Hw.
  rewrite F2, F1; [done|done| |done|].
  - intros ?. apply Hw, elem_of_app. by left.
  - intros ?. apply Hw, elem_of_app. by right.
Qed.

Lemma wiresLocally_weaken {A : Type} network W (m : M A) :
  wiresLocally network ∅ m → wiresLocally network W m.
Proof.
  intros Hm st a st' evs H. destruct (Hm _ _ _ _ H) as [B F]. split.
  - intros p i v Hin. destruct (B p i v Hin) as ([Hw|Hw] & ?); [|by split; [right|]].
    by apply elem_of_empty in Hw.
  - intros q _ Hq. apply F; [|done]. by intros ?%elem_of_empty.
Qed.

Lemma wiresLocally_first_visit {A : Type} network p (k : M A) :
  wiresLocally network {[p]} k →
  wiresLocally network ∅ (seqM (markVisited p) k).
Proof.
  intros Hk st a st' evs (u & st1 & e1 & e2 & Hm & Hrun & ->)%seqM_Some.
  injection Hm as <- <- <-. destruct (Hk _ _ _ _ Hrun) as [B F]. split.
  - intros q i v [[=]|Hin]%elem_of_cons.
    destruct (B q i v Hin) as (Hw & He & node & c & Hn & Hi & Hr).
    split; [right|split; [done|]].
    + simpl. destruct Hw as [->%elem_of_singleton|?]; [by left|by right].
    + exists node, c. split; [done|]. split; [done|]. by right.
  - intros q _ Hq. simpl in Hq. rewrite F; [done| |].
    + intros ->%elem_of_singleton. apply Hq. by left.
    + intros ?. apply Hq. by right.
Qed.

Lemma wiresLocally_wireInputs network rec p node inputs :
  mapFind p (nodes network) = Some node →
  (∀ x, x ∈ inputs → x ∈ inputConnections node) →
  (∀ c, wiresLocally network ∅ (rec c)) →
  (∀ c s v s' e, rec c s = Some (v, s', e) → EvReturn c v ∈ e) →
  wiresLocally network {[p]} (wireInputs rec p inputs).
Proof.
  intros Hnode Hsub Hrec Hret.
  induction inputs as [|[i [|c [|c' cs]]] rest IH]; simpl.
  - apply wiresLocally_ret.
  - apply IH. intros x Hx. apply Hsub. by right.
  - assert (wiresLocally network {[p]} (wireInputs rec p rest)) as IH'.
    { apply IH. intros x Hx. apply Hsub. by right. }
    intros st a st' evs (v & st1 & e1 & e23 & H1 & H2 & ->)%bind_Some.
    apply seqM_Some in H2 as (u & st2 & e2 & e3 & H2 & H3 & ->).
    destruct (wiresLocally_weaken network {[p]} _ (Hrec c) _ _ _ _ H1)
      as [B1 F1].
    destruct (IH' _ _ _ _ H3) as [B3 F3].
    pose proof (Hret _ _ _ _ _ H1) as Hr1.
    assert (boundFromConnections network {[p]} (e1 ++ e2) ∧
            ∀ q, q ∉ ({[p]} : gset string) →
                 backendNodes st2 !! q = backendNodes st1 !! q) as [B2 F2].
    { destruct (IsEmpty v) eqn:Ev.
      - injection H2 as <- <- <-. by rewrite app_nil_r.
      - injection H2 as <- <- <-. split.
        + intros q j w [Hin|Hin]%elem_of_app.
          * destruct (B1 q j w Hin) as (Hw & He & node' & c0 & Hn & Hi & Hr).
            split; [|split; [done|]].
            -- destruct Hw as [?|?]; [by left|right].
               rewrite wiredOf_app. apply elem_of_app. by left.
            -- exists node', c0. split; [done|]. split; [done|].
               apply elem_of_app. by left.
          * apply list_elem_of_singleton in Hin. injection Hin as -> -> ->.
            split; [left; by apply elem_of_singleton|]. split; [done|].
            exists node, c. split; [done|]. split.
            -- apply Hsub. by left.
            -- apply elem_of_app. by left.
        + intros q Hq. simpl. apply lookup_alter_ne.
          intros ->. apply Hq. by apply elem_of_singleton. }
    split.
    + rewrite app_assoc. apply boundFromConnections_app; [done|].
      intros q j w Hin.
      destruct (B3 q j w Hin) as (Hw & He & node' & c0 & Hn & Hi & Hr).
      split; [done|]. split; [done|]. by exists node', c0.
    + intros q Hq Hw. rewrite !wiredOf_app in Hw.
      rewrite F3, F2, F1; [done|done| |done|done|].
      * intros ?. apply Hw, elem_of_app. by left.
      * intros ?. apply Hw, elem_of_app. right. apply elem_of_app. by right.
  - apply wiresLocally_bind.
    + by apply wiresLocally_emit.
    + intros _. apply IH. intros x Hx. apply Hsub. by right.
Qed.

Lemma wiresLocally_getNodeOutput network fuel c :
  wiresLocally network ∅ (getNodeOutput network fuel c).
Proof.
  revert c. induction fuel as [|fuel IH]; intros c; [by intros st a st' evs|].
  simpl. apply wiresLocally_bind.
  2:{ intros v. apply wiresLocally_bind;
        [by apply wiresLocally_emit|intros; apply wiresLocally_ret]. }
  destruct (mapFind _ _) as [node|] eqn:Hnode.
  2:{ apply wiresLocally_bind;
        [by apply wiresLocally_emit|intros; apply wiresLocally_ret]. }
  intros st a st' evs.
  destruct (backendNodes st !! upstreamNode c) as [n|].
  2:{ unfold passThrough.
      destruct (inputConnections node) as [|[i [|c0 [|c1 cs]]] rest].
      - apply wiresLocally_ret.
      - apply wiresLocally_ret.
      - apply IH.
      - apply wiresLocally_bind;
          [by apply wiresLocally_emit|intros; apply wiresLocally_ret]. }
  case_bool_decide as Hv.
  - apply wiresLocally_bind;
      [apply wiresLocally_ret|intros; apply wiresLocally_readOutput].
  - apply wiresLocally_bind; [|intros; apply wiresLocally_readOutput].
    apply wiresLocally_first_visit.
    eapply wiresLocally_wireInputs; [exact Hnode|done|exact IH|].
    intros c0 s v s' e H.
    destruct (getNodeOutput_returns _ _ _ _ _ _ _ H) as [e0 ->].
    apply elem_of_app. right. by left.
Qed.

(** X12.  A resolution binds to a node only while it wires it, and only the
    non-empty value that the one connection of the input resolved to; a
    backend node that is not wired is left as it was. *)
Theorem inputs_bound_from_connections network fuel c st v st' evs :
  getNodeOutput network fuel c st = Some (v, st', evs) →
  (∀ p i w,
     EvSetInput p i w ∈ evs →
     p ∈ wiredOf evs ∧ IsEmpty w = false ∧
     ∃ node c0, mapFind p (nodes network) = Some node ∧
                (i, [c0]) ∈ inputConnections node ∧ EvReturn c0 w ∈ evs) ∧
  (∀ q, q ∉ wiredOf evs → backendNodes st' !! q = backendNodes st !! q).
Proof.
  intros H. destruct (wiresLocally_getNodeOutput network fuel c _ _ _ _ H)
    as [B F].
  split.
  - intros p i w Hin. destruct (B p i w Hin) as ([Hw|Hw] & He & Hx).
    + by apply elem_of_empty in Hw.
    + done.
  - intros q Hq. apply F; [|done]. by intros ?%elem_of_empty.
Qed.

(** ** The nodes a build constructs *)

Lemma createNode_dom entry st p :
  p ∈ dom (materialNodes (createNode entry st).1) ↔
  p ∈ dom (materialNodes st) ∨
  ∃ t n, EvFactory p t (Created n) ∈ (createNode entry st).2.
Proof.
  case_createNode entry; rewrite ?dom_insert_L, ?elem_of_union,
    ?elem_of_singleton; (split; [intros H|intros [H|(t & m & H)]]);
    rewrite ?elem_of_cons, ?elem_of_nil in *; destruct_or?; simplify_eq;
    eauto; right; eexists _, _; by left.
Qed.

Lemma createNodes_dom entries st p :
  p ∈ dom (materialNodes (createNodes entries st).1) ↔
  p ∈ dom (materialNodes st) ∨
  ∃ t n, EvFactory p t (Created n) ∈ (createNodes entries st).2.
Proof.
  revert st. induction entries as [|e rest IH]; intros st.
  { simpl. split; [by left|]. intros [?|(t & n & ?%elem_of_nil)]; done. }
  rewrite createNodes_cons. cbn [fst snd]. rewrite IH, createNode_dom.
  split.
  - intros [[?|(t & n & H)]|(t & n & H)]; [by left| |];
      right; exists t, n; apply elem_of_app; [by left|by right].
  - intros [?|(t & n & [H|H]%elem_of_app)]; [by left; left| |].
    + left. right. by exists t, n.
    + right. by exists t, n.
Qed.

Lemma surfaceParts_detected entries q ps :
  (q, ps) ∈ surfaceParts entries →
  IsHoudiniPrincipledShaderHydraNode q = Some true.
Proof.
  unfold surfaceParts. rewrite list_elem_of_omap.
  intros ([q' node] & Hin & Heq). unfold housePart in Heq. simpl in Heq.
  destruct (registeredFactory (nodeTypeId node)) eqn:Hf; [done|].
  destruct (IsHoudiniPrincipledShaderHydraNode q') as [[|]|] eqn:Hh;
    by simplify_eq.
Qed.

(** The domain of [materialNodes] after the per-node pass. *)
Lemma buildNodes_dom network c p :
  p ∈ dom (materialNodes (buildNodes network c).1.1) ↔
  (∃ t n, EvFactory p t (Created n) ∈ (buildNodes network c).2) ∨
  ((buildNodes network c).1.2 = None ∧
   ∃ part, last (surfaceParts (nodes network)) = Some part ∧ part.1 = p).
Proof.
  rewrite buildNodes_unfold. cbn [fst snd].
  rewrite createHoudiniNode_nodes, createHoudiniNode_events,
    createHoudiniNode_thrown.
  rewrite createNodes_surface. cbn [houdiniSurface].
  assert (∀ evs2 : list Event,
            (∀ t n, EvFactory p t (Created n) ∉ evs2) →
            (∃ t n, EvFactory p t (Created n) ∈
                    (createNodes (nodes network) (mkPass c ∅ None None)).2
                    ++ evs2) ↔
            p ∈ dom (materialNodes
                       (createNodes (nodes network)
                                    (mkPass c ∅ None None)).1)) as Hev.
  { intros evs2 Hno. rewrite createNodes_dom. cbn [materialNodes].
    rewrite dom_empty_L. split.
    - intros (t & n & [H|H]%elem_of_app); [right; by exists t, n|].
      by destruct (Hno t n).
    - intros [?%elem_of_empty|(t & n & H)]; [done|].
      exists t, n. apply elem_of_app. by left. }
  destruct (last (surfaceParts (nodes network))) as [part|].
  - destruct (HoudiniPrincipledNode _ _ _).1 as [node|e].
    + rewrite dom_insert_L, elem_of_union, elem_of_singleton, Hev.
      2:{ intros t n [=]%list_elem_of_singleton. }
      split.
      * intros [->|?]; [right; split; [done|]; by exists part|by left].
      * intros [?|(_ & part' & [= <-] & <-)]; [by right|by left].
    + rewrite Hev. 2:{ intros t n [=]%list_elem_of_singleton. }
      split; [by left|]. by intros [?|([=] & _)].
  - rewrite Hev. 2:{ intros t n ?%elem_of_nil. done. }
    split; [by left|]. by intros [?|(_ & part' & [=] & _)].
Qed.

(** X13.  After the per-node pass [materialNodes] holds a node exactly at the
    paths whose factory returned one, and at the path of the last
    surface part of the composite family when the constructor of the
    merged node returned. *)
Theorem constructed_nodes network c p :
  p ∈ dom (materialNodes (buildNodes network c).1.1) ↔
  (∃ t n, EvFactory p t (Created n) ∈ (buildNodes network c).2) ∨
  ((buildNodes network c).1.2 = None ∧
   ∃ part, last (surfaceParts (nodes network)) = Some part ∧ part.1 = p).
Proof. apply buildNodes_dom. Qed.

Lemma createNode_unknown entry st t :
  EvLog (UnknownNodeType t) ∈ (createNode entry st).2 ↔
  nodeTypeId entry.2 = t ∧ registeredFactory t = None ∧
  IsHoudiniPrincipledShaderHydraNode entry.1 = None.
Proof.
  case_createNode entry;
    (split; [intros H|intros (<- & Hr & Hh)]);
    rewrite ?elem_of_cons, ?elem_of_nil in *; destruct_or?; simplify_eq;
    eauto.
Qed.

Lemma createNodes_unknown entries st t :
  EvLog (UnknownNodeType t) ∈ (createNodes entries st).2 ↔
  ∃ p node, (p, node) ∈ entries ∧ nodeTypeId node = t ∧
            registeredFactory t = None ∧
            IsHoudiniPrincipledShaderHydraNode p = None.
Proof.
  revert st. induction entries as [|e rest IH]; intros st.
  { simpl. split; [by intros ?%elem_of_nil|].
    by intros (p & node & ?%elem_of_nil & _). }
  rewrite createNodes_cons. cbn [snd].
  rewrite elem_of_app, IH, createNode_unknown. split.
  - intros [(? & ? & ?)|(p & node & Hin & ?)].
    + exists e.1, e.2. split; [destruct e; by left|done].
    + exists p, node. split; [by right|done].
  - intros (p & node & [<-|Hin]%elem_of_cons & ?); [by left|].
    right. by exists p, node.
Qed.

(** X14.  The warning about an unknown node type is issued exactly for the
    types of the nodes that have no registered factory and are no part
    of the composite family; no backend node is made for such a node. *)
Theorem unknown_node_types_warned network c :
  (∀ t, UnknownNodeType t ∈ logOf (buildNodes network c).2 ↔
        ∃ p node, (p, node) ∈ nodes network ∧ nodeTypeId node = t ∧
                  registeredFactory t = None ∧
                  IsHoudiniPrincipledShaderHydraNode p = None) ∧
  (NoDup (nodes network).*1 →
   ∀ p node, (p, node) ∈ nodes network →
             registeredFactory (nodeTypeId node) = None →
             IsHoudiniPrincipledShaderHydraNode p = None →
             materialNodes (buildNodes network c).1.1 !! p = None).
Proof.
  split.
  - intros t. rewrite elem_of_logOf, buildNodes_unfold. cbn [snd].
    rewrite elem_of_app, createNodes_unknown, createHoudiniNode_events.
    split; [|by left]. intros [?|H]; [done|].
    destruct (houdiniSurface _).
    + by apply list_elem_of_singleton in H.
    + by apply elem_of_nil in H.
  - intros Hnd p node Hin Hreg Hh. apply not_elem_of_dom.
    rewrite buildNodes_dom.
    intros [(t & n & Hev)|(_ & part & Hlast & <-)].
    + rewrite buildNodes_unfold in Hev. cbn [snd] in Hev.
      rewrite createHoudiniNode_events in Hev.
      apply elem_of_app in Hev as [Hev|Hev].
      * apply createNodes_factory_in in Hev
          as (_ & [f Hf] & node' & Hin' & ->).
        rewrite (NoDup_fst_unique _ _ _ _ Hnd Hin Hin') in Hreg. congruence.
      * destruct (houdiniSurface _).
        -- by apply list_elem_of_singleton in Hev.
        -- by apply elem_of_nil in Hev.
    + apply last_Some_elem_of in Hlast. destruct part as [q ps].
      apply surfaceParts_detected in Hlast. simpl in Hh. congruence.
Qed.

(** ** The material and its terminals *)

Lemma resolveTerminals_Some network fuel st outputs st' evs :
  resolveTerminals network fuel st = Some (outputs, st', evs) →
  ∃ st1 st2 e1 e2 e3,
    getTerminalOutput network fuel volumeToken st =
      Some (outputs.1.1, st1, e1) ∧
    getTerminalOutput network fuel surfaceToken st1 =
      Some (outputs.1.2, st2, e2) ∧
    getTerminalOutput network fuel displacementToken st2 =
      Some (outputs.2, st', e3) ∧
    evs = e1 ++ e2 ++ e3.
Proof.
  unfold resolveTerminals.
  intros (vo & st1 & e1 & e' & H1 & H & ->)%bind_Some.
  apply bind_Some in H as (so & st2 & e2 & e'' & H2 & H & ->).
  apply bind_Some in H as (do & st3 & e3 & e4 & H3 & H & ->).
  injection H as <- <- <-. exists st1, st2, e1, e2, e3.
  by rewrite app_nil_r.
Qed.

(** A terminal that is absent, or whose connection leads to no node of
    the network, resolves to the empty value; the second is reported. *)
Lemma getTerminalOutput_without_node network fuel name st v st' evs :
  getTerminalOutput network fuel name st = Some (v, st', evs) →
  (∀ c, mapFind name (terminals network) = Some c →
        mapFind (upstreamNode c) (nodes network) = None) →
  v = VtEmpty ∧ st' = st ∧
  ∀ c, mapFind name (terminals network) = Some c →
       evs = [EvLog (InvalidConnection (upstreamNode c)); EvReturn c VtEmpty].
Proof.
  unfold getTerminalOutput. destruct (mapFind name _) as [c|].
  - intros H Hc. specialize (Hc c eq_refl). destruct fuel as [|fuel]; [done|].
    cbn [getNodeOutput] in H. rewrite Hc in H.
    injection H as <- <- <-. split; [done|]. split; [done|].
    by intros c' [= <-].
  - intros [= <- <- <-] _. by repeat split.
Qed.

Lemma getTerminalRprNode_empty : getTerminalRprNode VtEmpty = (None, []).
Proof. done. Qed.

(** X15.  A material made from the graph has a node for a terminal only when
    the network has that terminal and the node it names; a terminal that
    names a node the network does not have is reported as an invalid
    connection. *)
Theorem terminal_needs_its_node fuel materialId network isVolume b mat evs :
  CreateMaterial fuel materialId network isVolume b =
    Some (Returned mat, evs) →
  usdShadeMtlxMaterial materialId network isVolume b = None →
  (∀ m, mat = Some m →
        ∀ name node,
          (name, node) ∈ [(volumeToken, m_volumeNode m);
                          (surfaceToken, m_surfaceNode m);
                          (displacementToken, m_displacementNode m)] →
          is_Some node →
          ∃ c, mapFind name (terminals network) = Some c ∧
               is_Some (mapFind (upstreamNode c) (nodes network))) ∧
  (∀ name c,
     name ∈ [volumeToken; surfaceToken; displacementToken] →
     mapFind name (terminals network) = Some c →
     mapFind (upstreamNode c) (nodes network) = None →
     InvalidConnection (upstreamNode c) ∈ logOf evs).
Proof.
  intros Hrun Hm. unfold CreateMaterial in Hrun. rewrite Hm in Hrun.
  apply createGraphBasedMaterial_Some
    in Hrun as (outputs & st' & evs2 & Hres & Hmat & ->).
  apply resolveTerminals_Some
    in Hres as (st1 & st2 & e1 & e2 & e3 & Hv & Hs & Hd & ->).
  destruct outputs as [[vo so] do]. cbn [fst snd] in Hv, Hs, Hd.
  simpl in Hmat.
  destruct (Finalize_spec (backendNodes st')
              (ctx (buildNodes network (emptyContext b)).1.1) so do vo
              (c_str (cryptomatteName materialId network))
              (materialRprId network)) as (Hn & _ & Hok & _).
  simpl in Hn, Hok.
  assert (∀ name st0 v st0' e,
            getTerminalOutput network fuel name st0 = Some (v, st0', e) →
            is_Some (getTerminalRprNode v).1 →
            ∃ c, mapFind name (terminals network) = Some c ∧
                 is_Some (mapFind (upstreamNode c) (nodes network))) as Hneed.
  { intros name st0 v st0' e Hrun [n Hnode].
    destruct (mapFind name (terminals network)) as [c|] eqn:Ht.
    - exists c. split; [done|].
      destruct (mapFind (upstreamNode c) (nodes network)) eqn:Hc;
        [by eexists|].
      destruct (getTerminalOutput_without_node _ _ _ _ _ _ _ Hrun)
        as (-> & _); [|done].
      intros c' Hc'. rewrite Ht in Hc'. by injection Hc' as <-.
    - destruct (getTerminalOutput_without_node _ _ _ _ _ _ _ Hrun)
        as (-> & _); [|done].
      intros c'. by rewrite Ht. }
  assert (∀ name st0 v st0' e c,
            getTerminalOutput network fuel name st0 = Some (v, st0', e) →
            mapFind name (terminals network) = Some c →
            mapFind (upstreamNode c) (nodes network) = None →
            EvLog (InvalidConnection (upstreamNode c)) ∈ e) as Hlog.
  { intros name st0 v st0' e c Hrun Ht Hc.
    destruct (getTerminalOutput_without_node _ _ _ _ _ _ _ Hrun)
      as (_ & _ & He).
    - intros c' Hc'. rewrite Ht in Hc'. by injection Hc' as <-.
    - rewrite (He c Ht). by left. }
  split.
  - intros m ->. destruct (Finalize _ _ _ _ _ _ _).1.2; [|done].
    injection Hmat as ->. injection Hn as Hvn Hsn Hdn.
    intros name node Hin Hsome.
    rewrite !elem_of_cons, elem_of_nil in Hin.
    destruct Hin as [[= -> ->]|[[= -> ->]|[[= -> ->]|[]]]].
    + rewrite Hvn in Hsome. by eapply Hneed.
    + rewrite Hsn in Hsome. by eapply Hneed.
    + rewrite Hdn in Hsome. by eapply Hneed.
  - intros name c Hin Ht Hc. apply elem_of_logOf.
    rewrite !elem_of_cons, elem_of_nil in Hin.
    apply elem_of_app. right. rewrite <-!app_assoc.
    destruct Hin as [->|[->|[->|[]]]].
    + apply elem_of_app. left. by eapply Hlog.
    + apply elem_of_app. right. apply elem_of_app. left. by eapply Hlog.
    + do 2 (apply elem_of_app; right). apply elem_of_app. left.
      by eapply Hlog.
Qed.

Lemma namesSet_app (a b : list Event) :
  namesSet (a ++ b) = namesSet a ++ namesSet b.
Proof. apply omap_app. Qed.

Lemma resolution_no_names (evs : list Event) :
  Forall resolutionEvent evs → namesSet evs = [].
Proof. induction 1 as [|[] evs Hev _ IH]; try done. Qed.

Lemma createNode_no_names entry st : namesSet (createNode entry st).2 = [].
Proof. by case_createNode entry. Qed.

Lemma buildNodes_no_names network c : namesSet (buildNodes network c).2 = [].
Proof.
  rewrite buildNodes_unfold. cbn [snd].
  rewrite namesSet_app, createHoudiniNode_events.
  assert (∀ l st, namesSet (createNodes l st).2 = []) as ->.
  { induction l as [|e l IH]; intros st; [done|].
    rewrite createNodes_cons. cbn [snd].
    by rewrite namesSet_app, IH, createNode_no_names. }
  by destruct (houdiniSurface _).
Qed.

(** [c_str] cuts at the first null character, and only there. *)
Lemma c_str_cut (s : string) :
  ∃ rest, s = c_str s +:+ rest ∧
          (rest = EmptyString ∨ ∃ r, rest = String Ascii.zero r).
Proof.
  tidy. induction s as [|ch s (rest & IH & Hrest)].
  - exists EmptyString. split; [done|by left].
  - cbn [c_str]. destruct (Ascii.eqb_spec ch Ascii.zero) as [->|Hne].
    + exists (String Ascii.zero s). split; [done|]. right. by eexists.
    + exists rest. split; [|done].
      change (String ch s = String ch (c_str s +:+ rest)). by rewrite <-IH.
Qed.

Lemma c_str_no_null (s a b : string) : c_str s ≠ a +:+ String Ascii.zero b.
Proof.
  tidy. revert a. induction s as [|ch s IH]; intros a.
  - by destruct a.
  - cbn [c_str]. destruct (Ascii.eqb_spec ch Ascii.zero) as [->|Hne].
    + by destruct a.
    + destruct a as [|ch' a].
      * change (String ch (c_str s) ≠ String Ascii.zero b). congruence.
      * change (String ch (c_str s) ≠
                String ch' (a +:+ String Ascii.zero b)).
        intros [= _ H]. by apply IH in H.
Qed.

Lemma c_str_idemp (s : string) : c_str (c_str s) = c_str s.
Proof.
  tidy. induction s as [|ch s IH]; [done|]. cbn [c_str].
  destruct (Ascii.eqb ch Ascii.zero) eqn:E; [done|].
  cbn [c_str]. by rewrite E, IH.
Qed.

Lemma Finalize_names owned context s d v name id :
  namesSet (Finalize owned context s d v name id).2 =
  match (getTerminalRprNode s).1 with
  | Some n => [(n, c_str name)]
  | None => []
  end.
Proof.
  tidy. unfold Finalize.
  assert (∀ x, namesSet (getTerminalRprNode x).2 = []) as Hno
    by (by intros []).
  pose proof (Hno v) as H1. pose proof (Hno s) as H2. pose proof (Hno d) as H3.
  destruct (getTerminalRprNode v) as [vn e1].
  destruct (getTerminalRprNode s) as [sn e2].
  destruct (getTerminalRprNode d) as [dn e3]. simpl in *.
  rewrite !namesSet_app, H1, H2, H3. simpl.
  destruct sn as [n|]; [|done]. rewrite namesSet_app.
  by destruct (0 <=? id)%Z.
Qed.


Lemma wiresLocally_resolveTerminals network fuel :
  wiresLocally network ∅ (resolveTerminals network fuel).
Proof.
  unfold resolveTerminals.
  repeat (apply wiresLocally_bind;
          [unfold getTerminalOutput; destruct (mapFind _ _);
           [apply wiresLocally_getNodeOutput|apply wiresLocally_ret]
          |intros ?]).
  apply wiresLocally_ret.
Qed.

Lemma wiredOf_build network c : wiredOf (buildNodes network c).2 = [].
Proof.
  rewrite buildNodes_unfold. cbn [snd].
  rewrite wiredOf_app, createHoudiniNode_events.
  assert (∀ l st, wiredOf (createNodes l st).2 = []) as ->.
  { induction l as [|e l IH]; intros st; [done|].
    rewrite createNodes_cons. cbn [snd]. rewrite wiredOf_app, IH.
    by case_createNode e. }
  by destruct (houdiniSurface _).
Qed.

(** X17.  A material made from the graph owns a node at every path at which
    the per-node pass made one, whether a terminal leads to it or not,
    and no other; a node that no resolution wired is owned as it was
    made. *)
Theorem material_keeps_what_was_built fuel materialId network isVolume b m
        evs :
  CreateMaterial fuel materialId network isVolume b =
    Some (Returned (Some m), evs) →
  usdShadeMtlxMaterial materialId network isVolume b = None →
  let pass := (buildNodes network (emptyContext b)).1.1 in
  dom (materialNodesOwned m) = dom (materialNodes pass) ∧
  (∀ q, q ∉ wiredOf evs → materialNodesOwned m !! q = materialNodes pass !! q).
Proof.
  intros Hrun Hm. unfold CreateMaterial in Hrun. rewrite Hm in Hrun.
  apply createGraphBasedMaterial_Some
    in Hrun as (outputs & st' & evs2 & Hres & Hmat & ->).
  destruct outputs as [[vo so] do]. cbn [fst snd] in Hmat |- *.
  cbn zeta in Hmat.
  destruct (sound_resolveTerminals _ _ _ _ _ _ Hres) as (_ & _ & _ & Hd).
  destruct (wiresLocally_resolveTerminals _ _ _ _ _ _ Hres) as [_ Hf].
  remember (Finalize (backendNodes st')
              (ctx (buildNodes network (emptyContext b)).1.1) so do vo
              (c_str (cryptomatteName materialId network))
              (materialRprId network)) as r eqn:Er.
  assert (materialNodesOwned r.1.1 = backendNodes st' ∧ wiredOf r.2 = [])
    as (Ho & Hw).
  { subst r. unfold Finalize.
    destruct (getTerminalRprNode vo) as [vn e1] eqn:E1.
    destruct (getTerminalRprNode so) as [sn e2] eqn:E2.
    destruct (getTerminalRprNode do) as [dn e3] eqn:E3. cbn [fst snd].
    repeat (split; [done|]).
    assert (∀ x, wiredOf (getTerminalRprNode x).2 = []) as Hno
      by (by intros []).
    pose proof (Hno vo) as N1. pose proof (Hno so) as N2.
    pose proof (Hno do) as N3. rewrite E1 in N1. rewrite E2 in N2.
    rewrite E3 in N3. cbn [snd] in *.
    rewrite !wiredOf_app, N1, N2, N3. simpl.
    destruct sn as [n|]; [|done]. rewrite wiredOf_app.
    by destruct (0 <=? materialRprId network)%Z. }
  destruct r.1.2; [|done]. injection Hmat as ->.
  cbn zeta. rewrite Ho. split; [exact Hd|].
  intros q Hq. rewrite !wiredOf_app, wiredOf_build, Hw, app_nil_r in Hq.
  simpl in Hq. rewrite Hf; [done| |done]. by intros ?%elem_of_empty.
Qed.

(** ** The pass-through rule *)

(** What a connection to a node without backend node resolves to, with
    the events. *)
Lemma getNodeOutput_passThrough_rule network fuel c st node :
  mapFind (upstreamNode c) (nodes network) = Some node →
  backendNodes st !! upstreamNode c = None →
  getNodeOutput network (S fuel) c st =
  match inputConnections node with
  | (_, [c0]) :: _ =>
      (λ r : VtValue * Resolver * list Event,
         (r.1.1, r.1.2, r.2 ++ [EvReturn c r.1.1]))
        <$> getNodeOutput network fuel c0 st
  | (_, _ :: _ :: _) :: _ =>
      Some (VtEmpty, st, [EvLog ConnectedArrayElements; EvReturn c VtEmpty])
  | _ => Some (VtEmpty, st, [EvReturn c VtEmpty])
  end.
Proof.
  intros Hnode Hn. cbn [getNodeOutput]. unfold bind at 1.
  rewrite Hnode, Hn. unfold passThrough.
  destruct (inputConnections node) as [|[i [|c0 [|c' cs]]] rest]; try done.
  by destruct (getNodeOutput network fuel c0 st) as [[[v s] e]|].
Qed.

Lemma mapFind_elem {V : Type} (k : string) (m : list (string * V)) v :
  mapFind k m = Some v → (k, v) ∈ m.
Proof.
  tidy. induction m as [|[k' v'] m IH]; [done|]. simpl.
  destruct (String.eqb_spec k' k) as [->|_].
  - intros [= ->]. by left.
  - intros H. right. by apply IH.
Qed.

(** *** The build of the network without a node of unknown type *)

(** The pass reads the type and the parameters of a node, not its
    connections. *)
Lemma createNode_rewired B cB p node st :
  createNode (p, rewireNode B cB node) st = createNode (p, node) st.
Proof. done. Qed.

Lemma createNode_unknown_agree p node st :
  registeredFactory (nodeTypeId node) = None →
  IsHoudiniPrincipledShaderHydraNode p = None →
  passAgree (createNode (p, node) st).1 st.
Proof.
  intros Hr Hh. unfold createNode. cbn [fst snd]. by rewrite Hr, Hh.
Qed.

(** Without the entries of [B], of unknown type, the pass ends in the
    same state up to [currentNodePath], and in the same state when the
    last entry is not one of [B]. *)
Lemma createNodes_removeEntry B cB entries st st' :
  (∀ node, (B, node) ∈ entries →
           registeredFactory (nodeTypeId node) = None ∧
           IsHoudiniPrincipledShaderHydraNode B = None) →
  passAgree st st' →
  passAgree (createNodes (removeEntry B cB entries) st).1
            (createNodes entries st').1 ∧
  (last entries.*1 ≠ Some B → entries ≠ [] →
   (createNodes (removeEntry B cB entries) st).1 =
   (createNodes entries st').1).
Proof.
  revert st st'.
  induction entries as [|[p node] rest IH]; intros st st' HB Hag; [done|].
  assert (∀ node, (B, node) ∈ rest →
                  registeredFactory (nodeTypeId node) = None ∧
                  IsHoudiniPrincipledShaderHydraNode B = None) as HB'
    by (intros n Hn; apply HB; by right).
  cbn [removeEntry]. rewrite (createNodes_cons (p, node)). cbn [fst].
  destruct (String.eqb_spec p B) as [->|Hne].
  - destruct (HB node) as [Hr Hh]; [by left|].
    assert (passAgree st (createNode (B, node) st').1) as Hag'.
    { unfold passAgree in *. rewrite Hag. symmetry.
      by apply createNode_unknown_agree. }
    destruct (IH st _ HB' Hag') as [H1 H2]. split; [done|].
    intros Hlast _. apply H2.
    + destruct rest as [|e rest']; [done|]. by rewrite fmap_cons in Hlast.
    + intros ->. by destruct Hlast.
  - rewrite createNodes_cons. cbn [fst].
    rewrite createNode_rewired, (createNode_agree _ st st' Hag).
    destruct (IH (createNode (p, node) st').1 (createNode (p, node) st').1
                 HB' eq_refl) as [H1 H2].
    split; [done|]. intros Hlast _.
    destruct rest as [|e rest']; [done|]. apply H2; [|done].
    by rewrite fmap_cons in Hlast.
Qed.

Lemma passAgree_createHoudiniNode a b :
  passAgree a b → houdiniSurface b = None →
  passAgree (createHoudiniNode a).1.1 (createHoudiniNode b).1.1 ∧
  (createHoudiniNode a).1.2 = (createHoudiniNode b).1.2.
Proof.
  intros Hag Hs. pose proof (passAgree_fields _ _ Hag) as (_ & Hs' & _).
  unfold createHoudiniNode. by rewrite Hs', Hs.
Qed.

(** The build of the network without [B], a node of unknown type that
    is no part of the composite family: the same backend nodes, the same
    exception if any. *)
Lemma buildNodes_removeNode network c B cB :
  (∀ node, (B, node) ∈ nodes network →
           registeredFactory (nodeTypeId node) = None ∧
           IsHoudiniPrincipledShaderHydraNode B = None) →
  last (nodes network).*1 ≠ Some B ∨ surfaceParts (nodes network) = [] →
  materialNodes (buildNodes (removeNode B cB network) c).1.1 =
    materialNodes (buildNodes network c).1.1 ∧
  (buildNodes (removeNode B cB network) c).1.2 = (buildNodes network c).1.2.
Proof.
  intros HB Hlast. rewrite !buildNodes_unfold. cbn [fst snd nodes removeNode].
  destruct (createNodes_removeEntry B cB (nodes network)
              (mkPass c ∅ None None) (mkPass c ∅ None None) HB eq_refl)
    as [Hag Heq].
  destruct (nodes network) as [|e rest] eqn:Hnodes; [done|].
  rewrite <-Hnodes in *.
  destruct Hlast as [Hlast|Hnone].
  - rewrite Heq; [done|done|]. by rewrite Hnodes.
  - assert (houdiniSurface
              (createNodes (nodes network) (mkPass c ∅ None None)).1 = None)
      as Hs by (by rewrite createNodes_surface, Hnone).
    destruct (passAgree_createHoudiniNode _ _ Hag Hs) as [Hag' Ht].
    split; [|done]. by apply passAgree_fields in Hag' as (-> & _).
Qed.

Lemma buildNodes_unknown_absent network c p node :
  NoDup (nodes network).*1 → (p, node) ∈ nodes network →
  registeredFactory (nodeTypeId node) = None →
  IsHoudiniPrincipledShaderHydraNode p = None →
  materialNodes (buildNodes network c).1.1 !! p = None.
Proof.
  intros Hnd Hin Hreg Hh. rewrite buildNodes_unfold. cbn [fst].
  rewrite createHoudiniNode_nodes.
  assert (materialNodes
            (createNodes (nodes network) (mkPass c ∅ None None)).1 !! p =
          None) as Hp.
  { apply not_elem_of_dom. rewrite createNodes_dom. cbn [materialNodes].
    rewrite dom_empty_L. intros [?%elem_of_empty|(t & n & Hev)]; [done|].
    apply createNodes_factory_in in Hev as (_ & [f Hf] & node' & Hin' & ->).
    rewrite (NoDup_fst_unique _ _ _ _ Hnd Hin Hin') in Hreg. congruence. }
  destruct (houdiniSurface _) as [[q ps]|] eqn:Hs; [|done].
  destruct (HoudiniPrincipledNode _ _ _).1 as [n|e]; [|done].
  cbn [fst]. rewrite lookup_insert_ne; [done|]. intros <-.
  rewrite createNodes_surface in Hs.
  destruct (last (surfaceParts (nodes network))) as [part|] eqn:Hl; [|done].
  injection Hs as ->. apply last_Some_elem_of in Hl.
  apply surfaceParts_detected in Hl. congruence.
Qed.


End Builder.

(** ** Concrete networks

    A backend node is a handle with the inputs bound to it so far (the
    latest first); its outputs hold the handle.  The backend state counts
    the nodes made, which gives each its handle. *)

Definition demoNode : Type := nat * list (string * VtValue).

Definition demoSetInput (n : demoNode) (inputId : string) (v : VtValue)
  : demoNode :=
  (n.1, (inputId, v) :: n.2).

Definition demoGetOutput (n : demoNode) (outputName : string) : VtValue :=
  VtMaterialNode (Some n.1).

Definition demoMake : @Factory demoNode nat :=
  λ c _, (Created (backend c, []),
          mkContext (currentNodePath c) (isShadowCatcher c)
                    (isReflectionCatcher c) (uvPrimvarName c)
                    (displacementScale c) (S (backend c))).

Definition demoRegistry (typeId : string) : option (@Factory demoNode nat) :=
  if String.eqb typeId "const" then Some demoMake
  else if String.eqb typeId "add" then Some demoMake
  else if String.eqb typeId "null" then Some (λ c _, (ReturnedNull, c))
  else if String.eqb typeId "broken"
       then Some (λ c _, (ThrewNodeError "no such file", c))
  else if String.eqb typeId "empty" then Some (λ c _, (ThrewNodeEmpty, c))
  else None.

Definition demoHoudini (p : string) : option bool :=
  if String.eqb p "/mat/principled_surface" then Some true
  else if String.eqb p "/mat/principled_disp" then Some false
  else None.

Definition demoHoudiniNode (c : @BuilderContext nat)
           (surface : list (string * VtValue))
           (disp : option (list (string * VtValue)))
  : (demoNode + Exception) * @BuilderContext nat :=
  (inl (1000, surface ++ default [] disp), c).

(** A constructor of the merged node that throws. *)
Definition demoHoudiniThrows (c : @BuilderContext nat)
           (surface : list (string * VtValue))
           (disp : option (list (string * VtValue)))
  : (demoNode + Exception) * @BuilderContext nat :=
  (inr (RprUsd_NodeError "no uber node"), c).

Definition demoSdr (typeId : string) : bool :=
  String.eqb typeId "ND_standard_surface_surfaceshader".

Definition demoMtlx (materialPath : string) (network : HdMaterialNetwork2)
           (node : HdMaterialNode2) (c : @BuilderContext nat) : option nat :=
  Some 500.

Definition demoBuild (network : HdMaterialNetwork2) :=
  buildNodes demoRegistry demoHoudini demoHoudiniNode network (emptyContext 0).

Definition demoResolver (network : HdMaterialNetwork2) : @Resolver demoNode :=
  mkResolver (materialNodes (demoBuild network).1.1) ∅.

Definition demoCreateMaterial (fuel : nat) (network : HdMaterialNetwork2) :=
  CreateMaterial demoSetInput demoGetOutput demoRegistry demoHoudini
                 demoHoudiniNode "id" "cryptomatteName" demoSdr demoMtlx
                 fuel "/mat" network false 0.

Definition out (p : string) : HdMaterialConnection2 := mkConnection p "out".

(** A diamond: [D] reads [B] and [C], which both read [A]. *)
Definition diamond : HdMaterialNetwork2 :=
  mkNetwork
    [("/mat/A", mkNode "const" [] []);
     ("/mat/B", mkNode "add" [] [("in1", [out "/mat/A"])]);
     ("/mat/C", mkNode "add" [] [("in1", [out "/mat/A"])]);
     ("/mat/D", mkNode "add" []
                       [("in1", [out "/mat/B"]); ("in2", [out "/mat/C"])])]
    [("surface", out "/mat/D")].

(** A chain: [C] reads [B], of a type without factory, which reads [A]. *)
Definition chain : HdMaterialNetwork2 :=
  mkNetwork
    [("/mat/A", mkNode "const" [] []);
     ("/mat/B", mkNode "filter" [] [("in", [out "/mat/A"])]);
     ("/mat/C", mkNode "add" [] [("in1", [out "/mat/B"])])]
    [("surface", out "/mat/C")].

(** [B], without factory, has two connections on its first input. *)
Definition fanIn : HdMaterialNetwork2 :=
  mkNetwork
    [("/mat/A", mkNode "const" [] []);
     ("/mat/B", mkNode "filter" [] [("in", [out "/mat/A"; out "/mat/A"])])]
    [("surface", out "/mat/B")].

(** [A] reads [B], which has no backend node and no input. *)
Definition unbound : HdMaterialNetwork2 :=
  mkNetwork
    [("/mat/A", mkNode "add" [] [("in1", [out "/mat/B"])]);
     ("/mat/B", mkNode "filter" [] [])]
    [("surface", out "/mat/A")].

(** Factories that fail in the three ways, and one that works. *)
Definition failing : HdMaterialNetwork2 :=
  mkNetwork
    [("/mat/A", mkNode "broken" [] []);
     ("/mat/B", mkNode "null" [] []);
     ("/mat/C", mkNode "empty" [] []);
     ("/mat/D", mkNode "const" [] [])]
    [("surface", out "/mat/D")].

(** A surface node with an identifier. *)
Definition tagged (id : Z) : HdMaterialNetwork2 :=
  mkNetwork [("/mat/A", mkNode "const" [("id", VtInt id)] [])]
            [("surface", out "/mat/A")].

(** A MaterialX surface shader, which has no factory. *)
Definition standardSurface : HdMaterialNetwork2 :=
  mkNetwork
    [("/mat/A", mkNode "ND_standard_surface_surfaceshader" [] [])]
    [("surface", out "/mat/A")].

(** The two parts of a principled shader, and the displacement part
    alone. *)
Definition principled : HdMaterialNetwork2 :=
  mkNetwork
    [("/mat/principled_disp", mkNode "" [("scale", VtInt 2)] []);
     ("/mat/principled_surface", mkNode "" [("rough", VtInt 1)] [])]
    [("surface", out "/mat/principled_surface")].

Definition displacementOnly : HdMaterialNetwork2 :=
  mkNetwork [("/mat/principled_disp", mkNode "" [("scale", VtInt 2)] [])] [].

(** The diamond resolves with each node wired once: [D], then [B] and
    below it [A], then [C], for which [A] is only read. *)
Example diamond_wired :
  (λ r, (r.1.1, wiredOf r.2)) <$>
    resolveTerminals demoSetInput demoGetOutput diamond 4
                     (demoResolver diamond) =
  Some ((VtEmpty, VtMaterialNode (Some 3), VtEmpty),
        ["/mat/D"; "/mat/B"; "/mat/A"; "/mat/C"]).
Proof. vm_compute. reflexivity. Qed.

(** Membership in a list that computes. *)
Ltac elem_here := vm_compute; repeat first [by left | right].

(** C1, counterexample: the input of [A] has one connection, which
    resolves to the empty value; nothing is bound. *)
Lemma unbound_input_not_set :
  ¬ everyInputBound demoSetInput demoGetOutput unbound 3 (out "/mat/A")
      (demoResolver unbound).
Proof.
  intros H.
  destruct (getNodeOutput demoSetInput demoGetOutput unbound 3 (out "/mat/A")
              (demoResolver unbound)) as [[[v st'] evs]|] eqn:E;
    [|vm_compute in E; discriminate].
  destruct (H (mkNode "add" [] [("in1", [out "/mat/B"])]) (0, []) v st' evs
              eq_refl eq_refl (not_elem_of_empty _) E "in1" (out "/mat/B"))
    as [w Hw]; [by left|].
  vm_compute in E. injection E as <- <- <-.
  repeat (apply elem_of_cons in Hw as [Hw|Hw]; [discriminate|]).
  by apply elem_of_nil in Hw.
Qed.

Lemma getNodeOutput_wires_once_witness :
  match resolveTerminals demoSetInput demoGetOutput diamond 4
                         (demoResolver diamond) with
  | Some r => NoDup (wiredOf r.2)
  | None => False
  end.
Proof.
  destruct (resolveTerminals demoSetInput demoGetOutput diamond 4
              (demoResolver diamond)) as [[[o s] e]|] eqn:E;
    [|vm_compute in E; discriminate].
  exact (proj2 (proj2 (proj2
           (getNodeOutput_wires_once demoSetInput demoGetOutput diamond)))
           4 _ o s e E).
Defined.





(** The constructor of the merged node throws: the exception leaves the
    call, whatever the recursion budget, and no terminal is resolved. *)
Example merged_node_throws :
  CreateMaterial demoSetInput demoGetOutput demoRegistry demoHoudini
                 demoHoudiniThrows "id" "cryptomatteName" demoSdr demoMtlx
                 0 "/mat" principled false 0 =
  Some (Threw (RprUsd_NodeError "no uber node"),
        [EvHoudiniNode "/mat/principled_surface" [("rough", VtInt 1)]
                       (Some [("scale", VtInt 2)])]).
Proof. vm_compute. reflexivity. Qed.





(** C9, counterexample: the predicate holds for a node, the displacement
    part, and no merged node is made. *)
Lemma displacement_part_alone_not_merged :
  ¬ detectedMeansMerged demoRegistry demoHoudini demoHoudiniNode
      displacementOnly (emptyContext 0).
Proof.
  intros H.
  assert (length (houdiniNodes (demoBuild displacementOnly).2) = 1) as Hlen.
  { apply H.
    exists ("/mat/principled_disp", mkNode "" [("scale", VtInt 2)] []).
    split; [by left|]. by eexists. }
  vm_compute in Hlen. discriminate.
Qed.

Lemma houdini_node_synthesized_witness :
  houdiniNodes (demoBuild principled).2 =
    [("/mat/principled_surface", [("rough", VtInt 1)],
      Some [("scale", VtInt 2)])] ∧
  (demoBuild principled).1.2 = None ∧
  materialNodes (demoBuild principled).1.1 !! "/mat/principled_surface" =
    Some (1000, [("rough", VtInt 1); ("scale", VtInt 2)]).
Proof.
  destruct (houdini_node_synthesized demoSetInput demoGetOutput demoRegistry
              demoHoudini demoHoudiniNode "id" "cryptomatteName" principled
              (emptyContext 0)) as (_ & _ & Hone & Hnode & _).
  split; [exact Hone|].
  change (last (surfaceParts demoRegistry demoHoudini (nodes principled)))
    with (Some ("/mat/principled_surface", [("rough", VtInt 1)])) in Hnode.
  cbv beta iota in Hnode. unfold demoHoudiniNode at 1 in Hnode.
  cbn [fst] in Hnode. destruct Hnode as [Hreturned Hnodes].
  split; [exact Hreturned|]. unfold demoBuild. rewrite Hnodes.
  apply lookup_insert_eq.
Defined.

(** When the constructor throws, the build has no merged node. *)
Example merged_node_not_made :
  let build := buildNodes demoRegistry demoHoudini demoHoudiniThrows
                          principled (emptyContext 0) in
  build.1.2 = Some (RprUsd_NodeError "no uber node") ∧
  materialNodes build.1.1 !! "/mat/principled_surface" = None.
Proof. vm_compute. done. Qed.

(** ** Further networks *)

(** Two nodes with backend nodes that read each other, and two without
    that do the same. *)
Definition cyclic : HdMaterialNetwork2 :=
  mkNetwork
    [("/mat/A", mkNode "add" [] [("in1", [out "/mat/B"])]);
     ("/mat/B", mkNode "add" [] [("in1", [out "/mat/A"])])]
    [("surface", out "/mat/A")].

Definition loop : HdMaterialNetwork2 :=
  mkNetwork
    [("/mat/A", mkNode "filter" [] [("in", [out "/mat/B"])]);
     ("/mat/B", mkNode "filter" [] [("in", [out "/mat/A"])])]
    [("surface", out "/mat/A")].

(** A surface terminal that names no node of the network, and a node
    that no terminal leads to. *)
Definition dangling : HdMaterialNetwork2 :=
  mkNetwork [("/mat/A", mkNode "const" [] [])]
            [("displacement", out "/mat/A"); ("surface", out "/mat/X")].

Definition spare : HdMaterialNetwork2 :=
  mkNetwork [("/mat/A", mkNode "const" [] []);
             ("/mat/B", mkNode "const" [] [])]
            [("surface", out "/mat/A")].

(** The cycle through backend nodes resolves: [A] is wired, below it
    [B], whose input reads the output of [A] while [A] is being wired. *)
Example cyclic_wired :
  (λ r, (r.1.1, wiredOf r.2)) <$>
    resolveTerminals demoSetInput demoGetOutput cyclic 3
                     (demoResolver cyclic) =
  Some ((VtEmpty, VtMaterialNode (Some 0), VtEmpty), ["/mat/A"; "/mat/B"]).
Proof. vm_compute. reflexivity. Qed.

Lemma pass_through_loop_never_returns_witness :
  getNodeOutput demoSetInput demoGetOutput loop 50 (out "/mat/A")
                (demoResolver loop) = None.
Proof.
  apply (pass_through_loop_never_returns demoSetInput demoGetOutput loop
           (demoResolver loop) {["/mat/A"; "/mat/B"]}).
  - intros p Hp. apply elem_of_union in Hp as [Hp|Hp];
      apply elem_of_singleton in Hp; subst p.
    + exists (mkNode "filter" [] [("in", [out "/mat/B"])]), "in",
        (out "/mat/B"), [].
      split; [reflexivity|]. split; [vm_compute; reflexivity|].
      split; [reflexivity|]. apply elem_of_union. right.
      by apply elem_of_singleton.
    + exists (mkNode "filter" [] [("in", [out "/mat/A"])]), "in",
        (out "/mat/A"), [].
      split; [reflexivity|]. split; [vm_compute; reflexivity|].
      split; [reflexivity|]. apply elem_of_union. left.
      by apply elem_of_singleton.
  - apply elem_of_union. left. by apply elem_of_singleton.
Defined.

Lemma resolution_returns_witness : is_Some (demoCreateMaterial 3 cyclic).
Proof.
  pose proof (resolution_returns demoSetInput demoGetOutput demoRegistry
                demoHoudini demoHoudiniNode "id" "cryptomatteName" demoSdr
                demoMtlx cyclic (λ _, 0) 0 (λ _, le_n 0)) as [_ H].
  apply (H "/mat" false 0 3).
  - intros p node i c rest Hn Hp. exfalso. apply Hp.
    unfold cyclic in Hn. cbn [mapFind nodes] in Hn.
    destruct (String.eqb_spec "/mat/A" p) as [<-|_].
    { apply elem_of_dom. vm_compute. by eexists. }
    destruct (String.eqb_spec "/mat/B" p) as [<-|_]; [|discriminate Hn].
    apply elem_of_dom. vm_compute. by eexists.
  - vm_compute. lia.
Defined.

Lemma inputs_bound_from_connections_witness :
  match getNodeOutput demoSetInput demoGetOutput diamond 4 (out "/mat/D")
                      (demoResolver diamond) with
  | Some r =>
      ∀ p i w, EvSetInput p i w ∈ r.2 →
               p ∈ wiredOf r.2 ∧ IsEmpty w = false
  | None => False
  end.
Proof.
  destruct (getNodeOutput demoSetInput demoGetOutput diamond 4
              (out "/mat/D") (demoResolver diamond)) as [[[v s] e]|] eqn:E;
    [|vm_compute in E; discriminate].
  intros p i w Hin.
  destruct (inputs_bound_from_connections demoSetInput demoGetOutput
              diamond 4 _ _ v s e E) as [H _].
  destruct (H p i w Hin) as (H1 & H2 & _). split; [exact H1|exact H2].
Defined.

Lemma terminal_needs_its_node_witness :
  match demoCreateMaterial 2 dangling with
  | Some r => InvalidConnection "/mat/X" ∈ logOf r.2
  | None => False
  end.
Proof.
  destruct (demoCreateMaterial 2 dangling) as [[[mat|e] evs]|] eqn:E;
    [|vm_compute in E; discriminate|vm_compute in E; discriminate].
  destruct (terminal_needs_its_node demoSetInput demoGetOutput demoRegistry
              demoHoudini demoHoudiniNode "id" "cryptomatteName" demoSdr
              demoMtlx 2 "/mat" dangling false 0 mat evs E eq_refl)
    as [_ H].
  apply (H "surface" (out "/mat/X")); [|reflexivity|reflexivity].
  right. left.
Defined.


(** A name with a null character inside: [SetName] is given the text
    before it. *)
Definition named : HdMaterialNetwork2 :=
  mkNetwork
    [("/mat/A",
      mkNode "const"
             [("cryptomatteName",
               VtString ("gold" +:+ String Ascii.zero "dust"))] [])]
    [("surface", out "/mat/A")].

Example name_cut_at_null :
  (λ r, namesSet r.2) <$> demoCreateMaterial 2 named = Some [(0, "gold")].
Proof. vm_compute. reflexivity. Qed.

Lemma material_keeps_what_was_built_witness :
  match demoCreateMaterial 2 spare with
  | Some (Returned (Some m), _) =>
      dom (materialNodesOwned m) = dom (materialNodes (demoBuild spare).1.1)
  | _ => False
  end.
Proof.
  destruct (demoCreateMaterial 2 spare) as [[[[m|]|e] evs]|] eqn:E;
    [|vm_compute in E; discriminate|vm_compute in E; discriminate
     |vm_compute in E; discriminate].
  destruct (material_keeps_what_was_built demoSetInput demoGetOutput
              demoRegistry demoHoudini demoHoudiniNode "id"
              "cryptomatteName" demoSdr demoMtlx 2 "/mat" spare false 0 m
              evs E eq_refl) as [H _].
  exact H.
Defined.

End Graph.

(* ===================================================================== *)
(** * The MaterialX attempt: [CreateMaterialXFromUsdShade]                 *)
(* ===================================================================== *)

Module MaterialX.

Import Graph.

Section CreateMaterialXFromUsdShade.

(** Backend nodes and the backend as in [Graph], and MaterialX
    documents. *)
Context {MaterialNode Backend Document : Type}.

(** Is there a MaterialX shader node of this identifier in the
    [SdrRegistry]; the path of the plugin that provides
    [UsdSchemaBase], if the [PlugRegistry] has one; [TfNormPath] and
    [TfGetPathName]; the MaterialX calls and
    [RprUsd_CreateRprMtlxFromString]. *)
Variable mtlxSdrNode : TfToken → bool.
Variable usdPluginPath : option string.
Variable TfNormPath TfGetPathName : string → string.
Variable createDocument : Document.
Variable loadLibraries : string → Document → Document.
Variable HdMtlxCreateMtlxDocumentFromHdNetwork :
  HdMaterialNetwork2 → HdMaterialNode2 → SdfPath → Document → Document.
Variable writeToXmlString : Document → string.
Variable RprUsd_CreateRprMtlxFromString :
  string → @BuilderContext Backend → option nat.

Inductive Event :=
| EvFindPlugin
| EvLoadLibraries (searchPath : string)
| EvCreateRprMtlx (mtlxString : string).

(** Lines 356-364: the value of [*materialXStdlibPath] after them. *)
Definition findStdlibPath (materialXStdlibPath : string)
  : string * list Event :=
  if String.eqb materialXStdlibPath EmptyString then
    match usdPluginPath with
    | Some usdLibPath =>
        (TfNormPath (TfGetPathName usdLibPath +:+ ".."), [EvFindPlugin])
    | None => (materialXStdlibPath, [EvFindPlugin])
    end
  else (materialXStdlibPath, []).

(** Lines 366-373. *)
Definition loadStdLibraries (materialXStdlibPath : string)
  : Document * list Event :=
  if String.eqb materialXStdlibPath EmptyString then (createDocument, [])
  else (loadLibraries materialXStdlibPath createDocument,
        [EvLoadLibraries materialXStdlibPath]).

(** The MaterialX string made of the network, given the path of the
    standard libraries (lines 366-385). *)
Definition mtlxStringOf (materialPath : SdfPath)
           (network : HdMaterialNetwork2) (terminalNode : HdMaterialNode2)
           (materialXStdlibPath : string) : string :=
  writeToXmlString
    (HdMtlxCreateMtlxDocumentFromHdNetwork
       network terminalNode materialPath
       (loadStdLibraries materialXStdlibPath).1).

(** [CreateMaterialXFromUsdShade]: the material ([None] for
    [nullptr]), [*materialXStdlibPath] after the call, and the
    events. *)
Definition CreateMaterialXFromUsdShade (materialPath : SdfPath)
           (network : HdMaterialNetwork2) (context : @BuilderContext Backend)
           (materialXStdlibPath : string)
  : option (RprUsdMaterial MaterialNode) * string * list Event :=
  match mapFind surfaceToken (terminals network) with
  | None => (None, materialXStdlibPath, [])
  | Some nodeConnection =>
      match mapFind (upstreamNode nodeConnection) (nodes network) with
      | None => (None, materialXStdlibPath, [])
      | Some terminalNode =>
          if mtlxSdrNode (nodeTypeId terminalNode) then
            let '(stdlibPath, evs1) := findStdlibPath materialXStdlibPath in
            let evs2 := (loadStdLibraries stdlibPath).2 in
            let mtlxString :=
              mtlxStringOf materialPath network terminalNode stdlibPath in
            (match RprUsd_CreateRprMtlxFromString mtlxString context with
             | Some mtlxNode =>
                 Some (mkMaterial MaterialNode (Some mtlxNode) None None
                                  false false EmptyString VtEmpty ∅)
             | None => None
             end,
             stdlibPath,
             evs1 ++ evs2 ++ [EvCreateRprMtlx mtlxString])
          else (None, materialXStdlibPath, [])
      end
  end.

(** Does the network have a surface terminal whose upstream node is a
    MaterialX shader node. *)
Definition mtlxTerminal (network : HdMaterialNetwork2) : bool :=
  match mapFind surfaceToken (terminals network) with
  | Some c =>
      match mapFind (upstreamNode c) (nodes network) with
      | Some node => mtlxSdrNode (nodeTypeId node)
      | None => false
      end
  | None => false
  end.

(** ** The path of the standard libraries *)

Lemma findStdlibPath_known p :
  p ≠ EmptyString → findStdlibPath p = (p, []).
Proof.
  intros Hp. unfold findStdlibPath.
  by destruct (String.eqb_spec p EmptyString).
Qed.

(** X18.  The path of the standard libraries is looked for only while it is
    not known: a call that is given a path leaves it and asks the plugin
    registry nothing; a call on a network without MaterialX surface
    shader returns null before anything is looked up, loaded or
    created; the libraries are loaded from the path the call leaves,
    and only when that is not empty.  So after a call that found the
    path no later call looks for it again. *)
Theorem stdlib_path_found_once materialPath network context p :
  let r := CreateMaterialXFromUsdShade materialPath network context p in
  (p ≠ EmptyString → r.1.2 = p ∧ EvFindPlugin ∉ r.2) ∧
  (mtlxTerminal network = false → r = (None, p, [])) ∧
  (∀ q, EvLoadLibraries q ∈ r.2 → q = r.1.2 ∧ q ≠ EmptyString) ∧
  (mtlxTerminal network = true → r.1.2 ≠ EmptyString →
   EvLoadLibraries r.1.2 ∈ r.2) ∧
  (r.1.2 ≠ EmptyString →
   ∀ materialPath' network' context',
     let r' := CreateMaterialXFromUsdShade materialPath' network' context'
                                           r.1.2 in
     r'.1.2 = r.1.2 ∧ EvFindPlugin ∉ r'.2).
Proof.
  assert (∀ mp net ctx q,
            q ≠ EmptyString →
            (CreateMaterialXFromUsdShade mp net ctx q).1.2 = q ∧
            EvFindPlugin ∉ (CreateMaterialXFromUsdShade mp net ctx q).2)
    as Hknown.
  { intros mp net ctx q Hq. unfold CreateMaterialXFromUsdShade.
    destruct (mapFind _ _) as [c|]; [|split; [done|by intros ?%elem_of_nil]].
    destruct (mapFind _ _) as [node|];
      [|split; [done|by intros ?%elem_of_nil]].
    destruct (mtlxSdrNode _); [|split; [done|by intros ?%elem_of_nil]].
    rewrite (findStdlibPath_known q Hq). cbn [fst snd]. split; [done|].
    unfold loadStdLibraries.
    destruct (String.eqb_spec q EmptyString); [done|]. cbn [fst snd app].
    intros Hin. rewrite !elem_of_cons, elem_of_nil in Hin.
    by destruct Hin as [|[|[]]]. }
  cbn zeta. split; [by apply Hknown|]. split; [|split; [|split]].
  - unfold mtlxTerminal, CreateMaterialXFromUsdShade.
    destruct (mapFind _ _) as [c|]; [|done].
    destruct (mapFind _ _) as [node|]; [|done]. by intros ->.
  - intros q. unfold CreateMaterialXFromUsdShade.
    destruct (mapFind _ _) as [c|]; [|by intros ?%elem_of_nil].
    destruct (mapFind _ _) as [node|]; [|by intros ?%elem_of_nil].
    destruct (mtlxSdrNode _); [|by intros ?%elem_of_nil].
    destruct (findStdlibPath p) as [p1 evs1] eqn:E1. cbn [fst snd].
    assert (EvLoadLibraries q ∉ evs1) as Hno.
    { unfold findStdlibPath in E1.
      destruct (String.eqb _ _); [destruct usdPluginPath|];
        injection E1 as <- <-; rewrite ?list_elem_of_singleton;
        by intros ?%elem_of_nil || done. }
    unfold loadStdLibraries.
    destruct (String.eqb_spec p1 EmptyString) as [->|Hp1]; cbn [fst snd app];
      rewrite !elem_of_app, ?list_elem_of_singleton, ?elem_of_nil.
    + by intros [?|[=]].
    + rewrite !elem_of_cons, elem_of_nil.
      intros [?|[H|[[=]|[]]]]; [done|]. by simplify_eq.
  - unfold mtlxTerminal, CreateMaterialXFromUsdShade.
    destruct (mapFind _ _) as [c|]; [|done].
    destruct (mapFind _ _) as [node|]; [|done]. intros ->.
    destruct (findStdlibPath p) as [p1 evs1]. cbn [fst snd]. intros Hp1.
    unfold loadStdLibraries.
    destruct (String.eqb_spec p1 EmptyString); [done|]. cbn [fst snd].
    apply elem_of_app. right. by left.
  - intros Hr mp net ctx. by apply Hknown.
Qed.

(** The two definitions of the call agree: the material is the one of
    the definition in [Graph], when the creation of the backend node
    there stands for the steps from the standard libraries to
    [RprUsd_CreateRprMtlxFromString]. *)
Lemma materialx_attempt_refined materialPath network context p :
  (CreateMaterialXFromUsdShade materialPath network context p).1.1 =
  Graph.CreateMaterialXFromUsdShade
    mtlxSdrNode
    (λ mp net node ctx,
       RprUsd_CreateRprMtlxFromString
         (mtlxStringOf mp net node (findStdlibPath p).1) ctx)
    materialPath network context.
Proof.
  unfold CreateMaterialXFromUsdShade, Graph.CreateMaterialXFromUsdShade.
  destruct (mapFind _ _) as [c|]; [|done].
  destruct (mapFind _ _) as [node|]; [|done].
  destruct (mtlxSdrNode _); [|done].
  by destruct (findStdlibPath p) as [p1 evs1].
Qed.

End CreateMaterialXFromUsdShade.

(** ** A concrete attempt

    Documents are the texts of their parts. *)

Definition demoAttempt (plugin : option string) (p : string) :=
  CreateMaterialXFromUsdShade
    (MaterialNode := demoNode) demoSdr plugin (λ s, s) (λ s, "/usr/lib/")
    [] (λ path doc, path :: doc)
    (λ net node mp doc, mp :: doc) (λ doc, String.concat ";" doc)
    (λ s (c : @BuilderContext nat), Some 500)
    "/mat" standardSurface (emptyContext 0) p.

(** The first call finds the path and loads the libraries from it; a
    call that is given this path does not look for it. *)
Example demo_attempt :
  (demoAttempt (Some "/usr/lib/usd.so") "").1.2 = "/usr/lib/.." ∧
  (demoAttempt (Some "/usr/lib/usd.so") "").2 =
    [EvFindPlugin; EvLoadLibraries "/usr/lib/..";
     EvCreateRprMtlx "/mat;/usr/lib/.."] ∧
  (demoAttempt None "/usr/lib/..").2 =
    [EvLoadLibraries "/usr/lib/.."; EvCreateRprMtlx "/mat;/usr/lib/.."] ∧
  (demoAttempt None "").2 = [EvFindPlugin; EvCreateRprMtlx "/mat"].
Proof. vm_compute. done. Qed.

End MaterialX.

(* ===================================================================== *)
(** * The debug dump: [DumpMaterialNetwork]                                *)
(* ===================================================================== *)

Module Dump.

Abbreviation SdfPath := string (only parsing).
Abbreviation TfToken := string (only parsing).

(** The line feed and the double quote of the format strings. *)
Definition nl : string := String (Ascii.ascii_of_nat 10) EmptyString.
Definition dq : string := String (Ascii.ascii_of_nat 34) EmptyString.

(** [std::strchr] of a character in the literal of line 255, a slash
    and a backslash: a non-null pointer for either of the two and, as
    [strchr] counts the terminator of the literal in, for the null
    character. *)
Definition strchrSeparators (c : Ascii.ascii) : bool :=
  Ascii.eqb c (Ascii.ascii_of_nat 47) || Ascii.eqb c (Ascii.ascii_of_nat 92)
  || Ascii.eqb c (Ascii.ascii_of_nat 0).

(** The loop of lines 254-258 over [filepath]. *)
Fixpoint replaceSeparators (filepath : string) : string :=
  match filepath with
  | EmptyString => EmptyString
  | String c rest =>
      String (if strchrSeparators c then Ascii.ascii_of_nat 95 else c)
             (replaceSeparators rest)
  end.

Section DumpMaterialNetwork.

(** [float], with the text that the conversion [%g] makes of one; the
    parent of a path; whether [fopen] of a name for writing returns a
    stream. *)
Context {Float : Type}.
Variable formatG : Float → string.
Variable GetParentPath : SdfPath → SdfPath.
Variable fopen : string → bool.

(** A [VtValue] as the dump reads it: the name of the type held, and
    the value when it is one of the three types the dump prints. *)
Inductive Held :=
| HeldToken (text : string)
| HeldAssetPath (resolvedPath : string)
| HeldVec4f (v0 v1 v2 v3 : Float)
| HeldOther.

Record VtValue := mkValue {
  typeName : string;
  held : Held
}.

(** [HdMaterialRelationship], [HdMaterialNode], [HdMaterialNetwork] and
    [HdMaterialNetworkMap]; a [std::map] is the list of its entries in
    iteration order. *)
Record HdMaterialRelationship := mkRelationship {
  inputId : SdfPath;
  inputName : TfToken;
  outputId : SdfPath;
  outputName : TfToken
}.

Record HdMaterialNode := mkNode {
  path : SdfPath;
  identifier : TfToken;
  parameters : list (TfToken * VtValue)
}.

Record HdMaterialNetwork := mkNetwork {
  relationships : list HdMaterialRelationship;
  nodes : list HdMaterialNode;
  primvars : list TfToken
}.

Record HdMaterialNetworkMap := mkNetworkMap {
  map : list (TfToken * HdMaterialNetwork);
  terminals : list SdfPath
}.

(** Where the text goes, and the calls on streams in program order;
    every [fprintf] is one [EvPrint]. *)
Inductive Stream :=
| Stdout
| File (name : string).

Inductive Event :=
| EvOpen (name : string) (opened : bool)
| EvPrint (file : Stream) (text : string)
| EvClose (name : string).

(** Lines 239-247. *)
Definition primitivePath (networkMap : HdMaterialNetworkMap)
  : option SdfPath :=
  match terminals networkMap with
  | terminal :: _ => Some terminal
  | [] =>
      match map networkMap with
      | (_, network) :: _ =>
          match nodes network with
          | node :: _ => Some (path node)
          | [] => None
          end
      | [] => None
      end
  end.

(** Lines 249-265: the stream written to, with the attempt to open it. *)
Definition openStream (networkMap : HdMaterialNetworkMap)
  : Stream * list Event :=
  match primitivePath networkMap with
  | Some p =>
      let filepath := replaceSeparators (GetParentPath p) in
      if fopen filepath then (File filepath, [EvOpen filepath true])
      else (Stdout, [EvOpen filepath false])
  | None => (Stdout, [])
  end.

(** Lines 305-316. *)
Definition dumpParameter (param : TfToken * VtValue) : list string :=
  ["          {" +:+ param.1 +:+ ": " +:+ typeName param.2] ++
  match held param.2 with
  | HeldToken text => ["(" +:+ dq +:+ text +:+ dq +:+ ")"]
  | HeldAssetPath resolvedPath => ["(" +:+ dq +:+ resolvedPath +:+ dq +:+ ")"]
  | HeldVec4f v0 v1 v2 v3 =>
      ["(" +:+ formatG v0 +:+ ", " +:+ formatG v1 +:+ ", " +:+ formatG v2
           +:+ ", " +:+ formatG v3 +:+ ")"]
  | HeldOther => []
  end ++
  ["}," +:+ nl].

(** Lines 300-319. *)
Definition dumpNode (node : HdMaterialNode) : list string :=
  ["      {" +:+ nl;
   "        path=" +:+ path node +:+ nl;
   "        identifier=" +:+ identifier node +:+ nl;
   "        parameters: {" +:+ nl] ++
  concat (dumpParameter <$> parameters node) ++
  ["        }" +:+ nl;
   "      }," +:+ nl].

(** Lines 279-290. *)
Definition dumpRelationship (rel : HdMaterialRelationship) : list string :=
  ["      {" +:+ nl;
   "        inputId=" +:+ inputId rel +:+ nl;
   "        inputName=" +:+ inputName rel +:+ nl;
   "        outputId=" +:+ outputId rel +:+ nl;
   "        outputName=" +:+ outputName rel +:+ nl;
   "      }," +:+ nl].

(** Lines 274-323. *)
Definition dumpNetwork (entry : TfToken * HdMaterialNetwork) : list string :=
  ["  " +:+ dq +:+ entry.1 +:+ dq +:+ ": {" +:+ nl;
   "    relationships: [" +:+ nl] ++
  concat (dumpRelationship <$> relationships entry.2) ++
  ["    ]," +:+ nl;
   "    primvars: [" +:+ nl] ++
  ((λ primvar, "      " +:+ primvar +:+ "," +:+ nl) <$> primvars entry.2) ++
  ["    ]" +:+ nl;
   "    nodes: [" +:+ nl] ++
  concat (dumpNode <$> nodes entry.2) ++
  ["    ]" +:+ nl;
   "  }" +:+ nl].

(** Lines 267-324: what is printed, in order. *)
Definition dumpText (networkMap : HdMaterialNetworkMap) : list string :=
  ["terminals: [" +:+ nl] ++
  ((λ terminal, "  " +:+ dq +:+ terminal +:+ dq +:+ "," +:+ nl)
     <$> terminals networkMap) ++
  ["]" +:+ nl;
   "map: {" +:+ nl] ++
  concat (dumpNetwork <$> map networkMap) ++
  ["}" +:+ nl].

(** [DumpMaterialNetwork]. *)
Definition DumpMaterialNetwork (networkMap : HdMaterialNetworkMap)
  : list Event :=
  let '(file, opening) := openStream networkMap in
  opening ++ (EvPrint file <$> dumpText networkMap) ++
  match file with
  | File name => [EvClose name]
  | Stdout => []
  end.

(** ** Reading the trace *)

Definition opensOf (evs : list Event) : list (string * bool) :=
  omap (λ ev, match ev with EvOpen n b => Some (n, b) | _ => None end) evs.

Definition closesOf (evs : list Event) : list string :=
  omap (λ ev, match ev with EvClose n => Some n | _ => None end) evs.

Definition printsOf (evs : list Event) : list (Stream * string) :=
  omap (λ ev, match ev with EvPrint f t => Some (f, t) | _ => None end) evs.

(** The characters of a string. *)
Fixpoint chars (s : string) : list Ascii.ascii :=
  match s with
  | EmptyString => []
  | String c rest => c :: chars rest
  end.

(** ** The name of the dump file *)

Lemma replaceSeparators_chars s :
  chars (replaceSeparators s) =
  (λ c, if strchrSeparators c then Ascii.ascii_of_nat 95 else c) <$> chars s.
Proof. induction s as [|c s IH]; [done|]. simpl. by rewrite IH. Qed.

Lemma chars_inj s t : chars s = chars t → s = t.
Proof.
  revert t. induction s as [|c s IH]; intros [|d t]; try done.
  simpl. intros [= -> H]. by rewrite (IH t H).
Qed.

Lemma chars_length s : length (chars s) = String.length s.
Proof. induction s as [|c s IH]; [done|]. simpl. by rewrite IH. Qed.

Lemma underscore_kept : strchrSeparators (Ascii.ascii_of_nat 95) = false.
Proof. done. Qed.


(** ** The stream written to *)

Lemma printsOf_app (a b : list Event) :
  printsOf (a ++ b) = printsOf a ++ printsOf b.
Proof. apply omap_app. Qed.

Lemma opensOf_app (a b : list Event) : opensOf (a ++ b) = opensOf a ++ opensOf b.
Proof. apply omap_app. Qed.

Lemma closesOf_app (a b : list Event) :
  closesOf (a ++ b) = closesOf a ++ closesOf b.
Proof. apply omap_app. Qed.

Lemma prints_only file (texts : list string) :
  printsOf (EvPrint file <$> texts) = (λ t, (file, t)) <$> texts ∧
  opensOf (EvPrint file <$> texts) = [] ∧
  closesOf (EvPrint file <$> texts) = [].
Proof.
  induction texts as [|t texts (IH1 & IH2 & IH3)]; [done|].
  rewrite !fmap_cons. unfold printsOf, opensOf, closesOf in *.
  cbn [omap list_omap]. by rewrite IH1, IH2, IH3.
Qed.

(** X21.  The whole text goes to one stream, the same text whichever stream
    it is; the text is written to a file exactly when a file name was
    derived and opening it succeeded, and then the file is closed, once
    and after the last line; nothing is closed otherwise, and the
    standard output never is.  At most one file is opened, before the
    first line. *)
Theorem dump_writes_one_stream networkMap :
  let evs := DumpMaterialNetwork networkMap in
  let file := (openStream networkMap).1 in
  printsOf evs = (λ t, (file, t)) <$> dumpText networkMap ∧
  opensOf evs = opensOf (openStream networkMap).2 ∧
  length (opensOf evs) ≤ 1 ∧
  closesOf evs = fst <$> filter (λ o, o.2 = true) (opensOf evs) ∧
  (∀ name, file = File name ↔ (name, true) ∈ opensOf evs) ∧
  (∀ name, file = File name → last evs = Some (EvClose name)) ∧
  (∀ ev, hd_error evs = Some ev →
         (∃ n b, ev = EvOpen n b) ∨
         ev = EvPrint Stdout ("terminals: [" +:+ nl)).
Proof.
  cbn zeta. unfold DumpMaterialNetwork.
  assert ((∃ n b, (openStream networkMap).2 = [EvOpen n b] ∧
                  (openStream networkMap).1 =
                    if b then File n else Stdout) ∨
          ((openStream networkMap).2 = [] ∧
           (openStream networkMap).1 = Stdout)) as Hopen.
  { unfold openStream. destruct (primitivePath networkMap) as [p|];
      [left|by right].
    destruct (fopen _) eqn:E; by eexists _, _. }
  destruct (openStream networkMap) as [file opening]. cbn [fst snd] in *.
  rewrite !printsOf_app, !opensOf_app, !closesOf_app.
  destruct (prints_only file (dumpText networkMap)) as (-> & -> & ->).
  assert (∀ texts, hd_error (EvPrint file <$> dumpText networkMap ++ texts) =
                   Some (EvPrint file ("terminals: [" +:+ nl))) as Hhd
    by done.
  destruct Hopen as [(n & [|] & -> & ->)|[-> ->]];
    unfold printsOf, opensOf, closesOf; cbn [omap list_omap app];
    rewrite ?app_nil_r.
  - split; [done|]. split; [done|]. split; [done|]. split; [done|].
    split; [|split].
    + intros name. split; [intros [= <-]; by left|].
      by intros [= <-]%list_elem_of_singleton.
    + intros name [= <-]. by rewrite app_comm_cons, last_snoc.
    + intros ev [= <-]. left. by eexists _, _.
  - split; [done|]. split; [done|]. split; [done|].
    split; [done|]. split; [|split].
    + intros name. split; [done|].
      by intros [=]%list_elem_of_singleton.
    + by intros name.
    + intros ev [= <-]. left. by eexists _, _.
  - split; [done|]. split; [done|]. split; [simpl; lia|].
    split; [done|]. split; [|split].
    + intros name. split; [done|]. by intros ?%elem_of_nil.
    + by intros name.
    + intros ev Hev. right.
      unfold dumpText in Hev. rewrite fmap_app in Hev. by injection Hev.
Qed.


End DumpMaterialNetwork.

(** ** A concrete dump *)

Definition demoParent (p : string) : string :=
  if String.eqb p "/scene/mat/surface" then "/scene/mat" else "/".

Definition demoMap : @HdMaterialNetworkMap nat :=
  mkNetworkMap
    [("surface",
      mkNetwork [mkRelationship "/scene/mat/tex" "rgb" "/scene/mat/surface"
                                "diffuseColor"]
                [mkNode "/scene/mat/tex" "UsdUVTexture"
                        [("file", mkValue "SdfAssetPath"
                                          (HeldAssetPath "wood.png"))];
                 mkNode "/scene/mat/surface" "UsdPreviewSurface"
                        [("roughness", mkValue "float" HeldOther)]]
                ["st"])]
    ["/scene/mat/surface"].

(** The dump of [demoMap] goes to the file [_scene_mat]: 37 calls of
    [fprintf], then the close. *)
Example demo_dump :
  let evs := DumpMaterialNetwork (λ _ : nat, "0") demoParent (λ _, true)
                                 demoMap in
  opensOf evs = [("_scene_mat", true)] ∧
  length (printsOf evs) = 37 ∧
  last evs = Some (EvClose "_scene_mat").
Proof. vm_compute. done. Qed.

(** The dump of an empty map goes to the standard output. *)
Example empty_dump :
  DumpMaterialNetwork (λ _ : nat, "0") demoParent (λ _, true)
                      (mkNetworkMap [] []) =
  [EvPrint Stdout ("terminals: [" +:+ nl); EvPrint Stdout ("]" +:+ nl);
   EvPrint Stdout ("map: {" +:+ nl); EvPrint Stdout ("}" +:+ nl)].
Proof. vm_compute. reflexivity. Qed.

End Dump.

(* ===================================================================== *)
(** * The registered nodes: [GetRegisteredNodes]                           *)
(* ===================================================================== *)

Module Registry.

Abbreviation TfToken := string (only parsing).

(** [std::string::substr(pos)]: the characters from [pos] on; [None]
    stands for the [std::out_of_range] it throws when [pos] is beyond
    the end. *)
Fixpoint substr (s : string) (pos : nat) : option string :=
  match pos, s with
  | 0, _ => Some s
  | S n, String _ rest => substr rest n
  | S _, EmptyString => None
  end.

Section GetRegisteredNodes.

(** A MaterialX document, a node definition of one, the
    [RprUsd_MtlxNodeInfo] made of one, a node factory, and the
    registered nodes with their lookup table, which [Register] alone
    changes. *)
Context {Document NodeDef NodeInfo Factory Nodes : Type}.

(** Is the file compiled with [USE_CUSTOM_MATERIALX_LOADER]. *)
Variable USE_CUSTOM_MATERIALX_LOADER : bool.

(** The values of [RPRMtlxLoader::LogLevel] that the file names. *)
Variable LogLevel_None LogLevel_Error LogLevel_Info : Z.

(** Library calls: [TfAbsPath], [TfNormPath], [TfGetPathName],
    [Document::getNodeDefs], the constructor of [RprUsd_MtlxNodeInfo]
    (with the message of the [MaterialX::Exception] it may throw), its
    [GetFactory] and [GetName], and [Register]. *)
Variable TfAbsPath TfNormPath TfGetPathName : string → string.
Variable getNodeDefs : Document → list NodeDef.
Variable makeInfo : Document → NodeDef → string → NodeInfo + string.
Variable GetFactory : NodeInfo → option Factory.
Variable GetName : NodeInfo → string.
Variable Register : TfToken → Factory → NodeInfo → Nodes → Nodes.

(** What a call reads from outside the process: the environment
    variable [RPR], the two settings, the files a pattern matches and
    what parsing a file gives (a document, or the message of the
    exception thrown). *)
Record World := mkWorld {
  getenvRPR : string;
  RPRUSD_USE_RPRMTLXLOADER : bool;
  RPRUSD_RPRMTLXLOADER_LOG_LEVEL : Z;
  TfGlob : string → list string;
  readFromXmlFile : string → Document + string
}.

(** [RPRMtlxLoader], as far as this file sets it up. *)
Record RPRMtlxLoader := mkLoader {
  stdlibSearchPath : string;
  logging : Z
}.

(** The members of [RprUsdMaterialRegistry] the function touches. *)
Record Members := mkMembers {
  m_mtlxDefsDirty : bool;
  m_registeredNodes : Nodes;
  m_mtlxInfos : list NodeInfo;
  m_mtlxLoader : option RPRMtlxLoader
}.

Inductive Diagnostic :=
| RPRNotSet
| NoMaterialsFound
| NoNodeDefinitions (file : string)
| ParsingError (file : string) (what : string).

(** The calls that leave the function, in program order (the messages
    under [TF_DEBUG] are left out). *)
Inductive Event :=
| EvLog (d : Diagnostic)
| EvSetupStdlib (searchPath : string)
| EvSetLogging (level : Z)
| EvGlob (pattern : string)
| EvRead (file : string)
| EvRegister (name : TfToken) (info : NodeInfo).

(** How the call ends: with the reference to [m_registeredNodes], or
    with the [std::out_of_range] of [substr], which nothing catches. *)
Inductive Outcome :=
| Returned (nodes : Nodes)
| ThrewOutOfRange.

(** Lines 91-95. *)
Definition clampLogLevel (setting : Z) : Z :=
  if ((setting <? LogLevel_None) || (LogLevel_Info <? setting))%Z
  then LogLevel_Error else setting.

(** Lines 85-97. *)
Definition setupLoader (w : World) (RPR : string) (st : Members)
  : Members * list Event :=
  if RPRUSD_USE_RPRMTLXLOADER w then
    let logLevel := clampLogLevel (RPRUSD_RPRMTLXLOADER_LOG_LEVEL w) in
    (mkMembers (m_mtlxDefsDirty st) (m_registeredNodes st) (m_mtlxInfos st)
               (Some (mkLoader RPR logLevel)),
     [EvSetupStdlib RPR; EvSetLogging logLevel])
  else (st, []).

(** The loop of lines 125-131 over the node definitions of a document;
    the second component is the message of the exception that ended
    it, if one did. *)
Fixpoint registerNodeDefs (mtlxDoc : Document) (uiFolder : string)
         (nodeDefs : list NodeDef) (st : Members)
  : Members * option string * list Event :=
  match nodeDefs with
  | [] => (st, None, [])
  | nodeDef :: rest =>
      match makeInfo mtlxDoc nodeDef uiFolder with
      | inr what => (st, Some what, [])
      | inl shaderInfo =>
          match GetFactory shaderInfo with
          | Some factory =>
              let st1 :=
                mkMembers (m_mtlxDefsDirty st)
                          (Register (GetName shaderInfo) factory shaderInfo
                                    (m_registeredNodes st))
                          (m_mtlxInfos st ++ [shaderInfo])
                          (m_mtlxLoader st) in
              let '(st2, thrown, evs) :=
                registerNodeDefs mtlxDoc uiFolder rest st1 in
              (st2, thrown, EvRegister (GetName shaderInfo) shaderInfo :: evs)
          | None => registerNodeDefs mtlxDoc uiFolder rest st
          end
      end
  end.

(** Lines 111-115. *)
Definition uiFolderOf (rprMaterialsPath file : string) : option string :=
  tail ← substr file (String.length rprMaterialsPath + 1);
  let uiFolder := TfNormPath (TfGetPathName tail) in
  Some (if String.eqb uiFolder "." then EmptyString else uiFolder).

(** Lines 117-135: the [try] block for one file. *)
Definition readMaterial (w : World) (file uiFolder : string) (st : Members)
  : Members * list Event :=
  match readFromXmlFile w file with
  | inr what => (st, [EvRead file; EvLog (ParsingError file what)])
  | inl mtlxDoc =>
      match getNodeDefs mtlxDoc with
      | [] => (st, [EvRead file; EvLog (NoNodeDefinitions file)])
      | nodeDefs =>
          let '(st1, thrown, evs) :=
            registerNodeDefs mtlxDoc uiFolder nodeDefs st in
          (st1,
           EvRead file :: evs ++
           match thrown with
           | Some what => [EvLog (ParsingError file what)]
           | None => []
           end)
      end
  end.

(** The loop of lines 106-136; the second component tells whether it
    ran to its end. *)
Fixpoint readMaterials (w : World) (rprMaterialsPath : string)
         (materialFiles : list string) (st : Members)
  : Members * bool * list Event :=
  match materialFiles with
  | [] => (st, true, [])
  | file :: rest =>
      match uiFolderOf rprMaterialsPath file with
      | None => (st, false, [])
      | Some uiFolder =>
          let '(st1, evs1) := readMaterial w file uiFolder st in
          let '(st2, completed, evs2) :=
            readMaterials w rprMaterialsPath rest st1 in
          (st2, completed, evs1 ++ evs2)
      end
  end.

Definition rprMaterialsPathOf (RPR : string) : string :=
  TfAbsPath (TfNormPath (RPR +:+ "/materials")).

Definition materialsPattern (RPR : string) : string :=
  TfNormPath (rprMaterialsPathOf RPR +:+ "/*/*.mtlx").

(** [GetRegisteredNodes]. *)
Definition GetRegisteredNodes (w : World) (st : Members)
  : Members * Outcome * list Event :=
  if USE_CUSTOM_MATERIALX_LOADER && m_mtlxDefsDirty st then
    let st0 := mkMembers false (m_registeredNodes st) (m_mtlxInfos st)
                         (m_mtlxLoader st) in
    let RPR := getenvRPR w in
    if String.eqb RPR EmptyString then
      (st0, Returned (m_registeredNodes st0), [EvLog RPRNotSet])
    else
      let '(st1, evs1) := setupLoader w RPR st0 in
      let materialFiles := TfGlob w (materialsPattern RPR) in
      let evs2 :=
        EvGlob (materialsPattern RPR) ::
        match materialFiles with
        | [] => [EvLog NoMaterialsFound]
        | _ :: _ => []
        end in
      let '(st2, completed, evs3) :=
        readMaterials w (rprMaterialsPathOf RPR) materialFiles st1 in
      (st2,
       if completed then Returned (m_registeredNodes st2)
       else ThrewOutOfRange,
       evs1 ++ evs2 ++ evs3)
  else (st, Returned (m_registeredNodes st), []).

(** ** Reading the trace *)

Definition registersOf (evs : list Event) : list (TfToken * NodeInfo) :=
  omap (λ ev, match ev with EvRegister n i => Some (n, i) | _ => None end)
       evs.

Definition readsOf (evs : list Event) : list string :=
  omap (λ ev, match ev with EvRead f => Some f | _ => None end) evs.

Definition loggingSet (evs : list Event) : list Z :=
  omap (λ ev, match ev with EvSetLogging l => Some l | _ => None end) evs.

Definition errorsOf (evs : list Event) : list string :=
  omap (λ ev, match ev with
              | EvLog (ParsingError f _) => Some f
              | _ => None
              end) evs.

(** The registered nodes after the given registrations, made in
    order; only infos with a factory are registered. *)
Fixpoint registerAll (regs : list (TfToken * NodeInfo)) (nodes : Nodes)
  : Nodes :=
  match regs with
  | [] => nodes
  | (name, info) :: rest =>
      match GetFactory info with
      | Some factory => registerAll rest (Register name factory info nodes)
      | None => registerAll rest nodes
      end
  end.

(** What a run keeps of the members it starts from. *)
Definition grows (st st' : Members) (evs : list Event) : Prop :=
  m_mtlxDefsDirty st' = m_mtlxDefsDirty st ∧
  m_mtlxLoader st' = m_mtlxLoader st ∧
  m_mtlxInfos st' = m_mtlxInfos st ++ (registersOf evs).*2 ∧
  m_registeredNodes st' = registerAll (registersOf evs) (m_registeredNodes st) ∧
  Forall (λ r, r.1 = GetName r.2 ∧ is_Some (GetFactory r.2)) (registersOf evs).

(** ** The definitions are loaded once *)

Lemma registersOf_app (a b : list Event) :
  registersOf (a ++ b) = registersOf a ++ registersOf b.
Proof. apply omap_app. Qed.

Lemma readsOf_app (a b : list Event) : readsOf (a ++ b) = readsOf a ++ readsOf b.
Proof. apply omap_app. Qed.

Lemma errorsOf_app (a b : list Event) :
  errorsOf (a ++ b) = errorsOf a ++ errorsOf b.
Proof. apply omap_app. Qed.

Lemma loggingSet_app (a b : list Event) :
  loggingSet (a ++ b) = loggingSet a ++ loggingSet b.
Proof. apply omap_app. Qed.

Lemma registerAll_app a b nodes :
  registerAll (a ++ b) nodes = registerAll b (registerAll a nodes).
Proof.
  revert nodes. induction a as [|[n i] a IH]; intros nodes; [done|].
  simpl. by destruct (GetFactory i).
Qed.

Lemma grows_refl st : grows st st [].
Proof.
  repeat split; try done. simpl. by rewrite app_nil_r.
Qed.

Lemma grows_trans st st1 st2 e1 e2 :
  grows st st1 e1 → grows st1 st2 e2 → grows st st2 (e1 ++ e2).
Proof.
  intros (D1 & L1 & I1 & N1 & F1) (D2 & L2 & I2 & N2 & F2).
  unfold grows. rewrite registersOf_app. repeat split.
  - congruence.
  - congruence.
  - by rewrite I2, I1, fmap_app, app_assoc.
  - by rewrite N2, N1, registerAll_app.
  - by apply Forall_app.
Qed.

Lemma grows_silent st evs : registersOf evs = [] → grows st st evs.
Proof.
  intros H. unfold grows. rewrite H. repeat split; try done.
  simpl. by rewrite app_nil_r.
Qed.

Lemma registerNodeDefs_grows doc uiFolder nodeDefs st :
  grows st (registerNodeDefs doc uiFolder nodeDefs st).1.1
        (registerNodeDefs doc uiFolder nodeDefs st).2 ∧
  readsOf (registerNodeDefs doc uiFolder nodeDefs st).2 = [] ∧
  errorsOf (registerNodeDefs doc uiFolder nodeDefs st).2 = [] ∧
  loggingSet (registerNodeDefs doc uiFolder nodeDefs st).2 = [].
Proof.
  revert st. induction nodeDefs as [|d rest IH]; intros st; simpl.
  { split; [apply grows_refl|done]. }
  destruct (makeInfo doc d uiFolder) as [info|what].
  2:{ split; [apply grows_refl|done]. }
  destruct (GetFactory info) as [f|] eqn:Ef; [|apply IH].
  match goal with |- context [registerNodeDefs doc uiFolder rest ?s] =>
    specialize (IH s); destruct (registerNodeDefs doc uiFolder rest s)
      as [[st2 thrown] evs] end.
  cbn [fst snd] in *. destruct IH as (Hg & Hr & He & Hl).
  split; [|done].
  eapply (grows_trans st _ st2 [EvRegister (GetName info) info] evs);
    [|exact Hg].
  repeat split; try done.
  - simpl. by rewrite Ef.
  - constructor; [|done]. simpl. split; [done|]. by rewrite Ef.
Qed.

Lemma readMaterial_grows w file uiFolder st :
  grows st (readMaterial w file uiFolder st).1
        (readMaterial w file uiFolder st).2 ∧
  readsOf (readMaterial w file uiFolder st).2 = [file] ∧
  length (errorsOf (readMaterial w file uiFolder st).2) ≤ 1 ∧
  (∀ f, f ∈ errorsOf (readMaterial w file uiFolder st).2 → f = file) ∧
  loggingSet (readMaterial w file uiFolder st).2 = [].
Proof.
  unfold readMaterial. destruct (readFromXmlFile w file) as [doc|what].
  2:{ split; [by apply grows_silent|]. split; [done|]. split; [done|].
      split; [|done]. by intros f ->%list_elem_of_singleton. }
  destruct (getNodeDefs doc) as [|d ds] eqn:Ed.
  { split; [by apply grows_silent|]. split; [done|]. split; [simpl; lia|].
    split; [|done]. by intros f ?%elem_of_nil. }
  destruct (registerNodeDefs_grows doc uiFolder (d :: ds) st)
    as (Hg & Hr & He & Hl).
  destruct (registerNodeDefs doc uiFolder (d :: ds) st)
    as [[st1 thrown] evs].
  cbn [fst snd] in *.
  assert (∀ tl : list Event, registersOf tl = [] →
            grows st st1 (EvRead file :: evs ++ tl)) as Hgrow.
  { intros tl Htl.
    apply (grows_trans st st st1 [EvRead file] (evs ++ tl));
      [by apply grows_silent|].
    rewrite <-(app_nil_r (evs ++ tl)), <-app_assoc.
    apply (grows_trans st st1 st1 evs (tl ++ [])); [done|].
    apply grows_silent. by rewrite app_nil_r. }
  destruct thrown as [what|].
  - split; [by apply Hgrow|]. cbn [readsOf errorsOf loggingSet omap list_omap].
    fold (readsOf (evs ++ [EvLog (ParsingError file what)])).
    fold (errorsOf (evs ++ [EvLog (ParsingError file what)])).
    fold (loggingSet (evs ++ [EvLog (ParsingError file what)])).
    rewrite readsOf_app, errorsOf_app, loggingSet_app, Hr, He, Hl.
    split; [done|]. split; [done|]. split; [|done].
    by intros f ->%list_elem_of_singleton.
  - split; [by apply Hgrow|]. cbn [readsOf errorsOf loggingSet omap list_omap].
    fold (readsOf (evs ++ [])). fold (errorsOf (evs ++ [])).
    fold (loggingSet (evs ++ [])).
    rewrite readsOf_app, errorsOf_app, loggingSet_app, Hr, He, Hl.
    split; [done|]. split; [simpl; lia|]. split; [|done].
    by intros f ?%elem_of_nil.
Qed.

Lemma readMaterials_grows w path files st :
  let r := readMaterials w path files st in
  grows st r.1.1 r.2 ∧
  readsOf r.2 `prefix_of` files ∧
  (r.1.2 = true → readsOf r.2 = files) ∧
  errorsOf r.2 `sublist_of` readsOf r.2 ∧
  loggingSet r.2 = [] ∧
  (Forall (λ f, String.length path < String.length f) files →
   r.1.2 = true).
Proof.
  revert st. induction files as [|file rest IH]; intros st; cbn zeta.
  { simpl. split; [apply grows_refl|]. by repeat split. }
  cbn [readMaterials]. unfold uiFolderOf.
  destruct (substr file (String.length path + 1)) as [tl|] eqn:Es; simpl.
  2:{ split; [apply grows_refl|]. split; [apply prefix_nil|].
      split; [done|]. split; [done|]. split; [done|].
      intros [Hlen _]%Forall_cons. exfalso.
      clear -Hlen Es. revert Hlen Es.
      generalize (String.length path). intros n. revert n.
      induction file as [|c file IHf]; intros n Hlen Es; simpl in *; [lia|].
      destruct n as [|n]; simpl in Es.
      - by destruct file.
      - apply (IHf n); [lia|done]. }
  match goal with |- context [readMaterial w file ?u st] =>
    destruct (readMaterial_grows w file u st) as (Hg & Hr & He & Hef & Hl);
    destruct (readMaterial w file u st) as [st1 evs1] end.
  specialize (IH st1). cbn zeta in IH.
  destruct (readMaterials w path rest st1) as [[st2 completed] evs2].
  cbn [fst snd] in *.
  destruct IH as (Hg2 & Hr2 & Hc2 & He2 & Hl2 & Hlen2).
  rewrite readsOf_app, errorsOf_app, loggingSet_app, Hr, Hl, Hl2.
  split; [by eapply grows_trans|]. split; [by apply prefix_cons|].
  split; [intros Hc; by rewrite (Hc2 Hc)|]. split; [|split; [done|]].
  - apply sublist_app; [|done].
    destruct (errorsOf evs1) as [|f [|f' l]] eqn:Ee; simpl in He.
    + apply sublist_nil_l.
    + rewrite (Hef f); [done|]. by left.
    + lia.
  - intros [_ Hrest]%Forall_cons. by apply Hlen2.
Qed.

(** X23.  The definitions are looked for once: a call clears
    [m_mtlxDefsDirty] before anything else, however it ends (with [RPR]
    unset, with an exception, or after reading the files), and a call
    that finds the flag cleared, or a build without the loader, reads
    nothing from outside, changes nothing and returns
    [m_registeredNodes]. *)
Theorem definitions_loaded_once w st :
  let r := GetRegisteredNodes w st in
  (USE_CUSTOM_MATERIALX_LOADER = true → m_mtlxDefsDirty r.1.1 = false) ∧
  (USE_CUSTOM_MATERIALX_LOADER && m_mtlxDefsDirty st = false →
   r = (st, Returned (m_registeredNodes st), [])) ∧
  (USE_CUSTOM_MATERIALX_LOADER = true →
   ∀ w', GetRegisteredNodes w' r.1.1 =
         (r.1.1, Returned (m_registeredNodes r.1.1), [])) ∧
  (USE_CUSTOM_MATERIALX_LOADER = true → m_mtlxDefsDirty st = true →
   getenvRPR w = EmptyString →
   r = (mkMembers false (m_registeredNodes st) (m_mtlxInfos st)
                  (m_mtlxLoader st),
        Returned (m_registeredNodes st), [EvLog RPRNotSet])).
Proof.
  cbn zeta.
  assert (USE_CUSTOM_MATERIALX_LOADER = true →
          m_mtlxDefsDirty (GetRegisteredNodes w st).1.1 = false) as Hclear.
  { intros Hu. unfold GetRegisteredNodes. rewrite Hu. simpl.
    destruct (m_mtlxDefsDirty st) eqn:Ed; [|done].
    destruct (String.eqb _ _); [done|].
    destruct (setupLoader w (getenvRPR w) _) as [st1 evs1] eqn:E1.
    assert (m_mtlxDefsDirty st1 = false) as H1.
    { unfold setupLoader in E1.
      destruct (RPRUSD_USE_RPRMTLXLOADER w); by injection E1 as <- _. }
    pose proof (readMaterials_grows w (rprMaterialsPathOf (getenvRPR w))
                  (TfGlob w (materialsPattern (getenvRPR w))) st1) as Hg.
    cbn zeta in Hg.
    destruct (readMaterials _ _ _ _) as [[st2 completed] evs3].
    cbn [fst snd] in *. destruct Hg as ((Hd & _) & _). congruence. }
  split; [done|]. split; [|split].
  - intros H. unfold GetRegisteredNodes. by rewrite H.
  - intros Hu w'. specialize (Hclear Hu).
    unfold GetRegisteredNodes at 1. by rewrite Hu, Hclear.
  - intros Hu Hd He. unfold GetRegisteredNodes. rewrite Hu, Hd, He. done.
Qed.

(** X24.  The logging level given to the loader is the setting when it lies
    between [None] and [Info], and [Error] otherwise; the loader is set
    up at most once in a call, and only when the setting asks for it. *)
Theorem loader_logging_clamped w st :
  let r := GetRegisteredNodes w st in
  (∀ level, level ∈ loggingSet r.2 →
            level = clampLogLevel (RPRUSD_RPRMTLXLOADER_LOG_LEVEL w) ∧
            RPRUSD_USE_RPRMTLXLOADER w = true ∧
            ((LogLevel_None ≤ LogLevel_Error ≤ LogLevel_Info)%Z →
             (LogLevel_None ≤ level ≤ LogLevel_Info)%Z)) ∧
  length (loggingSet r.2) ≤ 1 ∧
  (∀ setting, (LogLevel_None ≤ setting ≤ LogLevel_Info)%Z →
              clampLogLevel setting = setting) ∧
  (∀ setting, (setting < LogLevel_None ∨ LogLevel_Info < setting)%Z →
              clampLogLevel setting = LogLevel_Error).
Proof.
  cbn zeta.
  assert (∀ setting, (LogLevel_None ≤ setting ≤ LogLevel_Info)%Z →
                     clampLogLevel setting = setting) as Hin.
  { intros s Hs. unfold clampLogLevel.
    destruct (Z.ltb_spec s LogLevel_None), (Z.ltb_spec LogLevel_Info s);
      simpl; lia. }
  assert (∀ setting, (setting < LogLevel_None ∨ LogLevel_Info < setting)%Z →
                     clampLogLevel setting = LogLevel_Error) as Hout.
  { intros s Hs. unfold clampLogLevel.
    destruct (Z.ltb_spec s LogLevel_None), (Z.ltb_spec LogLevel_Info s);
      simpl; lia. }
  assert (loggingSet (GetRegisteredNodes w st).2 =
          if USE_CUSTOM_MATERIALX_LOADER && m_mtlxDefsDirty st
             && negb (String.eqb (getenvRPR w) EmptyString)
             && RPRUSD_USE_RPRMTLXLOADER w
          then [clampLogLevel (RPRUSD_RPRMTLXLOADER_LOG_LEVEL w)] else [])
    as Hlog.
  { unfold GetRegisteredNodes.
    destruct (USE_CUSTOM_MATERIALX_LOADER && m_mtlxDefsDirty st); [|done].
    destruct (String.eqb _ _); [done|]. cbn [negb andb]. cbn zeta.
    destruct (setupLoader w (getenvRPR w) _) as [st1 evs1] eqn:E1.
    assert (loggingSet evs1 =
            if RPRUSD_USE_RPRMTLXLOADER w
            then [clampLogLevel (RPRUSD_RPRMTLXLOADER_LOG_LEVEL w)] else [])
      as H1.
    { unfold setupLoader in E1.
      destruct (RPRUSD_USE_RPRMTLXLOADER w); by injection E1 as <- <-. }
    pose proof (readMaterials_grows w (rprMaterialsPathOf (getenvRPR w))
                  (TfGlob w (materialsPattern (getenvRPR w))) st1) as Hg.
    cbn zeta in Hg.
    destruct (readMaterials _ _ _ _) as [[st2 completed] evs3].
    cbn [fst snd] in *. destruct Hg as (_ & _ & _ & _ & Hl & _).
    rewrite !loggingSet_app, Hl, H1.
    assert (loggingSet (EvGlob (materialsPattern (getenvRPR w))
               :: match TfGlob w (materialsPattern (getenvRPR w)) with
                  | [] => [EvLog NoMaterialsFound]
                  | _ :: _ => []
                  end) = []) as -> by (by destruct (TfGlob w _)).
    by rewrite !app_nil_r. }
  rewrite Hlog. split; [|split; [|split; [done|done]]].
  - intros level Hl.
    destruct (USE_CUSTOM_MATERIALX_LOADER && m_mtlxDefsDirty st
              && negb (String.eqb (getenvRPR w) EmptyString)); simpl in Hl;
      [|by apply elem_of_nil in Hl].
    destruct (RPRUSD_USE_RPRMTLXLOADER w); [|by apply elem_of_nil in Hl].
    apply list_elem_of_singleton in Hl as ->. split; [done|]. split; [done|].
    intros Herr. unfold clampLogLevel.
    destruct (Z.ltb_spec (RPRUSD_RPRMTLXLOADER_LOG_LEVEL w) LogLevel_None),
      (Z.ltb_spec LogLevel_Info (RPRUSD_RPRMTLXLOADER_LOG_LEVEL w));
      simpl; lia.
  - by destruct (_ && _ && _ && _); simpl; lia.
Qed.

(** X25.  Every info that [Register] is given is kept in [m_mtlxInfos], in
    the order of the calls, so the pointer registered stays valid; the
    infos registered have a factory and are registered under their own
    name, and [m_registeredNodes] changes by these calls only.  This
    holds also for a call that ends with an exception. *)
Theorem registered_infos_are_kept w st :
  let r := GetRegisteredNodes w st in
  m_mtlxInfos r.1.1 = m_mtlxInfos st ++ (registersOf r.2).*2 ∧
  m_registeredNodes r.1.1 =
    registerAll (registersOf r.2) (m_registeredNodes st) ∧
  Forall (λ reg, reg.1 = GetName reg.2 ∧ is_Some (GetFactory reg.2))
         (registersOf r.2).
Proof.
  cbn zeta. unfold GetRegisteredNodes.
  destruct (USE_CUSTOM_MATERIALX_LOADER && m_mtlxDefsDirty st).
  2:{ simpl. by rewrite app_nil_r. }
  destruct (String.eqb _ _).
  { simpl. by rewrite app_nil_r. }
  cbn zeta.
  destruct (setupLoader w (getenvRPR w) _) as [st1 evs1] eqn:E1.
  assert (m_mtlxInfos st1 = m_mtlxInfos st ∧
          m_registeredNodes st1 = m_registeredNodes st ∧
          registersOf evs1 = []) as (HI & HN & HR).
  { unfold setupLoader in E1.
    destruct (RPRUSD_USE_RPRMTLXLOADER w); by injection E1 as <- <-. }
  pose proof (readMaterials_grows w (rprMaterialsPathOf (getenvRPR w))
                (TfGlob w (materialsPattern (getenvRPR w))) st1) as Hg.
  cbn zeta in Hg.
  destruct (readMaterials _ _ _ _) as [[st2 completed] evs3].
  cbn [fst snd] in *. destruct Hg as ((_ & _ & Hi & Hn & Hf) & _).
  rewrite !registersOf_app, HR.
  assert (registersOf (EvGlob (materialsPattern (getenvRPR w))
             :: match TfGlob w (materialsPattern (getenvRPR w)) with
                | [] => [EvLog NoMaterialsFound]
                | _ :: _ => []
                end) = []) as -> by (by destruct (TfGlob w _)).
  rewrite !app_nil_l. by rewrite Hi, Hn, HI, HN.
Qed.

(** X26.  A file that cannot be parsed, or has no node definition, does not
    keep the files after it from being read: a call that loads the
    definitions and returns has read every file the pattern matched,
    once and in the order of the match, and has reported a parsing
    error at most once for a file, and for files it read only.  It
    returns whenever every matched name is longer than the materials
    path. *)
Theorem every_material_file_is_read w st :
  USE_CUSTOM_MATERIALX_LOADER = true → m_mtlxDefsDirty st = true →
  getenvRPR w ≠ EmptyString →
  let r := GetRegisteredNodes w st in
  let files := TfGlob w (materialsPattern (getenvRPR w)) in
  readsOf r.2 `prefix_of` files ∧
  (r.1.2 ≠ ThrewOutOfRange → readsOf r.2 = files) ∧
  errorsOf r.2 `sublist_of` readsOf r.2 ∧
  (Forall (λ f, String.length (rprMaterialsPathOf (getenvRPR w))
                < String.length f) files →
   r.1.2 = Returned (m_registeredNodes r.1.1)) ∧
  (files = [] → EvLog NoMaterialsFound ∈ r.2).
Proof.
  intros Hu Hd HR. cbn zeta. unfold GetRegisteredNodes. rewrite Hu, Hd.
  cbn [andb]. destruct (String.eqb_spec (getenvRPR w) EmptyString) as [|_];
    [done|]. cbn zeta.
  destruct (setupLoader w (getenvRPR w) _) as [st1 evs1] eqn:E1.
  assert (readsOf evs1 = [] ∧ errorsOf evs1 = []) as [R1 X1].
  { unfold setupLoader in E1.
    destruct (RPRUSD_USE_RPRMTLXLOADER w); by injection E1 as <- <-. }
  pose proof (readMaterials_grows w (rprMaterialsPathOf (getenvRPR w))
                (TfGlob w (materialsPattern (getenvRPR w))) st1) as Hg.
  cbn zeta in Hg.
  destruct (readMaterials _ _ _ _) as [[st2 completed] evs3].
  cbn [fst snd] in *. destruct Hg as (_ & Hp & Hc & He & _ & Hlen).
  rewrite !readsOf_app, !errorsOf_app, R1, X1.
  assert (readsOf (EvGlob (materialsPattern (getenvRPR w))
             :: match TfGlob w (materialsPattern (getenvRPR w)) with
                | [] => [EvLog NoMaterialsFound]
                | _ :: _ => []
                end) = [] ∧
          errorsOf (EvGlob (materialsPattern (getenvRPR w))
             :: match TfGlob w (materialsPattern (getenvRPR w)) with
                | [] => [EvLog NoMaterialsFound]
                | _ :: _ => []
                end) = []) as [-> ->] by (by destruct (TfGlob w _)).
  rewrite !app_nil_l. split; [done|]. split; [|split; [done|split]].
  - intros Hr. apply Hc. by destruct completed.
  - intros Hf. by rewrite (Hlen Hf).
  - intros ->. apply elem_of_app. right. right. by left.
Qed.

End GetRegisteredNodes.

(** ** A concrete materials directory

    Documents are lists of node definitions, a definition is a name,
    and an info is the name with its UI folder; the definition [bad]
    makes the constructor throw, [plain] has no factory.  Registered
    nodes are the list of the names. *)

Definition demoMakeInfo (doc : list string) (nodeDef uiFolder : string)
  : (string * string) + string :=
  if String.eqb nodeDef "bad" then inr "unsupported node"
  else inl (nodeDef, uiFolder).

Definition demoGetFactory (info : string * string) : option nat :=
  if String.eqb info.1 "plain" then None else Some 0.

Definition demoRegister (name : string) (factory : nat)
           (info : string * string) (nodes : list string) : list string :=
  nodes ++ [name].

Definition demoFolder (tail : string) : string :=
  if String.eqb tail "a.mtlx" then "." else "Patterns".

Definition demoWorld (RPR : string) : @World (list string) :=
  mkWorld RPR true 7
          (λ _, ["/rpr/materials/Patterns/checker.mtlx";
                 "/rpr/materials/Patterns/broken.mtlx";
                 "/rpr/materials/Patterns/wood.mtlx"])
          (λ file, if String.eqb file "/rpr/materials/Patterns/broken.mtlx"
                   then inr "not well-formed"
                   else if String.eqb file
                             "/rpr/materials/Patterns/checker.mtlx"
                        then inl ["checker"; "plain"]
                        else inl ["oak"; "bad"; "pine"]).

Definition demoGetRegisteredNodes (w : @World (list string))
           (st : @Members (string * string) (list string)) :=
  GetRegisteredNodes true 0 1 3 (λ p, "/rpr/materials") (λ p, p) demoFolder
                     (λ doc, doc) demoMakeInfo demoGetFactory fst
                     demoRegister w st.

Definition demoMembers : @Members (string * string) (list string) :=
  mkMembers true [] [] None.

(** The broken file is reported and the files after it are read; the
    definition that throws ends its file; the level 7 is replaced by
    [Error]. *)
Example demo_registration :
  let r := demoGetRegisteredNodes (demoWorld "/rpr") demoMembers in
  r.1.2 = Returned ["checker"; "oak"] ∧
  m_mtlxInfos r.1.1 = [("checker", "Patterns"); ("oak", "Patterns")] ∧
  m_mtlxLoader r.1.1 = Some (mkLoader "/rpr" 1) ∧
  errorsOf r.2 = ["/rpr/materials/Patterns/broken.mtlx";
                  "/rpr/materials/Patterns/wood.mtlx"] ∧
  length (readsOf r.2) = 3.
Proof. vm_compute. done. Qed.

Lemma every_material_file_is_read_witness :
  readsOf (demoGetRegisteredNodes (demoWorld "/rpr") demoMembers).2 =
  ["/rpr/materials/Patterns/checker.mtlx";
   "/rpr/materials/Patterns/broken.mtlx";
   "/rpr/materials/Patterns/wood.mtlx"].
Proof.
  destruct (every_material_file_is_read true 0 1 3 (λ p, "/rpr/materials")
              (λ p, p) demoFolder (λ doc, doc) demoMakeInfo demoGetFactory
              fst demoRegister (demoWorld "/rpr") demoMembers eq_refl eq_refl)
    as (_ & H & _); [discriminate|].
  apply H. vm_compute. discriminate.
Defined.

End Registry.
